(** * dms_tools2.pacbio: matching, accuracy and alignment annotation

    A shallow embedding of the annotation core of [dms_tools2/pacbio.py]:
    [re_expandIUPAC], [qvalsToAccuracy], [matchSeqs] and [alignSeqs], and
    further down of [CCS._build_df_from_bamfile] and [matchAndAlignCCS].

    Python values are modelled by inductive types, exceptions by the
    [result] monad, dicts and sets by stdpp's [gmap] and [gset], numpy
    integer arrays by [list Z] and Python floats by real numbers extended
    with a NaN element (rounding is not modelled). *)

From Stdlib Require Import ZArith List String Ascii Bool Lia Reals Lra.
From stdpp Require Import base gmap strings list.

Open Scope string_scope.
Open Scope list_scope.
Open Scope nat_scope.

(** ** Exceptions *)

Inductive exn :=
| AssertionError
| ValueError
| TypeError
| KeyError
| AttributeError
| NameError
| RuntimeError
| RegexError.

Inductive result (A : Type) :=
| Ok (a : A)
| Err (e : exn).
Arguments Ok {A} a.
Arguments Err {A} e.

#[global] Instance result_ret : MRet result := fun A a => Ok a.
#[global] Instance result_bind : MBind result := fun A B f m =>
  match m with
  | Ok a => f a
  | Err e => Err e
  end.

Definition raise {A} (e : exn) : result A := Err e.

Definition is_Err {A} (r : result A) : Prop :=
  match r with Ok _ => False | Err _ => True end.

(** [for x in l: ...] with an accumulator, stopping at the first exception. *)
Fixpoint for_each {A S} (l : list A) (body : S -> A -> result S) (s : S)
  : result S :=
  match l with
  | [] => Ok s
  | x :: l' => s' ← body s x; for_each l' body s'
  end.

(** ** A backtracking regular-expression engine

    [regex] is an external library.  The engine below implements the
    leftmost, greedy, backtracking semantics of Python regular expressions
    for the part of the syntax the module's own patterns and doctests use:
    literals, [.], [^], [$], character classes, (named) groups,
    alternation and the greedy quantifiers.  It serves [re_expandIUPAC]
    (whose group-name pattern is fixed) and the concrete scenarios;
    [matchSeqs] itself is stated over any regular-expression library. *)

Module Regex.

Inductive re :=
| Eps
| Chr (c : ascii)
| Cls (neg : bool) (cs : list ascii)
| Any
| Bol
| Eol
| Seq (r1 r2 : re)
| Alt (r1 r2 : re)
| Rep (r : re) (lo : nat) (hi : option nat)
| Grp (name : option string) (r : re).

(** Spans of the named groups bound so far, most recent first. *)
Definition caps := list (string * (nat * nat)).

Definition bind_group (name : option string) (sp : nat * nat) (cs : caps)
  : caps :=
  match name with
  | Some n => (n, sp) :: cs
  | None => cs
  end.

Definition in_class (neg : bool) (cs : list ascii) (c : ascii) : bool :=
  xorb neg (existsb (Ascii.eqb c) cs).

Definition below (n : nat) (hi : option nat) : bool :=
  match hi with
  | Some h => n <? h
  | None => true
  end.

(** The state of a match attempt: the unread suffix, its offset in the
    subject and the groups bound so far. *)
Definition cont := list ascii -> nat -> caps -> option (nat * caps).

Definition orelse {A} (x y : option A) : option A :=
  match x with
  | Some _ => x
  | None => y
  end.

(** The loop of a greedy quantifier over [step], the matcher of its
    body: one more iteration first, giving up the iteration on failure.
    Past the lower bound an iteration has to consume input. *)
Fixpoint rep_loop (step : list ascii -> nat -> caps -> cont -> option (nat * caps))
         (lo : nat) (hi : option nat) (k : cont)
         (fuel n : nat) (rest : list ascii) (pos : nat) (cs : caps)
         {struct fuel} : option (nat * caps) :=
  let stop := if lo <=? n then k rest pos cs else None in
  match fuel with
  | O => stop
  | S fuel' =>
      let more :=
        if below n hi then
          step rest pos cs (fun rest' pos' cs' =>
            if (pos' =? pos) && (lo <=? n) then None
            else rep_loop step lo hi k fuel' (S n) rest' pos' cs')
        else None in
      orelse more stop
  end.

Fixpoint run (r : re) (rest : list ascii) (pos : nat) (cs : caps)
         (k : cont) {struct r} : option (nat * caps) :=
  match r with
  | Eps => k rest pos cs
  | Chr c =>
      match rest with
      | c' :: rest' => if Ascii.eqb c c' then k rest' (S pos) cs else None
      | [] => None
      end
  | Cls neg set =>
      match rest with
      | c' :: rest' => if in_class neg set c' then k rest' (S pos) cs else None
      | [] => None
      end
  | Any =>
      match rest with
      | c' :: rest' =>
          if Ascii.eqb c' "010"%char then None else k rest' (S pos) cs
      | [] => None
      end
  | Bol => if pos =? 0 then k rest pos cs else None
  | Eol => match rest with [] => k rest pos cs | _ => None end
  | Seq r1 r2 => run r1 rest pos cs (fun rest' pos' cs' => run r2 rest' pos' cs' k)
  | Alt r1 r2 => orelse (run r1 rest pos cs k) (run r2 rest pos cs k)
  | Rep r0 lo hi =>
      rep_loop (run r0) lo hi k (lo + S (length rest)) O rest pos cs
  | Grp name r0 =>
      run r0 rest pos cs (fun rest' pos' cs' =>
        k rest' pos' (bind_group name (pos, pos') cs'))
  end.

Definition accept : cont := fun _ pos cs => Some (pos, cs).

(** [search_from r rest pos]: the leftmost match starting at or after
    offset [pos], as (start, end, groups). *)
Fixpoint search_from (r : re) (rest : list ascii) (pos : nat)
  : option (nat * nat * caps) :=
  match run r rest pos [] accept with
  | Some (en, cs) => Some (pos, en, cs)
  | None =>
      match rest with
      | [] => None
      | _ :: rest' => search_from r rest' (S pos)
      end
  end.

(** [finditer]: the successive non-overlapping matches, as spans. *)
Fixpoint finditer_from (fuel : nat) (r : re) (rest : list ascii) (pos : nat)
  : list (nat * nat) :=
  match fuel with
  | O => []
  | S fuel' =>
      match search_from r rest pos with
      | None => []
      | Some (st, en, _) =>
          if en =? st then
            (st, en) :: finditer_from fuel' r (drop (S st - pos) rest) (S st)
          else
            (st, en) :: finditer_from fuel' r (drop (en - pos) rest) en
      end
  end.

Definition finditer (r : re) (s : list ascii) : list (nat * nat) :=
  finditer_from (S (length s)) r s 0.

(** *** Pattern syntax *)

Definition is_digit (c : ascii) : bool :=
  let n := nat_of_ascii c in (48 <=? n) && (n <=? 57).

Definition is_alnum (c : ascii) : bool :=
  let n := nat_of_ascii c in
  ((48 <=? n) && (n <=? 57)) || ((65 <=? n) && (n <=? 90))
  || ((97 <=? n) && (n <=? 122)).

Fixpoint span_until (stop : ascii) (s : list ascii)
  : list ascii * list ascii :=
  match s with
  | [] => ([], [])
  | c :: t =>
      if Ascii.eqb c stop then ([], s)
      else let '(a, b) := span_until stop t in (c :: a, b)
  end.

Fixpoint read_nat (acc : nat) (s : list ascii) : nat * list ascii :=
  match s with
  | c :: t =>
      if is_digit c then read_nat (10 * acc + (nat_of_ascii c - 48)) t
      else (acc, s)
  | [] => (acc, s)
  end.

(** A quantifier after an atom, if any. *)
Definition parse_quant (r : re) (s : list ascii) : option (re * list ascii) :=
  match s with
  | "*"%char :: t => Some (Rep r 0 None, t)
  | "+"%char :: t => Some (Rep r 1 None, t)
  | "?"%char :: t => Some (Rep r 0 (Some 1), t)
  | "{"%char :: c :: t =>
      if is_digit c then
        let '(lo, t1) := read_nat 0 (c :: t) in
        match t1 with
        | "}"%char :: t2 => Some (Rep r lo (Some lo), t2)
        | ","%char :: "}"%char :: t2 => Some (Rep r lo None, t2)
        | ","%char :: d :: t2 =>
            if is_digit d then
              let '(hi, t3) := read_nat 0 (d :: t2) in
              match t3 with
              | "}"%char :: t4 => Some (Rep r lo (Some hi), t4)
              | _ => None
              end
            else None
        | _ => None
        end
      else None
  | _ => Some (r, s)
  end.

(** No lazy or possessive quantifier, no stacked quantifier. *)
Definition quant_done (s : list ascii) : bool :=
  match s with
  | c :: _ =>
      negb (Ascii.eqb c "*" || Ascii.eqb c "+" || Ascii.eqb c "?"
            || Ascii.eqb c "{")%char
  | [] => true
  end.

Fixpoint alts (branches : list re) : re :=
  match branches with
  | [] => Eps
  | [r] => r
  | r :: rs => Alt r (alts rs)
  end.

Definition parse_class (s : list ascii) : option (re * list ascii) :=
  let '(neg, s1) :=
    match s with
    | "^"%char :: t => (true, t)
    | _ => (false, s)
    end in
  let '(set, s2) := span_until "]"%char s1 in
  match set, s2 with
  | _ :: _, "]"%char :: t =>
      if existsb (fun c => Ascii.eqb c "\" || Ascii.eqb c "-"
                           || Ascii.eqb c "[")%char set
      then None else Some (Cls neg set, t)
  | _, _ => None
  end.

(** [parse fuel s] reads the branches of an alternation up to an
    unmatched [")"] or the end of the pattern; the head branch is the one
    under construction. *)
Fixpoint parse (fuel : nat) (s : list ascii) {struct fuel}
  : option (list re * list ascii) :=
  match fuel with
  | O => None
  | S fuel' =>
      let item (a : option (re * list ascii)) :=
        '(r, t) ← a;
        '(q, t') ← parse_quant r t;
        if quant_done t' then
          '(bs, t'') ← parse fuel' t';
          match bs with
          | b :: bs' => Some (Seq q b :: bs', t'')
          | [] => None
          end
        else None in
      let group (name : option string) (t : list ascii) :=
        '(bs, t') ← parse fuel' t;
        match t' with
        | ")"%char :: t'' => Some (Grp name (alts bs), t'')
        | _ => None
        end in
      match s with
      | [] => Some ([Eps], s)
      | ")"%char :: _ => Some ([Eps], s)
      | "|"%char :: t =>
          '(bs, t') ← parse fuel' t; Some (Eps :: bs, t')
      | "("%char :: "?"%char :: "P"%char :: "<"%char :: t =>
          let '(name, t1) := span_until ">"%char t in
          match name, t1 with
          | _ :: _, ">"%char :: t2 =>
              if forallb (fun c => is_alnum c || Ascii.eqb c "_"%char) name
              then item (group (Some (string_of_list_ascii name)) t2)
              else None
          | _, _ => None
          end
      | "("%char :: "?"%char :: ":"%char :: t =>
          item ('(bs, t') ← parse fuel' t;
                match t' with
                | ")"%char :: t'' => Some (alts bs, t'')
                | _ => None
                end)
      | "("%char :: "?"%char :: _ => None
      | "("%char :: t => item (group None t)
      | "["%char :: t => item (parse_class t)
      | "\"%char :: c :: t =>
          if is_alnum c then None else item (Some (Chr c, t))
      | "\"%char :: [] => None
      | "."%char :: t => item (Some (Any, t))
      | "^"%char :: t => item (Some (Bol, t))
      | "$"%char :: t => item (Some (Eol, t))
      | c :: t =>
          if (Ascii.eqb c "*" || Ascii.eqb c "+" || Ascii.eqb c "?"
              || Ascii.eqb c "{" || Ascii.eqb c "}" || Ascii.eqb c "]")%char
          then None
          else item (Some (Chr c, t))
      end
  end.

Fixpoint group_names (r : re) : list string :=
  match r with
  | Seq r1 r2 | Alt r1 r2 => group_names r1 ++ group_names r2
  | Rep r0 _ _ => group_names r0
  | Grp (Some n) r0 => n :: group_names r0
  | Grp None r0 => group_names r0
  | _ => []
  end.

(** [regex.compile]: [None] stands for [regex.error] (and for syntax
    outside the supported subset). *)
Definition compile (pattern : string) : option re :=
  let s := list_ascii_of_string pattern in
  match parse (S (length s)) s with
  | Some (bs, []) =>
      let r := alts bs in
      if bool_decide (NoDup (group_names r)) then Some r else None
  | _ => None
  end.

End Regex.

Example compile_groupname :
  Regex.compile "\(\?P<[^>]*>" =
  Some (Regex.Seq (Regex.Chr "(") (Regex.Seq (Regex.Chr "?")
    (Regex.Seq (Regex.Chr "P") (Regex.Seq (Regex.Chr "<")
      (Regex.Seq (Regex.Rep (Regex.Cls true [">"%char]) 0 None)
        (Regex.Seq (Regex.Chr ">") Regex.Eps)))))).
Proof. vm_compute. reflexivity. Qed.


(** ** re_expandIUPAC *)

(** [groupname_matcher = regex.compile('\(\?P<[^>]*>')]. *)
Definition groupname_matcher : Regex.re :=
  Eval vm_compute in default Regex.Eps (Regex.compile "\(\?P<[^>]*>").

(** [for i in range(m.start(), m.end()): groupname_indices.add(i)] *)
Definition add_span (acc : gset nat) (m : nat * nat) : gset nat :=
  foldl (fun acc i => {[i]} ∪ acc) acc (seq (fst m) (snd m - fst m)).

Definition groupname_indices (re_str : list ascii) : gset nat :=
  foldl add_span ∅ (Regex.finditer groupname_matcher re_str).

Section ExpandIUPAC.

(** [dms_tools2.NT_TO_REGEXP], a module-level dict declared outside this
    file: nucleotide code to regular expression. *)
Variable NT_TO_REGEXP : gmap ascii string.

Definition expand_char (indices : gset nat) (i : nat) (c : ascii)
  : list ascii :=
  match NT_TO_REGEXP !! c with
  | Some v =>
      if bool_decide (i ∉ indices) then list_ascii_of_string v else [c]
  | None => [c]
  end.

Definition re_expandIUPAC (re_str : string) : string :=
  let l := list_ascii_of_string re_str in
  let groupname_indices := groupname_indices l in
  let new_re_str := imap (expand_char groupname_indices) l in
  string_of_list_ascii (concat new_re_str).

End ExpandIUPAC.

(** *** The group-name pattern, characterised directly *)

Fixpoint strip_prefix (p s : list ascii) : option (list ascii) :=
  match p, s with
  | [], _ => Some s
  | a :: p', b :: s' => if Ascii.eqb a b then strip_prefix p' s' else None
  | _ :: _, [] => None
  end.

Definition marker_open : list ascii := list_ascii_of_string "(?P<".

(** Length of the text [(?P<name>] at the head of [s], if [s] starts with
    one: the name is the run of characters up to the first [>]. *)
Definition marker_len (s : list ascii) : option nat :=
  match strip_prefix marker_open s with
  | Some t =>
      match Regex.span_until ">"%char t with
      | (name, ">"%char :: _) => Some (5 + length name)
      | _ => None
      end
  | None => None
  end.

(** Offset and length of the first group-name marker in [s]. *)
Fixpoint first_marker (s : list ascii) : option (nat * nat) :=
  match marker_len s with
  | Some n => Some (0, n)
  | None =>
      match s with
      | [] => None
      | _ :: t => (fun '(j, n) => (S j, n)) <$> first_marker t
      end
  end.

(** For each character of [s], whether it lies in a group-name marker;
    [skip] characters of a marker already entered remain. *)
Fixpoint marker_flags (skip : nat) (s : list ascii) : list bool :=
  match s with
  | [] => []
  | c :: t =>
      match skip with
      | S k => true :: marker_flags k t
      | O =>
          match marker_len s with
          | Some (S n) => true :: marker_flags n t
          | _ => false :: marker_flags 0 t
          end
      end
  end.

(** The pieces of a pattern: a group-name marker, kept whole, or a single
    character outside every marker. *)
Inductive segment :=
| Marker (w : list ascii)
| Outside (c : ascii).

Fixpoint segs (skip : nat) (s : list ascii) : list segment :=
  match s with
  | [] => []
  | c :: t =>
      match skip with
      | S k => segs k t
      | O =>
          match marker_len s with
          | Some (S n) => Marker (take (S n) s) :: segs n t
          | _ => Outside c :: segs 0 t
          end
      end
  end.

Definition segments (s : list ascii) : list segment := segs 0 s.

Definition seg_text (g : segment) : list ascii :=
  match g with
  | Marker w => w
  | Outside c => [c]
  end.

Definition marker_texts (gs : list segment) : list (list ascii) :=
  omap (fun g => match g with Marker w => Some w | Outside _ => None end) gs.

(** What the claim calls a capture-group name marker: the text
    [(?P<name>] with no [>] in the name. *)
Definition is_marker (w : list ascii) : Prop :=
  exists name, w = marker_open ++ name ++ [">"%char] /\ ">"%char ∉ name.

(** Reading a pattern from the left: a marker wherever one starts, a
    single character otherwise. *)
Inductive Segments : list ascii -> list segment -> Prop :=
| Segments_nil : Segments [] []
| Segments_marker w rest gs :
    is_marker w -> Segments rest gs -> Segments (w ++ rest) (Marker w :: gs)
| Segments_outside c rest gs :
    (forall w t, is_marker w -> c :: rest <> w ++ t) ->
    Segments rest gs -> Segments (c :: rest) (Outside c :: gs).

(** [m.group()] for each match of [groupname_matcher.finditer(s)]. *)
Definition groupname_matches (s : list ascii) : list (list ascii) :=
  (fun m : nat * nat => take (m.2 - m.1) (drop m.1 s))
    <$> Regex.finditer groupname_matcher s.

Section ExpandSpec.

Variable NT_TO_REGEXP : gmap ascii string.

Definition render (g : segment) : list ascii :=
  match g with
  | Marker w => w
  | Outside c =>
      match NT_TO_REGEXP !! c with
      | Some v => list_ascii_of_string v
      | None => [c]
      end
  end.

(** The pattern with every character outside the markers expanded. *)
Definition expansion (s : list ascii) : list ascii :=
  concat (render <$> segments s).

(** A character the table mentions, as a code or in an expansion. *)
Definition is_code (c : ascii) : Prop :=
  is_Some (NT_TO_REGEXP !! c)
  \/ map_Exists (fun _ v => c ∈ list_ascii_of_string v) NT_TO_REGEXP.

#[global] Instance is_code_dec c : Decision (is_code c).
Proof. unfold is_code. apply _. Defined.

(** No expansion is empty or uses a character of the marker syntax. *)
Definition safe_table : Prop :=
  map_Forall (fun _ v =>
    v <> "" /\
    Forall (fun c => (c ∉ marker_open) /\ c <> ">"%char) (list_ascii_of_string v))
    NT_TO_REGEXP.

#[global] Instance safe_table_dec : Decision safe_table.
Proof. unfold safe_table. apply _. Defined.

End ExpandSpec.

Lemma strip_prefix_Some p s t : strip_prefix p s = Some t <-> s = p ++ t.
Proof.
  revert s. induction p as [|a p IH]; intros s; simpl.
  - split; [by intros [= ->] | by intros ->].
  - destruct s as [|b s]; [split; done|].
    destruct (Ascii.eqb_spec a b) as [->|Hne].
    + rewrite IH. split; [by intros -> | by intros [= ->]].
    + split; [done | intros [= ? ?]; done].
Qed.

Lemma span_until_length stop s :
  length (Regex.span_until stop s).1 + length (Regex.span_until stop s).2
  = length s.
Proof.
  induction s as [|c t IH]; simpl; [done|].
  destruct (Ascii.eqb c stop); simpl; [done|].
  destruct (Regex.span_until stop t) as [a b]; simpl in *. lia.
Qed.

Lemma span_until_app stop s :
  (Regex.span_until stop s).1 ++ (Regex.span_until stop s).2 = s.
Proof.
  induction s as [|c t IH]; simpl; [done|].
  destruct (Ascii.eqb c stop); simpl; [done|].
  destruct (Regex.span_until stop t) as [a b]; simpl in *. by rewrite IH.
Qed.

Lemma span_until_notin stop s : stop ∉ (Regex.span_until stop s).1.
Proof.
  induction s as [|c t IH]; simpl; [apply not_elem_of_nil|].
  destruct (Ascii.eqb_spec c stop) as [->|Hne]; simpl; [apply not_elem_of_nil|].
  destruct (Regex.span_until stop t) as [a b]; simpl in *.
  rewrite not_elem_of_cons. split; [congruence|done].
Qed.

(** The tail returned by [span_until] is empty or starts with the stop
    character. *)
Lemma span_until_tail stop s c t :
  (Regex.span_until stop s).2 = c :: t -> c = stop.
Proof.
  induction s as [|b s IH]; simpl; [done|].
  destruct (Ascii.eqb_spec b stop) as [->|Hne]; simpl; [by intros [= -> _]|].
  destruct (Regex.span_until stop s) as [x y]; simpl in *. done.
Qed.

Lemma marker_len_bounds s n : marker_len s = Some n -> 5 <= n <= length s.
Proof.
  unfold marker_len. destruct (strip_prefix marker_open s) as [t|] eqn:Hp; [|done].
  apply strip_prefix_Some in Hp as ->.
  pose proof (span_until_length ">"%char t) as Hl.
  destruct (Regex.span_until ">"%char t) as [name [|c r]]; [done|].
  destruct (Ascii.eqb_spec c ">"%char) as [->|Hne].
  - intros [= <-]. rewrite length_app. simpl in *. lia.
  - repeat case_match; try done; subst; done.
Qed.

(** *** The engine on the group-name pattern *)

Definition close_marker : Regex.cont := fun rest pos cs =>
  Regex.run (Regex.Seq (Regex.Chr ">") Regex.Eps) rest pos cs Regex.accept.

Lemma rep_loop_name fuel n rest pos cs :
  length rest <= fuel ->
  Regex.rep_loop (Regex.run (Regex.Cls true [">"%char])) 0 None close_marker
    fuel n rest pos cs
  = match Regex.span_until ">"%char rest with
    | (name, _ :: _) => Some (pos + length name + 1, cs)
    | _ => None
    end.
Proof.
  revert n rest pos cs. induction fuel as [|fuel IH]; intros n rest pos cs Hf.
  - destruct rest; [done | simpl in Hf; lia].
  - destruct rest as [|c rest]; [done|].
    cbn [Regex.rep_loop Regex.below Regex.run Regex.span_until].
    unfold Regex.in_class. cbn [existsb]. rewrite orb_false_r.
    destruct (Ascii.eqb_spec c ">"%char) as [->|Hne].
    + cbn. unfold Regex.accept. do 2 f_equal. lia.
    + cbn [xorb negb]. rewrite andb_true_r.
      replace (S pos =? pos) with false by (symmetry; apply Nat.eqb_neq; lia).
      rewrite IH by (simpl in Hf; lia).
      destruct (Regex.span_until ">"%char rest) as [name [|d r]]; simpl.
      * unfold close_marker. cbn [Regex.run Regex.orelse].
        destruct (Ascii.eqb_spec ">"%char c); [congruence|done].
      * do 2 f_equal. lia.
Qed.

Lemma run_groupname rest pos :
  Regex.run groupname_matcher rest pos [] Regex.accept
  = (fun n => (pos + n, [])) <$> marker_len rest.
Proof.
  unfold groupname_matcher, marker_len, marker_open. simpl list_ascii_of_string.
  do 4 (destruct rest as [|? rest]; [done|];
        cbn [Regex.run strip_prefix];
        match goal with |- context [Ascii.eqb ?a ?b] =>
          destruct (Ascii.eqb a b); [|done] end).
  cbn [Regex.run strip_prefix].
  change (fun rest' pos' cs' => Regex.run (Regex.Seq (Regex.Chr ">") Regex.Eps)
            rest' pos' cs' Regex.accept) with close_marker.
  rewrite rep_loop_name by (simpl; lia).
  pose proof (span_until_tail ">"%char rest) as Ht.
  destruct (Regex.span_until ">"%char rest) as [name [|d r]]; [done|].
  rewrite (Ht d r eq_refl). simpl. f_equal. f_equal. lia.
Qed.

Lemma search_from_groupname rest pos :
  Regex.search_from groupname_matcher rest pos
  = (fun '(j, n) => (pos + j, pos + j + n, [])) <$> first_marker rest.
Proof.
  revert pos. induction rest as [|c rest IH]; intros pos.
  - cbn [Regex.search_from first_marker]. rewrite run_groupname.
    destruct (marker_len []); simpl; [do 3 f_equal; lia | done].
  - cbn [Regex.search_from first_marker]. rewrite run_groupname.
    destruct (marker_len (c :: rest)) as [n|]; simpl.
    + do 3 f_equal; lia.
    + rewrite IH. destruct (first_marker rest) as [[j n]|]; simpl; [|done].
      do 3 f_equal; lia.
Qed.

(** *** From spans to per-character flags *)

Lemma elem_of_foldl_add (acc : gset nat) (l : list nat) (i : nat) :
  i ∈ foldl (fun acc i => {[i]} ∪ acc) acc l <-> i ∈ acc \/ i ∈ l.
Proof.
  revert acc. induction l as [|x l IH]; intros acc; simpl.
  - rewrite elem_of_nil. tauto.
  - rewrite IH, elem_of_cons, elem_of_union, elem_of_singleton. tauto.
Qed.

Lemma elem_of_add_span acc m i :
  i ∈ add_span acc m <-> i ∈ acc \/ m.1 <= i < m.2.
Proof.
  unfold add_span. rewrite elem_of_foldl_add, elem_of_seq.
  split; (intros [?|?]; [by left | right; lia]).
Qed.

Lemma elem_of_foldl_add_span acc spans i :
  i ∈ foldl add_span acc spans
  <-> i ∈ acc \/ exists m, m ∈ spans /\ m.1 <= i < m.2.
Proof.
  revert acc. induction spans as [|m spans IH]; intros acc; simpl.
  - split; [by left | intros [?|(m & Hm & _)]; [done | by apply elem_of_nil in Hm]].
  - rewrite IH, elem_of_add_span. split.
    + intros [[?|?]|(m' & Hm' & ?)]; [by left | right; exists m | right; exists m'];
        (split; [|done]); [apply list_elem_of_here | by apply list_elem_of_further].
    + intros [?|(m' & Hm' & ?)]; [by left; left|].
      apply elem_of_cons in Hm' as [->|Hm']; [by left; right | right; eauto].
Qed.

Lemma marker_flags_length skip s : length (marker_flags skip s) = length s.
Proof.
  revert skip. induction s as [|c t IH]; intros skip; [done|].
  cbn [marker_flags]. destruct skip; [|simpl; by rewrite IH].
  destruct (marker_len (c :: t)) as [[|n]|]; simpl; by rewrite IH.
Qed.

Lemma marker_flags_skip n s :
  marker_flags n s
  = replicate (n `min` length s) true ++ marker_flags 0 (drop n s).
Proof.
  revert n. induction s as [|c t IH]; intros n.
  - by destruct n.
  - destruct n as [|n]; [done|].
    cbn [marker_flags]. rewrite IH. done.
Qed.

Lemma first_marker_None s :
  first_marker s = None -> marker_flags 0 s = replicate (length s) false.
Proof.
  induction s as [|c t IH]; [done|].
  cbn [first_marker marker_flags].
  destruct (marker_len (c :: t)) as [n|]; [done|].
  destruct (first_marker t) as [[j n]|]; [done|].
  intros _. simpl. by rewrite IH.
Qed.

Lemma first_marker_Some s j n :
  first_marker s = Some (j, n) ->
  5 <= n /\ j + n <= length s /\
  marker_len (drop j s) = Some n /\
  marker_flags 0 s
  = replicate j false ++ replicate n true ++ marker_flags 0 (drop (j + n) s).
Proof.
  revert j. induction s as [|c t IH]; intros j.
  - cbn [first_marker]. destruct (marker_len []) as [m|] eqn:Hm; [|done].
    apply marker_len_bounds in Hm. simpl in Hm. lia.
  - cbn [first_marker marker_flags].
    destruct (marker_len (c :: t)) as [m|] eqn:Hm.
    + intros [= <- <-]. pose proof (marker_len_bounds _ _ Hm) as Hb.
      destruct m as [|m]; [lia|].
      split; [lia|]. split; [simpl in *; lia|]. split; [done|].
      rewrite marker_flags_skip. simpl in Hb.
      replace (m `min` length t) with m by lia. done.
    + destruct (first_marker t) as [[j' n']|] eqn:Hf; [|done].
      intros [= <- <-]. destruct (IH j' eq_refl) as (? & ? & ? & ->).
      split; [done|]. split; [simpl; lia|]. done.
Qed.

Lemma finditer_groupname_flags fuel rest pos i :
  length rest < fuel ->
  (exists m, m ∈ Regex.finditer_from fuel groupname_matcher rest pos
             /\ m.1 <= i < m.2)
  <-> pos <= i /\ marker_flags 0 rest !! (i - pos) = Some true.
Proof.
  revert rest pos. induction fuel as [|fuel IH]; intros rest pos Hf; [lia|].
  cbn [Regex.finditer_from]. rewrite search_from_groupname.
  destruct (first_marker rest) as [[j n]|] eqn:Hfm; simpl.
  - destruct (first_marker_Some _ _ _ Hfm) as (Hn & Hlen & _ & ->).
    replace (pos + j + n =? pos + j) with false
      by (symmetry; apply Nat.eqb_neq; lia).
    replace (pos + j + n - pos) with (j + n) by lia.
    assert (Hd : length (drop (j + n) rest) < fuel)
      by (rewrite length_drop; lia).
    specialize (IH (drop (j + n) rest) (pos + j + n) Hd).
    split.
    + intros (m & Hm & Hi). apply elem_of_cons in Hm as [->|Hm]; simpl in Hi.
      * split; [lia|].
        rewrite lookup_app_r by (rewrite length_replicate; lia).
        rewrite length_replicate, lookup_app_l by (rewrite length_replicate; lia).
        apply lookup_replicate_2. lia.
      * destruct (proj1 IH (ex_intro _ m (conj Hm Hi))) as [Hle Hl].
        split; [lia|].
        rewrite lookup_app_r by (rewrite length_replicate; lia).
        rewrite length_replicate, lookup_app_r by (rewrite length_replicate; lia).
        rewrite length_replicate. rewrite <- Hl. f_equal. lia.
    + intros [Hle Hl].
      destruct (decide (i - pos < j)) as [Hlt|Hge].
      { rewrite lookup_app_l in Hl by (rewrite length_replicate; lia).
        apply lookup_replicate in Hl as [? _]. done. }
      rewrite lookup_app_r in Hl by (rewrite length_replicate; lia).
      rewrite length_replicate in Hl.
      destruct (decide (i - pos - j < n)) as [Hlt|Hge'].
      { exists (pos + j, pos + j + n). split; [apply list_elem_of_here|simpl; lia]. }
      rewrite lookup_app_r in Hl by (rewrite length_replicate; lia).
      rewrite length_replicate in Hl.
      destruct (proj2 IH) as (m & Hm & Hi).
      { split; [lia|]. rewrite <- Hl. f_equal. lia. }
      exists m. split; [by apply list_elem_of_further | done].
  - split; [intros (m & Hm & _); by apply elem_of_nil in Hm|].
    intros [_ Hl]. rewrite (first_marker_None _ Hfm) in Hl.
    apply lookup_replicate in Hl as [? _]. done.
Qed.

Lemma groupname_indices_flags s i :
  i ∈ groupname_indices s <-> marker_flags 0 s !! i = Some true.
Proof.
  unfold groupname_indices, Regex.finditer.
  rewrite elem_of_foldl_add_span, finditer_groupname_flags by lia.
  rewrite Nat.sub_0_r.
  split; [intros [H|[_ ?]]; [by apply not_elem_of_empty in H|done]|].
  intros ?. right. split; [lia|done].
Qed.

(** *** Segments *)

Lemma marker_len_spec s n :
  marker_len s = Some n
  <-> exists name t,
      s = marker_open ++ name ++ ">"%char :: t /\ (">"%char ∉ name)
      /\ n = 5 + length name.
Proof.
  unfold marker_len. split.
  - destruct (strip_prefix marker_open s) as [u|] eqn:Hp; [|done].
    apply strip_prefix_Some in Hp as ->.
    pose proof (span_until_app ">"%char u) as Ha.
    pose proof (span_until_notin ">"%char u) as Hn.
    pose proof (span_until_tail ">"%char u) as Ht.
    destruct (Regex.span_until ">"%char u) as [name [|c r]]; [done|].
    simpl in *. rewrite (Ht c r eq_refl). intros [= <-].
    exists name, r. rewrite <- Ha, (Ht c r eq_refl). done.
  - intros (name & t & -> & Hn & ->).
    rewrite (proj2 (strip_prefix_Some _ _ _) eq_refl).
    assert (Hs : Regex.span_until ">"%char (name ++ ">"%char :: t)
                 = (name, ">"%char :: t)).
    { clear -Hn. induction name as [|c name IH]; simpl.
      - done.
      - apply not_elem_of_cons in Hn as [Hc Hn].
        destruct (Ascii.eqb_spec c ">"%char); [congruence|].
        by rewrite (IH Hn). }
    by rewrite Hs.
Qed.

Lemma is_marker_len w t :
  is_marker w -> marker_len (w ++ t) = Some (length w).
Proof.
  intros (name & -> & Hn). apply marker_len_spec. exists name, t.
  split; [by rewrite <- !app_assoc|]. split; [done|].
  rewrite !length_app. simpl. lia.
Qed.

Lemma marker_len_is_marker s n :
  marker_len s = Some n -> is_marker (take n s) /\ s = take n s ++ drop n s.
Proof.
  intros (name & t & -> & Hn & ->)%marker_len_spec.
  split; [|by rewrite take_drop].
  exists name. split; [|done].
  replace (5 + length name) with (length (marker_open ++ name ++ [">"%char]))
    by (rewrite !length_app; simpl; lia).
  replace (marker_open ++ name ++ ">"%char :: t)
    with ((marker_open ++ name ++ [">"%char]) ++ t)
    by (by rewrite <- !app_assoc).
  by rewrite take_app_length.
Qed.

Lemma segs_skip n s : n <= length s -> segs n s = segs 0 (drop n s).
Proof.
  revert n. induction s as [|c t IH]; intros n Hn.
  - by destruct n.
  - destruct n as [|n]; [done|]. simpl in Hn. cbn [segs drop].
    apply IH. lia.
Qed.

Lemma segments_nil : segments [] = [].
Proof. done. Qed.

Lemma segments_marker s n :
  marker_len s = Some n ->
  segments s = Marker (take n s) :: segments (drop n s).
Proof.
  intros Hm. pose proof (marker_len_bounds _ _ Hm) as Hb.
  destruct s as [|c t]; [simpl in Hb; lia|].
  unfold segments. cbn [segs]. rewrite Hm.
  destruct n as [|n]; [lia|].
  rewrite segs_skip by (simpl in Hb; lia). done.
Qed.

Lemma segments_outside c t :
  marker_len (c :: t) = None -> segments (c :: t) = Outside c :: segments t.
Proof. intros Hm. unfold segments. cbn [segs]. by rewrite Hm. Qed.

(** Induction along the segments of a pattern. *)
Lemma segments_ind (P : list ascii -> Prop) :
  P [] ->
  (forall s n, marker_len s = Some n -> P (drop n s) -> P s) ->
  (forall c t, marker_len (c :: t) = None -> P t -> P (c :: t)) ->
  forall s, P s.
Proof.
  intros Hnil Hmark Hout s.
  remember (length s) as k eqn:Hk. revert s Hk.
  induction k as [k IH] using lt_wf_ind. intros s ->.
  destruct s as [|c t]; [done|].
  destruct (marker_len (c :: t)) as [n|] eqn:Hm.
  - apply (Hmark _ n Hm). pose proof (marker_len_bounds _ _ Hm).
    apply (IH (length (drop n (c :: t)))); [rewrite length_drop; lia | done].
  - apply Hout; [done|]. apply (IH (length t)); [simpl; lia | done].
Qed.

Lemma filter_all_False {A} (P : A -> Prop) `{!forall x, Decision (P x)} l :
  Forall (fun x => ~ P x) l -> filter P l = [].
Proof.
  induction 1 as [|x l Hx _ IH]; [done|]. by rewrite filter_cons_False.
Qed.

Lemma segments_Segments s : Segments s (segments s).
Proof.
  induction s as [|s n Hm IH|c t Hm IH] using segments_ind.
  - constructor.
  - rewrite (segments_marker _ _ Hm).
    destruct (marker_len_is_marker _ _ Hm) as [Hw Hs].
    rewrite Hs at 1. by constructor.
  - rewrite (segments_outside _ _ Hm). constructor; [|done].
    intros w u Hw Heq. rewrite Heq, (is_marker_len _ _ Hw) in Hm. done.
Qed.

Lemma segments_text s : concat (seg_text <$> segments s) = s.
Proof.
  induction s as [|s n Hm IH|c t Hm IH] using segments_ind.
  - done.
  - rewrite (segments_marker _ _ Hm), fmap_cons. cbn [concat seg_text].
    rewrite IH. apply take_drop.
  - rewrite (segments_outside _ _ Hm), fmap_cons. cbn [concat seg_text].
    by rewrite IH.
Qed.

Section ExpandProofs.

Variable NT_TO_REGEXP : gmap ascii string.

Local Abbreviation render := (render NT_TO_REGEXP).

Definition expand_flag (f : bool) (c : ascii) : list ascii :=
  if f then [c] else render (Outside c).

Lemma imap_lookup_zip {A B} (g : bool -> A -> B) (fl : list bool) (l : list A) :
  length fl = length l ->
  imap (fun i c => g (default false (fl !! i)) c) l = zip_with g fl l.
Proof.
  revert fl. induction l as [|c l IH]; intros [|f fl] Hl; try done.
  simpl. f_equal. apply IH. simpl in Hl. lia.
Qed.

Lemma expand_char_flag l i c :
  expand_char NT_TO_REGEXP (groupname_indices l) i c
  = expand_flag (default false (marker_flags 0 l !! i)) c.
Proof.
  unfold expand_char, expand_flag, render.
  destruct (marker_flags 0 l !! i) as [[]|] eqn:Hf; simpl.
  - apply groupname_indices_flags in Hf.
    rewrite bool_decide_eq_false_2 by (by intros ?).
    by destruct (NT_TO_REGEXP !! c).
  - rewrite bool_decide_eq_true_2; [done|].
    rewrite groupname_indices_flags. congruence.
  - rewrite bool_decide_eq_true_2; [done|].
    rewrite groupname_indices_flags. congruence.
Qed.

Lemma expand_flags_segs skip l :
  concat (zip_with expand_flag (marker_flags skip l) l)
  = take skip l ++ concat (render <$> segs skip l).
Proof.
  revert skip. induction l as [|c t IH]; intros skip.
  - by destruct skip.
  - cbn [marker_flags segs]. destruct skip as [|k].
    + destruct (marker_len (c :: t)) as [[|n]|] eqn:Hm; simpl; rewrite IH.
      * done.
      * done.
      * done.
    + simpl. by rewrite IH.
Qed.

Lemma re_expandIUPAC_segments (re_str : string) :
  list_ascii_of_string (re_expandIUPAC NT_TO_REGEXP re_str)
  = concat (render <$> segments (list_ascii_of_string re_str)).
Proof.
  unfold re_expandIUPAC. rewrite list_ascii_of_string_of_list_ascii.
  set (l := list_ascii_of_string re_str).
  rewrite (imap_ext _ (fun i c =>
             expand_flag (default false (marker_flags 0 l !! i)) c))
    by (intros; apply expand_char_flag).
  rewrite imap_lookup_zip by apply marker_flags_length.
  by rewrite expand_flags_segs.
Qed.

(** Characters the table does not mention pass through, in order. *)
Lemma filter_render s :
  filter (fun c => ~ is_code NT_TO_REGEXP c) (concat (render <$> segments s))
  = filter (fun c => ~ is_code NT_TO_REGEXP c) s.
Proof.
  rewrite <- (segments_text s) at 2.
  induction (segments s) as [|g gs IH]; [done|].
  rewrite !fmap_cons. cbn [concat]. rewrite !filter_app, IH. f_equal.
  destruct g as [w|c]; [done|]. cbn [render seg_text].
  destruct (NT_TO_REGEXP !! c) as [v|] eqn:Hc; [|done].
  rewrite filter_cons_False, filter_nil
    by (intros Hn; apply Hn; left; by rewrite Hc).
  apply filter_all_False, Forall_forall. intros x Hx Hn.
  apply Hn. right. by exists c, v.
Qed.

End ExpandProofs.

(** *** The markers found by the group-name pattern *)

Lemma first_marker_texts rest :
  match first_marker rest with
  | None => marker_texts (segments rest) = []
  | Some (j, n) =>
      marker_texts (segments rest)
      = take n (drop j rest) :: marker_texts (segments (drop (j + n) rest))
  end.
Proof.
  induction rest as [|c t IH].
  - cbn [first_marker]. destruct (marker_len []) as [n|] eqn:Hm; [|done].
    apply marker_len_bounds in Hm. simpl in Hm. lia.
  - cbn [first_marker]. destruct (marker_len (c :: t)) as [n|] eqn:Hm.
    + by rewrite (segments_marker _ _ Hm).
    + rewrite (segments_outside _ _ Hm). cbn [marker_texts omap].
      destruct (first_marker t) as [[j n]|]; simpl; done.
Qed.

Lemma finditer_groupname_texts fuel s pos :
  length (drop pos s) < fuel ->
  (fun m : nat * nat => take (m.2 - m.1) (drop m.1 s))
    <$> Regex.finditer_from fuel groupname_matcher (drop pos s) pos
  = marker_texts (segments (drop pos s)).
Proof.
  revert pos. induction fuel as [|fuel IH]; intros pos Hf; [lia|].
  cbn [Regex.finditer_from]. rewrite search_from_groupname.
  pose proof (first_marker_texts (drop pos s)) as Ht.
  destruct (first_marker (drop pos s)) as [[j n]|] eqn:Hfm; simpl; [|done].
  destruct (first_marker_Some _ _ _ Hfm) as (Hn & Hlen & _ & _).
  replace (pos + j + n =? pos + j) with false
    by (symmetry; apply Nat.eqb_neq; lia).
  rewrite Ht, fmap_cons. cbn [fst snd].
  replace (pos + j + n - pos) with (j + n) by lia.
  replace (drop (j + n) (drop pos s)) with (drop (pos + j + n) s)
    by (rewrite drop_drop; f_equal; lia).
  rewrite IH by (rewrite length_drop in *; lia).
  rewrite drop_drop. do 2 f_equal. lia.
Qed.

Lemma groupname_matches_segments s :
  groupname_matches s = marker_texts (segments s).
Proof.
  unfold groupname_matches, Regex.finditer.
  pose proof (finditer_groupname_texts (S (length s)) s 0) as H.
  rewrite drop_0 in H. apply H. lia.
Qed.

(** *** Expansion keeps the group-name markers *)

Lemma marker_len_head c t : c <> "("%char -> marker_len (c :: t) = None.
Proof.
  intros Hc. unfold marker_len, marker_open.
  cbn [list_ascii_of_string strip_prefix].
  destruct (Ascii.eqb_spec "("%char c); [congruence|done].
Qed.

Lemma marker_texts_marker w gs :
  marker_texts (Marker w :: gs) = w :: marker_texts gs.
Proof. done. Qed.

Lemma marker_texts_single c gs :
  marker_texts (Outside c :: gs) = marker_texts gs.
Proof. done. Qed.

Lemma marker_texts_app a b :
  marker_texts (a ++ b) = marker_texts a ++ marker_texts b.
Proof. apply omap_app. Qed.

Lemma segments_app_plain v t :
  Forall (fun c => c <> "("%char) v ->
  segments (v ++ t) = (Outside <$> v) ++ segments t.
Proof.
  induction 1 as [|c v Hc _ IH]; [done|].
  cbn [app]. rewrite segments_outside by (by apply marker_len_head).
  by rewrite IH.
Qed.

Lemma marker_texts_outside v : marker_texts (Outside <$> v) = [].
Proof. by induction v. Qed.

Lemma elem_of_split_first (x : ascii) (l : list ascii) :
  x ∈ l -> exists a b, l = a ++ x :: b /\ x ∉ a.
Proof.
  intros Hx. pose proof (span_until_app x l) as Ha.
  pose proof (span_until_notin x l) as Hn.
  pose proof (span_until_tail x l) as Ht.
  destruct (Regex.span_until x l) as [a [|c b]]; simpl in *.
  - rewrite app_nil_r in Ha. by subst.
  - rewrite (Ht c b eq_refl) in Ha. by exists a, b.
Qed.

Section MarkersKept.

Variable NT_TO_REGEXP : gmap ascii string.
Hypothesis Hsafe : safe_table NT_TO_REGEXP.

Local Abbreviation render := (render NT_TO_REGEXP).
Local Abbreviation out := (expansion NT_TO_REGEXP).

Lemma safe_value c v :
  NT_TO_REGEXP !! c = Some v ->
  exists x xs, list_ascii_of_string v = x :: xs
    /\ Forall (fun c => (c ∉ marker_open) /\ c <> ">"%char) (x :: xs).
Proof.
  intros Hc. destruct (Hsafe c v Hc) as [Hne Hall].
  destruct v as [|x v]; [done|]. by exists x, (list_ascii_of_string v).
Qed.

Lemma out_marker s n :
  marker_len s = Some n -> out s = take n s ++ out (drop n s).
Proof. intros Hm. unfold expansion. by rewrite (segments_marker _ _ Hm). Qed.

Lemma out_outside c t :
  marker_len (c :: t) = None -> out (c :: t) = render (Outside c) ++ out t.
Proof. intros Hm. unfold expansion. by rewrite (segments_outside _ _ Hm). Qed.

(** A character of the marker syntax at the head of the expansion was
    at the head of the pattern. *)
Lemma out_head x rest t :
  x ∈ marker_open -> x <> "("%char -> out t = x :: rest ->
  exists t', t = x :: t' /\ rest = out t'.
Proof.
  intros Hx Hp. destruct t as [|c t]; [done|].
  destruct (marker_len (c :: t)) as [n|] eqn:Hm.
  - rewrite (out_marker _ _ Hm).
    apply marker_len_spec in Hm as (name & u & -> & _ & ->).
    cbn. intros [= <- _]. done.
  - rewrite (out_outside _ _ Hm). cbn [render].
    destruct (NT_TO_REGEXP !! c) as [v|] eqn:Hc.
    + destruct (safe_value _ _ Hc) as (y & ys & -> & Hall).
      apply Forall_cons_1 in Hall as [[Hy _] _].
      cbn. intros [= -> _]. done.
    + cbn. intros [= -> <-]. by exists t.
Qed.

Lemma out_close gs :
  ">"%char ∈ concat (render <$> gs) -> ">"%char ∈ concat (seg_text <$> gs).
Proof.
  induction gs as [|g gs IH]; [done|].
  rewrite !fmap_cons. cbn [concat]. rewrite !elem_of_app.
  intros [Hg|Hgs]; [|right; by apply IH]. left.
  destruct g as [w|c]; [done|]. cbn [render seg_text] in *.
  destruct (NT_TO_REGEXP !! c) as [v|] eqn:Hc; [|done].
  destruct (safe_value _ _ Hc) as (y & ys & Hv & Hall).
  rewrite Hv in Hg. rewrite Forall_forall in Hall.
  destruct (Hall _ Hg) as [_ ?]. done.
Qed.

Lemma marker_len_paren t :
  marker_len ("("%char :: t) = None -> marker_len ("("%char :: out t) = None.
Proof.
  intros Hnone. destruct (marker_len ("("%char :: out t)) as [n|] eqn:Hm; [|done].
  exfalso. apply marker_len_spec in Hm as (name & u & Heq & _ & _).
  unfold marker_open in Heq. simpl in Heq. injection Heq as Heq.
  assert (Hq : "?"%char ∈ marker_open) by (unfold marker_open; simpl; repeat constructor).
  assert (HP : "P"%char ∈ marker_open) by (unfold marker_open; simpl; repeat constructor).
  assert (Hl : "<"%char ∈ marker_open) by (unfold marker_open; simpl; repeat constructor).
  destruct (out_head _ _ t Hq ltac:(done) Heq) as (t1 & -> & H1).
  destruct (out_head _ _ t1 HP ltac:(done) (eq_sym H1)) as (t2 & -> & H2).
  destruct (out_head _ _ t2 Hl ltac:(done) (eq_sym H2)) as (t3 & -> & H3).
  assert (Hc : ">"%char ∈ t3).
  { rewrite <- (segments_text t3). apply out_close.
    fold (expansion NT_TO_REGEXP t3). rewrite <- H3.
    apply elem_of_app. right. apply list_elem_of_here. }
  destruct (elem_of_split_first _ _ Hc) as (a & b & -> & Ha).
  assert (Hsome : marker_len ("("%char :: "?"%char :: "P"%char :: "<"%char
                              :: a ++ ">"%char :: b) = Some (5 + length a)).
  { apply marker_len_spec. by exists a, b. }
  congruence.
Qed.

Lemma markers_kept s :
  marker_texts (segments (out s)) = marker_texts (segments s).
Proof.
  induction s as [|s n Hm IH|c t Hm IH] using segments_ind.
  - done.
  - rewrite (out_marker _ _ Hm), (segments_marker _ _ Hm).
    destruct (marker_len_is_marker _ _ Hm) as [Hw _].
    pose proof (marker_len_bounds _ _ Hm) as Hb.
    rewrite (segments_marker _ (length (take n s)))
      by (by apply is_marker_len).
    rewrite take_app_length, drop_app_length, !marker_texts_marker.
    f_equal. apply IH.
  - rewrite (out_outside _ _ Hm), (segments_outside _ _ Hm).
    rewrite marker_texts_single, <- IH. cbn [render].
    destruct (NT_TO_REGEXP !! c) as [v|] eqn:Hc.
    + destruct (safe_value _ _ Hc) as (y & ys & -> & Hall).
      rewrite segments_app_plain, marker_texts_app, marker_texts_outside; [done|].
      eapply Forall_impl; [exact Hall|]. intros x [Hx _] ->. apply Hx.
      unfold marker_open. simpl. constructor.
    + cbn [app]. destruct (decide (c = "("%char)) as [->|Hne].
      * by rewrite segments_outside, marker_texts_single
          by (by apply marker_len_paren).
      * by rewrite segments_outside, marker_texts_single
          by (by apply marker_len_head).
Qed.

End MarkersKept.

Lemma Segments_unique s gs : Segments s gs -> gs = segments s.
Proof.
  induction 1 as [|w rest gs Hw _ IH|c rest gs Hc _ IH]; [done| |].
  - rewrite (segments_marker _ _ (is_marker_len w rest Hw)).
    by rewrite take_app_length, drop_app_length, IH.
  - rewrite segments_outside, IH; [done|].
    destruct (marker_len (c :: rest)) as [n|] eqn:Hm; [|done].
    destruct (marker_len_is_marker _ _ Hm) as [Hw Hs].
    by destruct (Hc _ _ Hw Hs).
Qed.

(** Modelled from the spec: [dms_tools2.NT_TO_REGEXP] is declared outside
    [pacbio.py].  Each nucleotide code of the IUPAC notation maps to the
    regular expression of the nucleotides it stands for, [N] to [[ACGT]]
    as in the doctest of [re_expandIUPAC]. *)
Definition IUPAC_NT_TO_REGEXP : gmap ascii string :=
  list_to_map
    [("A"%char, "A"); ("C"%char, "C"); ("G"%char, "G"); ("T"%char, "T");
     ("M"%char, "[AC]"); ("R"%char, "[AG]"); ("W"%char, "[AT]"); ("S"%char, "[CG]");
     ("Y"%char, "[CT]"); ("K"%char, "[GT]"); ("V"%char, "[ACG]"); ("H"%char, "[ACT]");
     ("D"%char, "[AGT]"); ("B"%char, "[CGT]"); ("X"%char, "[ACGT]"); ("N"%char, "[ACGT]")].

Example re_expandIUPAC_doctest :
  re_expandIUPAC IUPAC_NT_TO_REGEXP
    "^(?P<termini5>ATG)(?P<cDNA>N+)A+(?P<barcode>N{4})$"
  = "^(?P<termini5>ATG)(?P<cDNA>[ACGT]+)A+(?P<barcode>[ACGT]{4})$".
Proof. vm_compute. reflexivity. Qed.

(** A code letter in a group name is kept; without the closing [>] the
    text is no marker and its letters are expanded. *)
Example re_expandIUPAC_name_kept :
  re_expandIUPAC IUPAC_NT_TO_REGEXP "(?P<N>N{3})" = "(?P<N>[ACGT]{3})".
Proof. vm_compute. reflexivity. Qed.

Example re_expandIUPAC_unclosed :
  re_expandIUPAC IUPAC_NT_TO_REGEXP "(?P<NN" = "(?P<[ACGT][ACGT]".
Proof. vm_compute. reflexivity. Qed.

Lemma IUPAC_safe : safe_table IUPAC_NT_TO_REGEXP.
Proof. apply (bool_decide_unpack _). vm_compute. reflexivity. Qed.

(** ** Python values *)

(** A Python float: a real number, or NaN.  Rounding, overflow and
    underflow are not modelled. *)
Inductive pyfloat :=
| NaN
| Fin (r : R).

(** [minimap2.Alignment], a named tuple declared outside this file; the
    fields read by [alignSeqs]. *)
Inductive Alignment := mkAlignment {
  target : string;
  strand : Z;
  q_st : Z;
  q_en : Z;
  q_len : Z;
  r_st : Z;
  r_en : Z;
  r_len : Z;
  cigar_str : string;
  additional : list Alignment
}.

(** The values held by the cells of a data frame. *)
Inductive value :=
| VNone
| VBool (b : bool)
| VInt (z : Z)
| VFloat (f : pyfloat)
| VStr (s : string)
| VArray (a : list Z)
| VList (l : list string)
| VAlignment (a : Alignment).

(** [seq[start:stop]] for integers [start], [stop]: negative indices count
    from the end, and both are clipped to the sequence. *)
Definition slice_index (n : nat) (i : Z) : nat :=
  if (i <? 0)%Z then Z.to_nat (Z.max (i + Z.of_nat n) 0)
  else Nat.min (Z.to_nat i) n.

Definition py_slice {A} (l : list A) (start stop : Z) : list A :=
  let a := slice_index (length l) start in
  let b := slice_index (length l) stop in
  take (b - a) (drop a l).

Definition str_slice (s : string) (start stop : Z) : string :=
  string_of_list_ascii (py_slice (list_ascii_of_string s) start stop).

(** ** qvalsToAccuracy *)

(** The documented arguments: a number, a list or a numpy array of
    Q-values, or a string. *)
Inductive qvals_arg :=
| QNumber (q : Z)
| QList (l : list Z)
| QArray (a : list Z)
| QStr (s : string).

(** [len(qvals)]; a number has no length. *)
Definition qvals_len (qvals : qvals_arg) : result nat :=
  match qvals with
  | QNumber _ => raise TypeError
  | QList l => Ok (length l)
  | QArray a => Ok (length a)
  | QStr s => Ok (String.length s)
  end.

(** [ord(q)] *)
Definition ord (c : ascii) : Z := Z.of_nat (nat_of_ascii c).

Definition Rsum (l : list R) : R := foldr Rplus 0%R l.

(** [(1 - 10**(qvals / -10)).sum() / len(qvals)] on a numpy array. *)
Definition mean_accuracy (a : list Z) : R :=
  (Rsum ((fun q => 1 - Rpower 10 (IZR q / -10)) <$> a) / INR (length a))%R.

Definition qvalsToAccuracy (qvals : qvals_arg) (encoding : string)
  : result pyfloat :=
  let qvals :=
    if String.eqb encoding "numbers" then
      match qvals with
      | QNumber q => QArray [q]
      | QList l => QArray l
      | _ => qvals
      end
    else qvals in
  n ← qvals_len qvals;
  if n =? 0 then Ok NaN
  else
    qvals ← (if String.eqb encoding "numbers" then Ok qvals
             else if String.eqb encoding "sanger" then
               match qvals with
               | QStr s =>
                   Ok (QArray ((fun q => ord q - 33)%Z <$> list_ascii_of_string s))
               | _ => raise TypeError
               end
             else raise RuntimeError);
    match qvals with
    | QArray a => Ok (Fin (mean_accuracy a))
    | _ => raise TypeError
    end.

(** ** Data frames *)

(** A [pandas.DataFrame]: the index with its name, and the columns in
    order, each with one cell per row. *)
Record DataFrame := mkDataFrame {
  index_name : option string;
  index : list Z;
  columns : list (string * list value)
}.

Definition column_names (df : DataFrame) : list string := (columns df).*1.

Fixpoint assoc {A} (k : string) (l : list (string * A)) : option A :=
  match l with
  | [] => None
  | (k', v) :: l' => if decide (k = k') then Some v else assoc k l'
  end.

(** The cell of column [c] in row [i]. *)
Definition cell (df : DataFrame) (c : string) (i : nat) : option value :=
  col ← assoc c (columns df); col !! i.

(** [getattr(tup, c)] for the row [i] of [df.itertuples()]. *)
Definition row_get (df : DataFrame) (i : nat) (c : string) : result value :=
  match cell df c i with
  | Some v => Ok v
  | None => raise KeyError
  end.

(** [df.drop(dup_cols, axis=1)] *)
Definition drop_columns (dup_cols : gset string) (df : DataFrame) : DataFrame :=
  {| index_name := index_name df;
     index := index df;
     columns := filter (fun p => p.1 ∉ dup_cols) (columns df) |}.

(** [d[k].append(v)] on a dict of lists. *)
Definition dict_append (d : gmap string (list value)) (kv : string * value)
  : gmap string (list value) :=
  alter (fun l => l ++ [kv.2]) kv.1 d.

(** [indexname in d] for the name of an index, which may be [None]; the
    keys of [d] are strings. *)
Definition name_in_dict (indexname : option string)
    (d : gmap string (list value)) : bool :=
  match indexname with
  | Some n => bool_decide (n ∈ dom d)
  | None => false
  end.

(** [{c: [] for c in newcols}] *)
Definition empty_columns (newcols : list string) : gmap string (list value) :=
  list_to_map ((fun c => (c, [])) <$> newcols).

(** [pandas.concat([df.drop(dup_cols, axis=1),
                    pandas.DataFrame(d).set_index(indexname)], axis=1)]
    where [d] holds, besides the index, one list per new column, in the
    order the keys were inserted.  The constructor rejects lists of
    different lengths. *)
Definition concat_columns (df : DataFrame) (dup_cols : gset string)
    (newcols : list string) (d : gmap string (list value)) : result DataFrame :=
  let keys := remove_dups newcols in
  let cols := (fun c => (c, default [] (d !! c))) <$> keys in
  if forallb (fun p => length p.2 =? length (index df)) cols then
    Ok {| index_name := index_name df;
          index := index df;
          columns := columns (drop_columns dup_cols df) ++ cols |}
  else raise ValueError.

(** ** The regular-expression library, as [matchSeqs] uses it *)

(** [regex.compile] and, for a compiled pattern, the names of its groups
    and [search], which gives the span of every named group of the
    leftmost match ([(-1, -1)] for a group that took no part). *)
Class RegexLib := {
  Pattern : Type;
  regex_compile : string -> result Pattern;
  groupindex : Pattern -> list string;
  search_spans : Pattern -> string -> option (string -> Z * Z)
}.

(** A match object: the string searched and the group spans. *)
Record Match := mkMatch {
  m_string : string;
  m_span : string -> Z * Z
}.

Definition m_start (m : Match) (g : string) : Z := (m_span m g).1.
Definition m_end (m : Match) (g : string) : Z := (m_span m g).2.

(** [m.group(g)]: the text of the group, [None] if it took no part. *)
Definition m_group (m : Match) (g : string) : value :=
  if (m_start m g <? 0)%Z then VNone
  else VStr (str_slice (m_string m) (m_start m g) (m_end m g)).

Definition matcher_search `{RegexLib} (matcher : Pattern) (s : string)
  : option Match :=
  mkMatch s <$> search_spans matcher s.

(** ** matchSeqs *)

Record match_options := {
  add_polarity : bool;
  add_group_cols : bool;
  add_accuracy : bool;
  add_qvals : bool;
  expandIUPAC : bool;
  overwrite : bool
}.

(** The keyword defaults of [matchSeqs]. *)
Definition match_defaults : match_options :=
  {| add_polarity := true; add_group_cols := true; add_accuracy := true;
     add_qvals := true; expandIUPAC := true; overwrite := false |}.

(** The Q-values of a row, a numpy integer array as
    [CCS._build_df_from_bamfile] stores them; the model rejects a cell of
    another type. *)
Definition as_array (v : value) : result (list Z) :=
  match v with
  | VArray a => Ok a
  | _ => raise TypeError
  end.

Definition as_str (v : value) : result string :=
  match v with
  | VStr s => Ok s
  | _ => raise TypeError
  end.

Section MatchSeqs.

Context `{RegexLib}.

(** [dms_tools2.NT_TO_REGEXP] and [dms_tools2.utils.reverseComplement],
    both declared outside this file. *)
Variable NT_TO_REGEXP : gmap ascii string.
Variable reverseComplement : string -> result string.

Definition polarity_col (match_col : string) : string :=
  match_col +:+ "_polarity".

(** The names of the columns to add, with the group names. *)
Definition match_newcols (df : DataFrame) (matcher : Pattern)
    (col_to_match match_col : string) (o : match_options)
  : result (list string * list string) :=
  let newcols := [match_col] in
  let newcols :=
    if add_polarity o then newcols ++ [polarity_col match_col]
    else newcols in
  if add_group_cols o then
    let groupnames := groupindex matcher in
    if negb (size (list_to_set groupnames : gset string) =? length groupnames)
    then raise ValueError
    else
      let newcols := newcols ++ groupnames in
      let newcols :=
        if add_accuracy o
        then newcols ++ ((fun g => g +:+ "_accuracy") <$> groupnames)
        else newcols in
      let newcols :=
        if add_qvals o
        then newcols ++ ((fun g => g +:+ "_qvals") <$> groupnames)
        else newcols in
      if add_accuracy o || add_qvals o then
        if bool_decide (col_to_match +:+ "_qvals" ∈ column_names df)
        then Ok (newcols, groupnames)
        else raise ValueError
      else Ok (newcols, groupnames)
  else Ok (newcols, []).

(** What a matching row appends for the group [g]. *)
Definition group_appends (o : match_options) (m : Match)
    (qs : option (list Z)) (g : string) : result (list (string * value)) :=
  let sl := py_slice (default [] qs) (m_start m g) (m_end m g) in
  qv ← (if add_qvals o then Ok [(g +:+ "_qvals", VArray sl)] else Ok []);
  ac ← (if add_accuracy o then
          a ← qvalsToAccuracy (QArray sl) "numbers";
          Ok [(g +:+ "_accuracy", VFloat a)]
        else Ok []);
  Ok ((g, m_group m g) :: qv ++ ac).

(** What a row without a match appends for the group [g]. *)
Definition group_sentinels (o : match_options) (g : string)
  : list (string * value) :=
  (g, VStr "")
  :: (if add_qvals o then [(g +:+ "_qvals", VArray [])] else [])
  ++ (if add_accuracy o then [(g +:+ "_accuracy", VInt (-1))] else []).

(** The body of the loop over the rows: the pairs appended to
    [match_d], in order. *)
Definition match_row (df : DataFrame) (matcher : Pattern)
    (col_to_match match_col : string) (o : match_options)
    (groupnames : list string) (i : nat) : result (list (string * value)) :=
  let with_qvals := add_group_cols o && (add_accuracy o || add_qvals o) in
  s ← row_get df i col_to_match ≫= as_str;
  let m := matcher_search matcher s in
  qs ← ((if with_qvals then
           a ← row_get df i (col_to_match +:+ "_qvals") ≫= as_array;
           Ok (Some a)
         else Ok None) : result (option (list Z)));
  '(m, polarity, qs) ←
    (match m with
     | Some _ => Ok (m, 1%Z, qs)
     | None =>
         rc ← reverseComplement s;
         Ok (matcher_search matcher rc, (-1)%Z,
             if with_qvals then reverse <$> qs else qs)
     end : result (option Match * Z * option (list Z)));
  match m with
  | Some m =>
      gs ← mapM (group_appends o m qs) groupnames;
      Ok ((match_col, VBool true)
          :: (if add_polarity o
              then [(polarity_col match_col, VInt polarity)] else [])
          ++ concat gs)
  | None =>
      Ok ((match_col, VBool false)
          :: (if add_polarity o
              then [(polarity_col match_col, VInt 0)] else [])
          ++ concat (group_sentinels o <$> groupnames))
  end.

Definition matchSeqs (df : DataFrame) (match_str : option string)
    (col_to_match match_col : string) (o : match_options)
  : result DataFrame :=
  match match_str with
  | None => Ok df
  | Some match_str =>
      if negb (bool_decide (col_to_match ∈ column_names df))
      then raise AssertionError
      else
        let match_str :=
          if expandIUPAC o then re_expandIUPAC NT_TO_REGEXP match_str
          else match_str in
        matcher ← regex_compile match_str;
        '(newcols, groupnames) ←
          match_newcols df matcher col_to_match match_col o;
        let dup_cols : gset string :=
          (list_to_set newcols : gset string)
          ∩ (list_to_set (column_names df) : gset string) in
        if negb (overwrite o) && bool_decide (dup_cols <> ∅)
        then raise ValueError
        else
          match_d ←
            for_each (seq 0 (length (index df)))
              (fun (d : gmap string (list value)) i =>
                 apps ← match_row df matcher col_to_match match_col o
                          groupnames i;
                 Ok (foldl dict_append d apps))
              (empty_columns newcols);
          if name_in_dict (index_name df) match_d
          then raise AssertionError
          else if negb (overwrite o) && bool_decide (dup_cols <> ∅)
          then raise ValueError
          else concat_columns df dup_cols newcols match_d
  end.

End MatchSeqs.

(** Modelled from the spec: [dms_tools2.utils.reverseComplement] is
    declared outside this file.  The sequence is reversed and each
    nucleotide replaced by its complement; [N] is its own complement. *)
Definition complement (c : ascii) : result ascii :=
  if Ascii.eqb c "A" then Ok "T"%char
  else if Ascii.eqb c "C" then Ok "G"%char
  else if Ascii.eqb c "G" then Ok "C"%char
  else if Ascii.eqb c "T" then Ok "A"%char
  else if Ascii.eqb c "N" then Ok "N"%char
  else raise ValueError.

Definition reverseComplement (s : string) : result string :=
  l ← mapM complement (reverse (list_ascii_of_string s));
  Ok (string_of_list_ascii l).

(** The engine above as a regular-expression library. *)
Definition group_span (cs : Regex.caps) (g : string) : Z * Z :=
  match assoc g cs with
  | Some (st, en) => (Z.of_nat st, Z.of_nat en)
  | None => ((-1)%Z, (-1)%Z)
  end.

#[global] Instance engine : RegexLib := {|
  Pattern := Regex.re;
  regex_compile pattern :=
    match Regex.compile pattern with
    | Some r => Ok r
    | None => raise RegexError
    end;
  groupindex := Regex.group_names;
  search_spans r s :=
    (fun m => group_span m.2)
      <$> Regex.search_from r (list_ascii_of_string s) 0
|}.

(** The three reads of the documentation of [CCS]: one with the pattern
    as given, one reverse complemented, one without it. *)
Definition ccs_df : DataFrame :=
  {| index_name := None;
     index := [0; 1; 2]%Z;
     columns :=
       [("name",
         [VStr "barcoded_TTC_0.999_plus"; VStr "barcoded_AGA_0.995_minus";
          VStr "invalid"]);
        ("CCS",
         [VStr "ACGTTCACGCTT"; VStr "TAAGTGCTCTCGTA"; VStr "GGGCATGCACTT"]);
        ("CCS_qvals",
         [VArray (replicate 12 30%Z);
          VArray (reverse (replicate 4 30 ++ [20; 30; 24] ++ replicate 7 30)%Z);
          VArray (replicate 12 30%Z)])] |}.


(** ** The loop that fills the dict of new columns *)

(** The values appended to the key [c]. *)
Definition vals (c : string) (apps : list (string * value)) : list value :=
  (filter (fun p => p.1 = c) apps).*2.

Lemma vals_app c a b : vals c (a ++ b) = vals c a ++ vals c b.
Proof. unfold vals. by rewrite filter_app, fmap_app. Qed.

Lemma vals_concat c ls : vals c (concat ls) = concat (vals c <$> ls).
Proof.
  induction ls as [|l ls IH]; [done|]. simpl. by rewrite vals_app, IH.
Qed.

Lemma elem_of_vals c v apps : v ∈ vals c apps <-> (c, v) ∈ apps.
Proof.
  unfold vals. rewrite list_elem_of_fmap. split.
  - intros ([k w] & -> & [Hk ?]%list_elem_of_filter). simpl in *. by subst.
  - intros Hin. exists (c, v). split; [done|].
    apply list_elem_of_filter. by split.
Qed.

Lemma lookup_dict_append d kv c :
  dict_append d kv !! c
  = (fun l => if decide (kv.1 = c) then l ++ [kv.2] else l) <$> d !! c.
Proof.
  unfold dict_append. destruct (decide (kv.1 = c)) as [<-|Hne].
  - by rewrite lookup_alter_eq.
  - rewrite lookup_alter_ne by done. by destruct (d !! c).
Qed.

Lemma lookup_foldl_dict_append d apps c :
  foldl dict_append d apps !! c = (fun l => l ++ vals c apps) <$> d !! c.
Proof.
  revert d. induction apps as [|[k v] apps IH]; intros d; simpl.
  - destruct (d !! c); simpl; [by rewrite app_nil_r | done].
  - rewrite IH, lookup_dict_append. destruct (d !! c) as [l|]; simpl; [|done].
    unfold vals. rewrite filter_cons. simpl.
    destruct (decide (k = c)); simpl; [by rewrite <- app_assoc | done].
Qed.

Lemma for_each_appends {A} (f : A -> result (list (string * value)))
    rows (d0 d : gmap string (list value)) :
  for_each rows (fun d i => apps ← f i; Ok (foldl dict_append d apps)) d0
  = Ok d ->
  exists appss,
    Forall2 (fun i apps => f i = Ok apps) rows appss
    /\ d = foldl dict_append d0 (concat appss).
Proof.
  revert d0. induction rows as [|i rows IH]; intros d0; simpl.
  - intros [= <-]. exists []. by split; [constructor|].
  - destruct (f i) as [apps|e] eqn:Hf; simpl; [|done].
    intros (appss & Hall & ->)%IH. exists (apps :: appss).
    split; [by constructor|]. simpl. by rewrite foldl_app.
Qed.

(** If one row raises, whatever the dict holds, the loop raises. *)
Lemma for_each_raises {A S} (body : S -> A -> result S) rows s0 i :
  i ∈ rows -> (forall s, is_Err (body s i)) -> is_Err (for_each rows body s0).
Proof.
  intros Hi Hb. revert s0. induction rows as [|j rows IH]; intros s0.
  - by apply elem_of_nil in Hi.
  - simpl. apply elem_of_cons in Hi as [<-|Hi].
    + specialize (Hb s0). by destruct (body s0 i).
    + destruct (body s0 j); simpl; [by apply IH | done].
Qed.

Lemma lookup_empty_columns newcols c :
  c ∈ newcols -> empty_columns newcols !! c = Some [].
Proof.
  intros Hc. unfold empty_columns. apply elem_of_list_to_map_1'.
  - by intros y (? & [= _ ->] & _)%list_elem_of_fmap.
  - apply list_elem_of_fmap. by exists c.
Qed.

Lemma dom_empty_columns newcols c :
  c ∈ dom (empty_columns newcols) <-> c ∈ newcols.
Proof.
  unfold empty_columns. rewrite dom_list_to_map_L, elem_of_list_to_set.
  rewrite <- list_fmap_compose. simpl. by rewrite list_fmap_id.
Qed.

(** Lists that are all non-empty and as many as their elements together
    are singletons. *)
Lemma concat_singletons {A} (ls : list (list A)) :
  Forall (fun l => l <> []) ls -> length (concat ls) = length ls ->
  forall i l, ls !! i = Some l -> exists v, l = [v] /\ concat ls !! i = Some v.
Proof.
  intros Hne Hlen.
  assert (Hge : forall ks : list (list A),
             Forall (fun l => l <> []) ks -> length ks <= length (concat ks)).
  { induction 1 as [|k ks Hk _ IH]; simpl; [done|].
    rewrite length_app. destruct k; [done|]. simpl. lia. }
  revert Hlen. induction Hne as [|k ks Hk Hks IH]; intros Hlen i l Hi; [done|].
  simpl in Hlen. rewrite length_app in Hlen.
  specialize (Hge ks Hks).
  destruct k as [|v [|w k]]; [done| |simpl in Hlen; lia].
  destruct i as [|i]; simpl in *.
  - injection Hi as <-. by exists v.
  - apply IH; [lia | done].
Qed.

Lemma assoc_app_r {A} c (l1 l2 : list (string * A)) :
  c ∉ l1.*1 -> assoc c (l1 ++ l2) = assoc c l2.
Proof.
  induction l1 as [|[k v] l1 IH]; simpl; [done|].
  rewrite not_elem_of_cons. intros [Hne Hc].
  destruct (decide (c = k)); [done | by apply IH].
Qed.

Lemma assoc_fmap_key {A} (F : string -> A) c keys :
  c ∈ keys -> assoc c ((fun c => (c, F c)) <$> keys) = Some (F c).
Proof.
  induction keys as [|k keys IH]; simpl; [by intros ?%elem_of_nil|].
  intros [->|Hc]%elem_of_cons.
  - by rewrite decide_True.
  - destruct (decide (c = k)) as [->|]; [done | by apply IH].
Qed.

Lemma elem_of_concat {A} (x : A) (ls : list (list A)) :
  x ∈ concat ls <-> exists l, x ∈ l /\ l ∈ ls.
Proof.
  induction ls as [|k ls IH]; simpl.
  - split; [by intros ?%elem_of_nil | by intros (? & _ & ?%elem_of_nil)].
  - rewrite elem_of_app, IH. split.
    + intros [?|(l & ? & ?)]; [exists k | exists l];
        (split; [done|]); [apply list_elem_of_here | by apply list_elem_of_further].
    + intros (l & ? & [->|?]%elem_of_cons); [by left | right; eauto].
Qed.

Lemma mapM_result_Forall2 {A B} (f : A -> result B) l k :
  mapM f l = Ok k -> Forall2 (fun x y => f x = Ok y) l k.
Proof.
  revert k. induction l as [|x l IH]; intros k; simpl.
  - intros [= <-]. constructor.
  - destruct (f x) as [y|] eqn:Hf; simpl; [|done].
    destruct (mapM f l) as [k'|]; simpl; [|done].
    intros [= <-]. constructor; [done | by apply IH].
Qed.

Lemma concat_columns_Ok df dup newcols d df' :
  concat_columns df dup newcols d = Ok df' ->
  df' = {| index_name := index_name df;
           index := index df;
           columns := filter (fun p => p.1 ∉ dup) (columns df)
                      ++ ((fun c => (c, default [] (d !! c)))
                            <$> remove_dups newcols) |}
  /\ forall c, c ∈ newcols ->
       length (default [] (d !! c)) = length (index df).
Proof.
  unfold concat_columns.
  destruct (forallb _ _) eqn:Hall; [|done]. intros [= <-]. split; [done|].
  intros c Hc. rewrite forallb_forall in Hall.
  specialize (Hall (c, default [] (d !! c))). simpl in Hall.
  apply Nat.eqb_eq, Hall, list_elem_of_In, list_elem_of_fmap.
  exists c. split; [done|]. by apply elem_of_remove_dups.
Qed.

(** The tail shared by [matchSeqs] and [alignSeqs]: when every row
    appends to exactly the requested keys, the cell of a new column in a
    row is the value that row appended. *)
Lemma new_cells {A} (f : A -> result (list (string * value))) rows
    df newcols (d : gmap string (list value)) df' :
  length rows = length (index df) ->
  (forall x apps, x ∈ rows -> f x = Ok apps ->
     forall k, k ∈ apps.*1 <-> k ∈ newcols) ->
  for_each rows (fun d x => apps ← f x; Ok (foldl dict_append d apps))
    (empty_columns newcols) = Ok d ->
  concat_columns df
    ((list_to_set newcols : gset string) ∩ list_to_set (column_names df))
    newcols d = Ok df' ->
  forall i x, rows !! i = Some x ->
    exists apps, f x = Ok apps
      /\ forall c v, (c, v) ∈ apps -> cell df' c i = Some v.
Proof.
  intros Hrowlen Hkeys Hloop [-> Hlen]%concat_columns_Ok i x Hx.
  apply for_each_appends in Hloop as (appss & Hrows & ->).
  destruct (Forall2_lookup_l _ _ _ i x Hrows Hx) as (apps & Happs & Hrow).
  exists apps. split; [done|]. intros c v Hcv.
  assert (Hc' : c ∈ newcols).
  { apply (Hkeys x apps); [by eapply list_elem_of_lookup_2 | done |].
    apply list_elem_of_fmap. by exists (c, v). }
  specialize (Hlen c Hc').
  rewrite lookup_foldl_dict_append, lookup_empty_columns in Hlen by done.
  cbn in Hlen. rewrite vals_concat in Hlen.
  destruct (concat_singletons (vals c <$> appss)) with (i := i) (l := vals c apps)
    as (w & Hw & Hlook).
  - apply Forall_fmap, Forall_forall. intros apps' Hin.
    apply list_elem_of_lookup in Hin as [j Hj].
    destruct (Forall2_lookup_r _ _ _ j _ Hrows Hj) as (y & Hy & Hrow').
    assert (Hin : c ∈ apps'.*1).
    { apply (Hkeys y apps'); [by eapply list_elem_of_lookup_2 | done | done]. }
    apply list_elem_of_fmap in Hin as ([k w] & -> & Hin). cbn.
    intros Hnil. apply (elem_of_vals k w) in Hin. rewrite Hnil in Hin.
    by apply elem_of_nil in Hin.
  - rewrite Hlen, length_fmap, <- (Forall2_length _ _ _ Hrows). done.
  - by rewrite list_lookup_fmap, Happs.
  - apply elem_of_vals in Hcv. rewrite Hw in Hcv.
    apply list_elem_of_singleton in Hcv as ->.
    unfold cell. cbn [columns]. rewrite assoc_app_r.
    + rewrite (assoc_fmap_key (fun c => default [] (_ !! c)))
        by by apply elem_of_remove_dups.
      rewrite lookup_foldl_dict_append, lookup_empty_columns by done.
      cbn [mbind option_bind default from_option fmap option_fmap option_map app].
      by rewrite vals_concat.
    + intros ([k col] & Hkc & [Hk Hin]%list_elem_of_filter)%list_elem_of_fmap.
      simpl in Hkc, Hk. subst k. apply Hk.
      apply elem_of_intersection. split; apply elem_of_list_to_set; [done|].
      apply list_elem_of_fmap. by exists (c, col).
Qed.

Lemma filter_eq_NoDup (c : string) (l : list string) :
  NoDup l -> c ∈ l -> filter (fun k => k = c) l = [c].
Proof.
  induction 1 as [|k l Hk _ IH]; [by intros ?%elem_of_nil|].
  intros [->|Hc]%elem_of_cons.
  - rewrite filter_cons_True by done. f_equal.
    apply filter_all_False, Forall_forall. by intros x Hx ->.
  - rewrite filter_cons_False by (by intros ->). by apply IH.
Qed.

(** A requested column occurs once in the result: a column of that name
    in the input is dropped and the new one added. *)
Lemma concat_columns_names df newcols (d : gmap string (list value)) df' c :
  concat_columns df
    ((list_to_set newcols : gset string) ∩ list_to_set (column_names df))
    newcols d = Ok df' ->
  c ∈ newcols ->
  filter (fun k => k = c) (column_names df') = [c].
Proof.
  intros [-> _]%concat_columns_Ok Hc. unfold column_names. cbn [columns].
  rewrite fmap_app, filter_app, <- list_fmap_compose.
  rewrite (filter_all_False (fun k => k = c)).
  - cbn. rewrite list_fmap_id. apply filter_eq_NoDup.
    + apply NoDup_remove_dups.
    + by apply elem_of_remove_dups.
  - apply Forall_forall.
    intros k ([k' col] & -> & [Hk Hin]%list_elem_of_filter)%list_elem_of_fmap.
    cbn in *. intros ->. apply Hk, elem_of_intersection.
    split; apply elem_of_list_to_set; [done|].
    apply list_elem_of_fmap. by exists (c, col).
Qed.

(** ** Properties of matchSeqs *)

Section MatchSeqsProofs.

Context `{RegexLib}.
Variable NT_TO_REGEXP : gmap ascii string.
Variable reverseComplement : string -> result string.

(** The columns requested for the group names [gn]. *)
Definition match_keys (match_col : string) (o : match_options)
    (gn : list string) : list string :=
  [match_col]
  ++ (if add_polarity o then [polarity_col match_col] else [])
  ++ gn
  ++ (if add_accuracy o then (fun g => g +:+ "_accuracy") <$> gn else [])
  ++ (if add_qvals o then (fun g => g +:+ "_qvals") <$> gn else []).

(** The group names [matchSeqs] works with. *)
Definition match_groupnames (matcher : Pattern) (o : match_options)
  : list string :=
  if add_group_cols o then groupindex matcher else [].

Lemma match_newcols_Ok df matcher ctm mc o newcols gn :
  match_newcols df matcher ctm mc o = Ok (newcols, gn) ->
  gn = match_groupnames matcher o /\ newcols = match_keys mc o gn.
Proof.
  unfold match_newcols, match_groupnames, match_keys.
  destruct (add_group_cols o), (add_polarity o); simpl.
  all: repeat case_match; simpl; try done.
  all: intros [= <- <-]; split; try done.
  all: rewrite <- ?app_assoc, ?app_nil_r; simpl; try done.
Qed.

Definition group_slice (m : Match) (qs : option (list Z)) (g : string)
  : list Z :=
  py_slice (default [] qs) (m_start m g) (m_end m g).

Lemma group_appends_shape o m qs g l :
  group_appends o m qs g = Ok l ->
  exists ac,
    l = (g, m_group m g)
        :: (if add_qvals o
            then [(g +:+ "_qvals", VArray (group_slice m qs g))] else [])
        ++ ac
    /\ (if add_accuracy o
        then exists a,
            qvalsToAccuracy (QArray (group_slice m qs g)) "numbers" = Ok a
            /\ ac = [(g +:+ "_accuracy", VFloat a)]
        else ac = []).
Proof.
  unfold group_appends, group_slice. destruct (add_accuracy o).
  - destruct (qvalsToAccuracy _ _) as [a|] eqn:Ha;
      [|by destruct (add_qvals o)].
    intros Hl. exists [(g +:+ "_accuracy", VFloat a)].
    split; [|by exists a].
    destruct (add_qvals o); cbn in Hl; by injection Hl as <-.
  - intros Hl. exists []. split; [|done].
    destruct (add_qvals o); cbn in Hl; by injection Hl as <-.
Qed.

(** The keys a row appends to, in order. *)
Definition group_keys (o : match_options) (g : string) : list string :=
  g :: (if add_qvals o then [g +:+ "_qvals"] else [])
    ++ (if add_accuracy o then [g +:+ "_accuracy"] else []).

Definition row_keys (match_col : string) (o : match_options)
    (gn : list string) : list string :=
  match_col
  :: (if add_polarity o then [polarity_col match_col] else [])
  ++ (gn ≫= group_keys o).

Lemma row_keys_match_keys mc o gn c :
  c ∈ row_keys mc o gn <-> c ∈ match_keys mc o gn.
Proof.
  unfold row_keys, match_keys, group_keys. cbn [app].
  rewrite !elem_of_cons, !elem_of_app, list_elem_of_bind.
  assert (Hg : (exists g, c ∈ g :: (if add_qvals o then [g +:+ "_qvals"] else [])
                          ++ (if add_accuracy o then [g +:+ "_accuracy"] else [])
                       /\ g ∈ gn)
               <-> c ∈ gn
                   \/ c ∈ (if add_accuracy o
                           then (fun g => g +:+ "_accuracy") <$> gn else [])
                   \/ c ∈ (if add_qvals o
                           then (fun g => g +:+ "_qvals") <$> gn else [])).
  { destruct (add_qvals o), (add_accuracy o);
      rewrite ?list_elem_of_fmap; setoid_rewrite elem_of_cons;
      try setoid_rewrite elem_of_app; try setoid_rewrite elem_of_cons;
      try setoid_rewrite elem_of_nil; naive_solver. }
  rewrite Hg. tauto.
Qed.

Lemma group_appends_keys o m qs gn gs :
  Forall2 (fun g l => group_appends o m qs g = Ok l) gn gs ->
  (concat gs).*1 = gn ≫= group_keys o.
Proof.
  induction 1 as [|g l gn gs Hl _ IH]; [done|].
  cbn [concat]. rewrite fmap_app, IH. cbn. f_equal.
  apply group_appends_shape in Hl as (ac & -> & Hac). unfold group_keys.
  destruct (add_qvals o), (add_accuracy o);
    repeat match goal with
           | H : exists _, _ |- _ => destruct H as (? & _ & ->)
           | H : _ = [] |- _ => rewrite H
           end; done.
Qed.

Lemma group_sentinels_keys o gn :
  (concat (group_sentinels o <$> gn)).*1 = gn ≫= group_keys o.
Proof.
  induction gn as [|g gn IH]; [done|].
  cbn [fmap list_fmap concat]. rewrite fmap_app. cbn. rewrite <- IH.
  f_equal. unfold group_sentinels, group_keys.
  by destruct (add_qvals o), (add_accuracy o).
Qed.

(** A row appends to the requested keys, once each. *)
Lemma match_row_keys df matcher ctm mc o gn i apps :
  match_row reverseComplement df matcher ctm mc o gn i = Ok apps ->
  apps.*1 = row_keys mc o gn.
Proof.
  unfold match_row, row_keys. intros Hrow.
  repeat match type of Hrow with
         | context [mbind _ ?x] =>
             let E := fresh "E" in destruct x eqn:E; cbn in Hrow; [|done]
         | context [match ?x with _ => _ end] =>
             let E := fresh "E" in destruct x eqn:E; cbn in Hrow; try done
         end.
  all: injection Hrow as <-; cbn; rewrite ?group_sentinels_keys; try done.
  all: by erewrite group_appends_keys
         by (eapply mapM_result_Forall2; eassumption).
Qed.

(** A call that returns has compiled the pattern, run the loop and
    joined the columns. *)
Lemma matchSeqs_inv df pat ctm mc o df' :
  matchSeqs NT_TO_REGEXP reverseComplement df (Some pat) ctm mc o = Ok df' ->
  exists matcher d,
    regex_compile (if expandIUPAC o then re_expandIUPAC NT_TO_REGEXP pat
                   else pat) = Ok matcher
    /\ for_each (seq 0 (length (index df)))
         (fun (d : gmap string (list value)) i =>
            apps ← match_row reverseComplement df matcher ctm mc o
                     (match_groupnames matcher o) i;
            Ok (foldl dict_append d apps))
         (empty_columns (match_keys mc o (match_groupnames matcher o)))
       = Ok d
    /\ concat_columns df
         ((list_to_set (match_keys mc o (match_groupnames matcher o))
             : gset string) ∩ list_to_set (column_names df))
         (match_keys mc o (match_groupnames matcher o)) d = Ok df'.
Proof.
  unfold matchSeqs.
  destruct (negb _); [done|].
  destruct (regex_compile _) as [matcher|] eqn:Hc; [|done].
  cbn [mbind result_bind].
  destruct (match_newcols _ _ _ _ _) as [[newcols gn]|] eqn:Hn; [|done].
  cbn [mbind result_bind].
  apply match_newcols_Ok in Hn as [-> ->].
  destruct (negb (overwrite o) && _); [done|].
  destruct (for_each _ _ _) as [d|] eqn:Hloop; [|done].
  cbn [mbind result_bind].
  destruct (name_in_dict _ _); [done|].
  intros Hcat. by exists matcher, d.
Qed.

(** The cells of the new columns are the values the rows append. *)
Lemma matchSeqs_cells df pat ctm mc o df' :
  matchSeqs NT_TO_REGEXP reverseComplement df (Some pat) ctm mc o = Ok df' ->
  exists matcher,
    regex_compile (if expandIUPAC o then re_expandIUPAC NT_TO_REGEXP pat
                   else pat) = Ok matcher
    /\ index df' = index df
    /\ forall i, i < length (index df) ->
         exists apps,
           match_row reverseComplement df matcher ctm mc o
             (match_groupnames matcher o) i = Ok apps
           /\ forall c v, (c, v) ∈ apps -> cell df' c i = Some v.
Proof.
  intros (matcher & d & Hc & Hloop & Hcat)%matchSeqs_inv.
  exists matcher. split; [done|].
  split; [by apply concat_columns_Ok in Hcat as [-> _]|].
  intros i Hi.
  eapply (new_cells (match_row reverseComplement df matcher ctm mc o
                       (match_groupnames matcher o))
            (seq 0 (length (index df)))) with (i := i) (x := i) in Hcat.
  - exact Hcat.
  - apply length_seq.
  - intros j apps' _ ->%match_row_keys k. apply row_keys_match_keys.
  - exact Hloop.
  - by apply lookup_seq.
Qed.

(** *** What one row appends *)

Definition with_qvals (o : match_options) : bool :=
  add_group_cols o && (add_accuracy o || add_qvals o).

Definition polarity_append (mc : string) (o : match_options) (p : Z)
  : list (string * value) :=
  if add_polarity o then [(polarity_col mc, VInt p)] else [].

(** The three outcomes of a row: a match of the sequence as given, a
    match of its reverse complement only, no match. *)
Inductive RowResult (df : DataFrame) (matcher : Pattern) (ctm mc : string)
    (o : match_options) (gn : list string) (i : nat)
  : list (string * value) -> Prop :=
| Row_forward s qs sp gs :
    cell df ctm i = Some (VStr s) ->
    (if with_qvals o then cell df (ctm +:+ "_qvals") i = Some (VArray qs)
     else True) ->
    search_spans matcher s = Some sp ->
    mapM (group_appends o (mkMatch s sp)
            (if with_qvals o then Some qs else None)) gn = Ok gs ->
    RowResult df matcher ctm mc o gn i
      ((mc, VBool true) :: polarity_append mc o 1 ++ concat gs)
| Row_reverse s qs rc sp gs :
    cell df ctm i = Some (VStr s) ->
    (if with_qvals o then cell df (ctm +:+ "_qvals") i = Some (VArray qs)
     else True) ->
    search_spans matcher s = None ->
    reverseComplement s = Ok rc ->
    search_spans matcher rc = Some sp ->
    mapM (group_appends o (mkMatch rc sp)
            (if with_qvals o then Some (reverse qs) else None)) gn = Ok gs ->
    RowResult df matcher ctm mc o gn i
      ((mc, VBool true) :: polarity_append mc o (-1) ++ concat gs)
| Row_nomatch s rc :
    cell df ctm i = Some (VStr s) ->
    search_spans matcher s = None ->
    reverseComplement s = Ok rc ->
    search_spans matcher rc = None ->
    RowResult df matcher ctm mc o gn i
      ((mc, VBool false) :: polarity_append mc o 0
       ++ concat (group_sentinels o <$> gn)).

Lemma row_get_str df i c s :
  row_get df i c ≫= as_str = Ok s -> cell df c i = Some (VStr s).
Proof.
  unfold row_get. destruct (cell df c i) as [[]|]; cbn; try done.
  by intros [= ->].
Qed.

Lemma row_get_array df i c a :
  row_get df i c ≫= as_array = Ok a -> cell df c i = Some (VArray a).
Proof.
  unfold row_get. destruct (cell df c i) as [[]|]; cbn; try done.
  by intros [= ->].
Qed.

Lemma match_row_inv df matcher ctm mc o gn i apps :
  match_row reverseComplement df matcher ctm mc o gn i = Ok apps ->
  RowResult df matcher ctm mc o gn i apps.
Proof.
  unfold match_row. fold (with_qvals o).
  destruct (row_get df i ctm ≫= as_str) as [s|] eqn:Hs; [|done].
  apply row_get_str in Hs. cbn [mbind result_bind].
  assert (Hq : forall qs0 : option (list Z),
    (if with_qvals o
     then (row_get df i (ctm +:+ "_qvals") ≫= as_array)
          ≫= (fun a => Ok (Some a))
     else Ok None) = Ok qs0 ->
    exists qs, (if with_qvals o
                then cell df (ctm +:+ "_qvals") i = Some (VArray qs)
                else True)
               /\ qs0 = if with_qvals o then Some qs else None).
  { intros qs0. destruct (with_qvals o).
    - destruct (row_get _ _ _ ≫= as_array) as [a|] eqn:Ha; [|done].
      apply row_get_array in Ha. intros [= <-]. by exists a.
    - intros [= <-]. by exists []. }
  match goal with
  | |- context [mbind _ ?x] => destruct x as [qs0|] eqn:Hqs; [|done]
  end.
  destruct (Hq qs0 eq_refl) as (qs & Hcell & ->). cbn [mbind result_bind].
  unfold matcher_search.
  destruct (search_spans matcher s) as [sp|] eqn:Hsp; cbn.
  - destruct (mapM _ gn) as [gs|] eqn:Hgs; cbn; [|done].
    intros [= <-]. by eapply Row_forward.
  - destruct (reverseComplement s) as [rc|] eqn:Hrc; cbn; [|done].
    destruct (search_spans matcher rc) as [sp|] eqn:Hsp'; cbn.
    + destruct (mapM _ gn) as [gs|] eqn:Hgs; cbn; [|done].
      intros [= <-]. eapply Row_reverse; try done.
      by destruct (with_qvals o).
    + intros [= <-]. by eapply Row_nomatch.
Qed.

(** The pairs a matching row appends for its groups. *)
Lemma group_appends_elem o m qs gn gs g :
  mapM (group_appends o m qs) gn = Ok gs -> g ∈ gn ->
  (g, m_group m g) ∈ concat gs
  /\ (add_qvals o = true ->
      (g +:+ "_qvals", VArray (group_slice m qs g)) ∈ concat gs)
  /\ (add_accuracy o = true ->
      exists a,
        qvalsToAccuracy (QArray (group_slice m qs g)) "numbers" = Ok a
        /\ (g +:+ "_accuracy", VFloat a) ∈ concat gs).
Proof.
  intros Hgs%mapM_result_Forall2 Hg.
  apply list_elem_of_lookup in Hg as [j Hj].
  destruct (Forall2_lookup_l _ _ _ _ _ Hgs Hj) as (l & Hl & Hshape).
  apply group_appends_shape in Hshape as (ac & -> & Hac).
  assert (Hin : forall x, x ∈ ((g, m_group m g)
             :: (if add_qvals o
                 then [(g +:+ "_qvals", VArray (group_slice m qs g))] else [])
             ++ ac) -> x ∈ concat gs).
  { intros x Hx. apply elem_of_concat. eexists. split; [done|].
    apply list_elem_of_lookup. eauto. }
  split; [apply Hin, list_elem_of_here|]. split.
  - intros Hq. apply Hin. rewrite Hq.
    apply list_elem_of_further, elem_of_app. left. apply list_elem_of_here.
  - intros Ha. rewrite Ha in Hac. destruct Hac as (a & Hq & ->).
    exists a. split; [done|]. apply Hin.
    apply list_elem_of_further, elem_of_app. right. apply list_elem_of_here.
Qed.

Lemma group_sentinels_elem o gn g :
  g ∈ gn ->
  let apps := concat (group_sentinels o <$> gn) in
  (g, VStr "") ∈ apps
  /\ (add_qvals o = true -> (g +:+ "_qvals", VArray []) ∈ apps)
  /\ (add_accuracy o = true -> (g +:+ "_accuracy", VInt (-1)) ∈ apps).
Proof.
  intros Hg apps.
  assert (Hin : forall x, x ∈ group_sentinels o g -> x ∈ apps).
  { intros x Hx. apply elem_of_concat. exists (group_sentinels o g).
    split; [done|]. apply list_elem_of_fmap. by exists g. }
  unfold group_sentinels in Hin.
  split; [apply Hin, list_elem_of_here|]. split.
  - intros Hq. apply Hin. rewrite Hq.
    apply list_elem_of_further, elem_of_app. left. apply list_elem_of_here.
  - intros Ha. apply Hin. rewrite Ha.
    apply list_elem_of_further, elem_of_app. right. apply list_elem_of_here.
Qed.

End MatchSeqsProofs.

(** ** alignSeqs *)

(** [minimap2.Mapper], declared outside this file: [map] aligns the
    queries of a FASTA file, given here as (name, sequence) pairs, and
    returns the best alignment of each query that aligns;
    [target_isoforms] gives for each target the targets taken as its
    isoforms. *)
Record Mapper := {
  mapper_map :
    list (string * string) -> option string -> result (gmap string Alignment);
  target_isoforms : gmap string (gset string)
}.

(** [minimap2.TargetVariants] and [minimap2.MutationCaller], declared
    outside this file; as objects they are true wherever [alignSeqs]
    tests them. *)
Record TargetVariants := {
  variantsites_min_acc : option pyfloat;
  tv_call : Alignment -> value -> result (string * Alignment)
}.

Record MutationCaller := {
  mc_call : Alignment -> result (gmap string (list string))
}.

Record align_options := {
  add_alignment : bool;
  add_target : bool;
  add_cigar : bool;
  add_n_trimmed : bool;
  add_n_additional : bool;
  add_n_additional_difftarget : bool;
  targetvariants : option TargetVariants;
  mutationcaller : option MutationCaller;
  align_overwrite : bool;
  paf_file : option string
}.

(** The keyword defaults of [alignSeqs]. *)
Definition align_defaults : align_options :=
  {| add_alignment := true; add_target := true; add_cigar := true;
     add_n_trimmed := true; add_n_additional := true;
     add_n_additional_difftarget := true; targetvariants := None;
     mutationcaller := None; align_overwrite := true; paf_file := None |}.

Definition mut_types : list string :=
  ["substitutions"; "insertions"; "deletions"].

Definition trimmed_suffixes : list string :=
  ["query_start"; "query_end"; "target_start"; "target_end"].

Definition opt_col (b : bool) (c : string) : list string :=
  if b then [c] else [].

(** The names of the columns to add. *)
Definition align_newcols (aligned_col : string) (o : align_options)
  : list string :=
  [aligned_col]
  ++ opt_col (add_alignment o) (aligned_col +:+ "_alignment")
  ++ opt_col (add_target o) (aligned_col +:+ "_target")
  ++ opt_col (add_cigar o) (aligned_col +:+ "_cigar")
  ++ (if add_n_trimmed o
      then (fun suffix => aligned_col +:+ "_n_trimmed_" +:+ suffix)
             <$> trimmed_suffixes
      else [])
  ++ opt_col (add_n_additional o) (aligned_col +:+ "_n_additional")
  ++ opt_col (add_n_additional_difftarget o)
       (aligned_col +:+ "_n_additional_difftarget")
  ++ opt_col (bool_decide (is_Some (targetvariants o)))
       (aligned_col +:+ "_target_variant")
  ++ (if bool_decide (is_Some (mutationcaller o))
      then (fun mut_type => aligned_col +:+ "_" +:+ mut_type) <$> mut_types
      else []).

(** [df.name]: the column of names, which the model takes to hold
    strings. *)
Definition df_names (df : DataFrame) : result (list string) :=
  match assoc "name" (columns df) with
  | Some col => mapM as_str col
  | None => raise AttributeError
  end.

(** [qvals = pandas.Series(df[qvals_col].values, index=df.name).to_dict()],
    bound only when [targetvariants.variantsites_min_acc] is not [None]. *)
Definition align_qvals (df : DataFrame) (query_col : string)
    (o : align_options) : result (option (gmap string value)) :=
  match targetvariants o with
  | Some tv =>
      match variantsites_min_acc tv with
      | Some _ =>
          match assoc (query_col +:+ "_qvals") (columns df) with
          | Some col =>
              names ← df_names df;
              Ok (Some (list_to_map (zip names col)))
          | None => raise ValueError
          end
      | None => Ok None
      end
  | None => Ok None
  end.

(** The queries written to the FASTA file: the rows of
    [df.query('query_col != ""')], as (name, query) pairs.  The model
    takes the query column to hold strings. *)
Definition align_queries (df : DataFrame) (query_col : string)
  : result (list (string * string)) :=
  names ← df_names df;
  queries ← from_option (mapM as_str) (raise KeyError)
              (assoc query_col (columns df));
  Ok (filter (fun p => p.2 <> "") (zip names queries)).

(** [(variant, a) = targetvariants.call(a, qvals[name])] with the
    pair appended for the variant, when the hook is configured. *)
Definition call_targetvariants (aligned_col : string) (o : align_options)
    (qvals : option (gmap string value)) (name : string) (a : Alignment)
  : result (Alignment * list (string * value)) :=
  match targetvariants o with
  | Some tv =>
      d ← from_option Ok (raise NameError) qvals;
      q ← from_option Ok (raise KeyError) (d !! name);
      '(variant, a') ← tv_call tv a q;
      Ok (a', [(aligned_col +:+ "_target_variant", VStr variant)])
  | None => Ok (a, [])
  end.

(** [muts = mutationcaller.call(a)] with the pairs appended for each
    mutation type, when the hook is configured. *)
Definition call_mutations (aligned_col : string) (o : align_options)
    (a : Alignment) : result (list (string * value)) :=
  match mutationcaller o with
  | Some mc =>
      muts ← mc_call mc a;
      mapM (fun mut_type =>
              l ← from_option Ok (raise KeyError) (muts !! mut_type);
              Ok (aligned_col +:+ "_" +:+ mut_type, VList l))
        mut_types
  | None => Ok []
  end.

(** The additional alignments to targets that are not isoforms of the
    target of [a]. *)
Definition count_difftarget (mapper : Mapper) (aligned_col : string)
    (o : align_options) (a : Alignment) : result (list (string * value)) :=
  if add_n_additional_difftarget o then
    iso ← from_option Ok (raise KeyError) (target_isoforms mapper !! target a);
    Ok [(aligned_col +:+ "_n_additional_difftarget",
         VInt (Z.of_nat (length
           (filter (fun a2 => target a2 ∉ iso) (additional a)))))]
  else Ok [].

(** The pairs appended for the alignment [a], apart from those of the
    hooks and of the isoform count. *)
Definition alignment_appends (aligned_col : string) (o : align_options)
    (a : Alignment) : list (string * value) :=
  [(aligned_col, VBool true)]
  ++ (if add_alignment o
      then [(aligned_col +:+ "_alignment", VAlignment a)] else [])
  ++ (if add_target o
      then [(aligned_col +:+ "_target", VStr (target a))] else [])
  ++ (if add_cigar o
      then [(aligned_col +:+ "_cigar", VStr (cigar_str a))] else [])
  ++ (if add_n_trimmed o
      then [(aligned_col +:+ "_n_trimmed_" +:+ "query_start", VInt (q_st a));
            (aligned_col +:+ "_n_trimmed_" +:+ "query_end",
             VInt (q_len a - q_en a));
            (aligned_col +:+ "_n_trimmed_" +:+ "target_start", VInt (r_st a));
            (aligned_col +:+ "_n_trimmed_" +:+ "target_end",
             VInt (r_len a - r_en a))]
      else [])
  ++ (if add_n_additional o
      then [(aligned_col +:+ "_n_additional",
             VInt (Z.of_nat (length (additional a))))]
      else []).

(** What a row with the alignment [a] appends. *)
Definition aligned_appends (mapper : Mapper) (aligned_col : string)
    (o : align_options) (qvals : option (gmap string value))
    (name : string) (a : Alignment) : result (list (string * value)) :=
  if negb (strand a =? 1)%Z then raise AssertionError
  else
    '(a, variant) ← call_targetvariants aligned_col o qvals name a;
    muts ← call_mutations aligned_col o a;
    difftarget ← count_difftarget mapper aligned_col o a;
    Ok (variant ++ muts ++ alignment_appends aligned_col o a ++ difftarget).

(** What a row without an alignment appends. *)
Definition unaligned_appends (aligned_col : string) (o : align_options)
  : list (string * value) :=
  [(aligned_col, VBool false)]
  ++ (if add_alignment o then [(aligned_col +:+ "_alignment", VNone)] else [])
  ++ (if add_target o then [(aligned_col +:+ "_target", VStr "")] else [])
  ++ (if add_cigar o then [(aligned_col +:+ "_cigar", VStr "")] else [])
  ++ (if add_n_trimmed o
      then (fun suffix =>
              (aligned_col +:+ "_n_trimmed_" +:+ suffix, VInt (-1)))
             <$> trimmed_suffixes
      else [])
  ++ (if add_n_additional o
      then [(aligned_col +:+ "_n_additional", VInt (-1))] else [])
  ++ (if add_n_additional_difftarget o
      then [(aligned_col +:+ "_n_additional_difftarget", VInt (-1))] else [])
  ++ (if bool_decide (is_Some (targetvariants o))
      then [(aligned_col +:+ "_target_variant", VStr "")] else [])
  ++ (if bool_decide (is_Some (mutationcaller o))
      then (fun mut_type => (aligned_col +:+ "_" +:+ mut_type, VList []))
             <$> mut_types
      else []).

(** The body of the loop over the names. *)
Definition align_row (mapper : Mapper) (aligned_col : string)
    (o : align_options) (qvals : option (gmap string value))
    (map_dict : gmap string Alignment) (name : string)
  : result (list (string * value)) :=
  match map_dict !! name with
  | Some a => aligned_appends mapper aligned_col o qvals name a
  | None => Ok (unaligned_appends aligned_col o)
  end.

Definition alignSeqs (df : DataFrame) (mapper : Mapper)
    (query_col aligned_col : string) (o : align_options) : result DataFrame :=
  if negb (bool_decide (query_col ∈ column_names df))
  then raise AssertionError
  else
    let newcols := align_newcols aligned_col o in
    qvals ← align_qvals df query_col o;
    if negb (length newcols =? size (list_to_set newcols : gset string))
    then raise AssertionError
    else
      let dup_cols : gset string :=
        (list_to_set newcols : gset string)
        ∩ (list_to_set (column_names df) : gset string) in
      if negb (align_overwrite o) && bool_decide (dup_cols <> ∅)
      then raise ValueError
      else
        names ← df_names df;
        if negb (length names =? size (list_to_set names : gset string))
        then raise AssertionError
        else
          queries ← align_queries df query_col;
          map_dict ← mapper_map mapper queries (paf_file o);
          align_d ←
            for_each names
              (fun (d : gmap string (list value)) name =>
                 apps ← align_row mapper aligned_col o qvals map_dict name;
                 Ok (foldl dict_append d apps))
              (empty_columns newcols);
          if name_in_dict (index_name df) align_d
          then raise AssertionError
          else if negb (align_overwrite o) && bool_decide (dup_cols <> ∅)
          then raise ValueError
          else concat_columns df dup_cols newcols align_d.

(** ** Properties of alignSeqs *)

(** Every column of a data frame has one cell per row. *)
Definition wf_df (df : DataFrame) : Prop :=
  Forall (fun p => length p.2 = length (index df)) (columns df).

#[global] Instance wf_df_dec df : Decision (wf_df df).
Proof. unfold wf_df. apply _. Defined.

Lemma assoc_elem {A} c (l : list (string * A)) v :
  assoc c l = Some v -> (c, v) ∈ l.
Proof.
  induction l as [|[k w] l IH]; simpl; [done|].
  destruct (decide (c = k)) as [->|].
  - intros [= ->]. apply list_elem_of_here.
  - intros ?. by apply list_elem_of_further, IH.
Qed.

Lemma mapM_result_length {A B} (f : A -> result B) l k :
  mapM f l = Ok k -> length k = length l.
Proof. intros ?%mapM_result_Forall2. symmetry. by eapply Forall2_length. Qed.

Lemma df_names_length df names :
  wf_df df -> df_names df = Ok names -> length names = length (index df).
Proof.
  unfold wf_df, df_names. intros Hwf.
  destruct (assoc "name" (columns df)) as [col|] eqn:Hcol; [|done].
  intros ->%mapM_result_length. apply assoc_elem in Hcol.
  rewrite Forall_forall in Hwf. by apply (Hwf _ Hcol).
Qed.

(** The alignment a row reports: the one returned by the mapper, or what
    [targetvariants.call] makes of it. *)
Definition reported_alignment (o : align_options) (a0 a : Alignment) : Prop :=
  match targetvariants o with
  | Some tv => exists q variant, tv_call tv a0 q = Ok (variant, a)
  | None => a = a0
  end.

Lemma call_targetvariants_inv ac o qvals name a0 a variant :
  call_targetvariants ac o qvals name a0 = Ok (a, variant) ->
  reported_alignment o a0 a
  /\ variant.*1 = opt_col (bool_decide (is_Some (targetvariants o)))
                    (ac +:+ "_target_variant").
Proof.
  unfold call_targetvariants, reported_alignment.
  destruct (targetvariants o) as [tv|]; [|by intros [= <- <-]].
  destruct qvals as [d|]; [|done]. cbn.
  destruct (d !! name) as [q|]; [|done]. cbn.
  destruct (tv_call tv a0 q) as [[v a']|] eqn:Htv; [|done]. cbn.
  intros [= <- <-]. split; [eauto | done].
Qed.

Lemma call_mutations_keys ac o a muts :
  call_mutations ac o a = Ok muts ->
  muts.*1 = (if bool_decide (is_Some (mutationcaller o))
             then (fun mut_type => ac +:+ "_" +:+ mut_type) <$> mut_types
             else []).
Proof.
  unfold call_mutations.
  destruct (mutationcaller o) as [mc|]; [|by intros [= <-]].
  destruct (mc_call mc a) as [m|]; [|done]. cbn [mbind result_bind].
  intros Hm%mapM_result_Forall2. rewrite bool_decide_eq_true_2 by eauto.
  induction Hm as [|t p ts ps Hp _ IH]; [done|].
  cbn [fmap list_fmap]. rewrite <- IH. f_equal.
  destruct (m !! t); cbn in Hp; [by injection Hp as <- | done].
Qed.

Lemma count_difftarget_keys mapper ac o a diff :
  count_difftarget mapper ac o a = Ok diff ->
  diff.*1 = opt_col (add_n_additional_difftarget o)
              (ac +:+ "_n_additional_difftarget").
Proof.
  unfold count_difftarget.
  destruct (add_n_additional_difftarget o); [|by intros [= <-]].
  destruct (target_isoforms mapper !! target a); [|done].
  by intros [= <-].
Qed.

Lemma aligned_appends_inv mapper ac o qvals name a0 apps :
  aligned_appends mapper ac o qvals name a0 = Ok apps ->
  strand a0 = 1%Z /\
  exists a variant muts diff,
    reported_alignment o a0 a
    /\ variant.*1 = opt_col (bool_decide (is_Some (targetvariants o)))
                      (ac +:+ "_target_variant")
    /\ muts.*1 = (if bool_decide (is_Some (mutationcaller o))
                  then (fun mut_type => ac +:+ "_" +:+ mut_type) <$> mut_types
                  else [])
    /\ diff.*1 = opt_col (add_n_additional_difftarget o)
                   (ac +:+ "_n_additional_difftarget")
    /\ apps = variant ++ muts ++ alignment_appends ac o a ++ diff.
Proof.
  unfold aligned_appends. intros Happs.
  destruct (strand a0 =? 1)%Z eqn:Hs; [|done]. apply Z.eqb_eq in Hs.
  cbn [negb] in Happs. split; [done|].
  destruct (call_targetvariants _ _ _ _ _) as [[a variant]|] eqn:Htv; [|done].
  cbn [mbind result_bind] in Happs.
  destruct (call_mutations _ _ _) as [muts|] eqn:Hm; [|done].
  cbn [mbind result_bind] in Happs.
  destruct (count_difftarget _ _ _ _) as [diff|] eqn:Hd; [|done].
  cbn [mbind result_bind] in Happs. injection Happs as <-.
  apply call_targetvariants_inv in Htv as [? ?].
  apply call_mutations_keys in Hm. apply count_difftarget_keys in Hd.
  by exists a, variant, muts, diff.
Qed.

Lemma fst_opt_pair (b : bool) (c : string) (v : value) :
  (if b then [(c, v)] else []).*1 = opt_col b c.
Proof. by destruct b. Qed.

Lemma alignment_appends_keys ac o a :
  (alignment_appends ac o a).*1
  = [ac]
    ++ opt_col (add_alignment o) (ac +:+ "_alignment")
    ++ opt_col (add_target o) (ac +:+ "_target")
    ++ opt_col (add_cigar o) (ac +:+ "_cigar")
    ++ (if add_n_trimmed o
        then (fun suffix => ac +:+ "_n_trimmed_" +:+ suffix) <$> trimmed_suffixes
        else [])
    ++ opt_col (add_n_additional o) (ac +:+ "_n_additional").
Proof.
  unfold alignment_appends. rewrite !fmap_app, !fst_opt_pair.
  by destruct (add_n_trimmed o).
Qed.

Lemma unaligned_appends_keys ac o :
  (unaligned_appends ac o).*1 = align_newcols ac o.
Proof.
  unfold unaligned_appends, align_newcols.
  rewrite !fmap_app, !fst_opt_pair.
  destruct (add_n_trimmed o), (bool_decide (is_Some (mutationcaller o))); done.
Qed.

Lemma align_row_keys mapper ac o qvals map_dict name apps :
  align_row mapper ac o qvals map_dict name = Ok apps ->
  forall k, k ∈ apps.*1 <-> k ∈ align_newcols ac o.
Proof.
  unfold align_row. destruct (map_dict !! name) as [a0|].
  - intros (_ & a & variant & muts & diff & _ & Hv & Hm & Hd & ->)%aligned_appends_inv k.
    rewrite !fmap_app, Hv, Hm, Hd, alignment_appends_keys.
    unfold align_newcols. rewrite !elem_of_app. tauto.
  - intros [= <-] k. by rewrite unaligned_appends_keys.
Qed.

Lemma alignSeqs_inv df mapper qc ac o df' :
  alignSeqs df mapper qc ac o = Ok df' ->
  exists qvals names queries map_dict d,
    align_qvals df qc o = Ok qvals
    /\ df_names df = Ok names
    /\ align_queries df qc = Ok queries
    /\ mapper_map mapper queries (paf_file o) = Ok map_dict
    /\ for_each names
         (fun (d : gmap string (list value)) name =>
            apps ← align_row mapper ac o qvals map_dict name;
            Ok (foldl dict_append d apps))
         (empty_columns (align_newcols ac o)) = Ok d
    /\ concat_columns df
         ((list_to_set (align_newcols ac o) : gset string)
          ∩ list_to_set (column_names df))
         (align_newcols ac o) d = Ok df'.
Proof.
  unfold alignSeqs.
  destruct (negb (bool_decide _)); [done|].
  destruct (align_qvals df qc o) as [qvals|] eqn:Hq; [|done].
  cbn [mbind result_bind].
  destruct (negb (_ =? _)); [done|].
  destruct (negb (align_overwrite o) && _); [done|].
  destruct (df_names df) as [names|] eqn:Hnames; [|done].
  cbn [mbind result_bind].
  destruct (negb (_ =? _)); [done|].
  destruct (align_queries df qc) as [queries|] eqn:Hqs; [|done].
  cbn [mbind result_bind].
  destruct (mapper_map _ _ _) as [map_dict|] eqn:Hmap; [|done].
  cbn [mbind result_bind].
  destruct (for_each _ _ _) as [d|] eqn:Hloop; [|done].
  cbn [mbind result_bind].
  destruct (name_in_dict _ _); [done|].
  intros Hcat. by exists qvals, names, queries, map_dict, d.
Qed.

(** The cells of the new columns are the values the rows append. *)
Lemma alignSeqs_cells df mapper qc ac o df' :
  wf_df df ->
  alignSeqs df mapper qc ac o = Ok df' ->
  exists qvals names queries map_dict,
    align_qvals df qc o = Ok qvals
    /\ df_names df = Ok names
    /\ align_queries df qc = Ok queries
    /\ mapper_map mapper queries (paf_file o) = Ok map_dict
    /\ forall i name, names !! i = Some name ->
         exists apps,
           align_row mapper ac o qvals map_dict name = Ok apps
           /\ forall c v, (c, v) ∈ apps -> cell df' c i = Some v.
Proof.
  intros Hwf (qvals & names & queries & map_dict & d & Hq & Hnames & Hqs
              & Hmap & Hloop & Hcat)%alignSeqs_inv.
  exists qvals, names, queries, map_dict.
  repeat (split; [done|]). intros i name Hi.
  eapply (new_cells (align_row mapper ac o qvals map_dict) names)
    with (i := i) (x := name) in Hcat.
  - exact Hcat.
  - by apply df_names_length.
  - intros x apps _ Hrow. by eapply align_row_keys.
  - exact Hloop.
  - done.
Qed.

(** * The claims *)

(** ** The accuracy model *)

(** The per-base probability of a correct call, [1 - 10^(-Q/10)]. *)
Definition correctness_probability (Q : Z) : R :=
  (1 - Rpower 10 (- IZR Q / 10))%R.

Definition arithmetic_mean (l : list R) : R :=
  (Rsum l / INR (length l))%R.

Lemma mean_accuracy_spec a :
  mean_accuracy a = arithmetic_mean (correctness_probability <$> a).
Proof.
  unfold mean_accuracy, arithmetic_mean. rewrite !length_fmap. f_equal.
  f_equal. apply list_fmap_ext. intros _ q _. unfold correctness_probability.
  f_equal. f_equal. field.
Qed.

(** C4. For a non-empty vector of Q-values, given as a numpy array, as a
    list or (a single value) as a number, [qvalsToAccuracy] returns the
    arithmetic mean of the per-base correctness probabilities
    [1 - 10^(-Q/10)]; for an empty array, list or string it returns NaN,
    whatever the encoding, and raises nothing. *)
Theorem qvalsToAccuracy_mean_or_nan :
  (forall q qs,
      qvalsToAccuracy (QArray (q :: qs)) "numbers"
      = Ok (Fin (arithmetic_mean (correctness_probability <$> q :: qs)))
      /\ qvalsToAccuracy (QList (q :: qs)) "numbers"
         = Ok (Fin (arithmetic_mean (correctness_probability <$> q :: qs))))
  /\ (forall q,
         qvalsToAccuracy (QNumber q) "numbers"
         = Ok (Fin (arithmetic_mean [correctness_probability q])))
  /\ (forall encoding,
         qvalsToAccuracy (QArray []) encoding = Ok NaN
         /\ qvalsToAccuracy (QList []) encoding = Ok NaN
         /\ qvalsToAccuracy (QStr "") encoding = Ok NaN).
Proof.
  split; [|split].
  - intros q qs. unfold qvalsToAccuracy. cbn -[mean_accuracy].
    by rewrite mean_accuracy_spec.
  - intros q. unfold qvalsToAccuracy. cbn -[mean_accuracy].
    by rewrite mean_accuracy_spec.
  - intros encoding. unfold qvalsToAccuracy.
    by destruct (String.eqb encoding "numbers").
Qed.

(** C5. Scoring a quality string under the "sanger" encoding gives what
    scoring the vector of its code points minus 33 gives under the
    "numbers" encoding. *)
Theorem qvalsToAccuracy_sanger (s : string) :
  qvalsToAccuracy (QStr s) "sanger"
  = qvalsToAccuracy
      (QArray ((fun q => ord q - 33)%Z <$> list_ascii_of_string s)) "numbers".
Proof. by destruct s. Qed.

(** The doctest values of [qvalsToAccuracy]: 0.983 for [13, 77, 93] and
    for the string [.n~], 0.968 for the number 15. *)
Example qvalsToAccuracy_doctest_string :
  qvalsToAccuracy (QStr ".n~") "sanger"
  = qvalsToAccuracy (QArray [13; 77; 93]%Z) "numbers".
Proof. reflexivity. Qed.

(** ** matchSeqs *)

(** The sentinels of the group [g] in row [i]: empty text, empty quality
    slice, accuracy -1, in the requested columns. *)
Definition group_sentinel_cells (df' : DataFrame) (o : match_options)
    (g : string) (i : nat) : Prop :=
  cell df' g i = Some (VStr "")
  /\ (add_qvals o = true -> cell df' (g +:+ "_qvals") i = Some (VArray []))
  /\ (add_accuracy o = true ->
      cell df' (g +:+ "_accuracy") i = Some (VInt (-1))).

(** The invariant of the spec for row [i]: polarity 0, no match and
    sentinels in every group column are equivalent. *)
Definition row_invariant (df' : DataFrame) (match_col : string)
    (o : match_options) (groupnames : list string) (i : nat) : Prop :=
  (cell df' (polarity_col match_col) i = Some (VInt 0)
   <-> cell df' match_col i = Some (VBool false))
  /\ (cell df' match_col i = Some (VBool false)
      <-> forall g, g ∈ groupnames -> group_sentinel_cells df' o g i).

Section MatchSeqsClaims.

Context `{RegexLib}.
Variable NT_TO_REGEXP : gmap ascii string.
Variable reverseComplement : string -> result string.

(** The pattern [matchSeqs] compiles. *)
Definition compiled_pattern (o : match_options) (match_str : string)
  : result Pattern :=
  regex_compile (if expandIUPAC o
                 then re_expandIUPAC NT_TO_REGEXP match_str else match_str).

(** The cells of a row of the result, from what the row appends. *)
Lemma matchSeqs_row df pat ctm mc o df' matcher i :
  matchSeqs NT_TO_REGEXP reverseComplement df (Some pat) ctm mc o = Ok df' ->
  compiled_pattern o pat = Ok matcher ->
  i < length (index df) ->
  exists apps,
    RowResult reverseComplement df matcher ctm mc o
      (match_groupnames matcher o) i apps
    /\ forall c v, (c, v) ∈ apps -> cell df' c i = Some v.
Proof.
  intros (matcher' & Hc & _ & Hrows)%matchSeqs_cells Hm Hi.
  unfold compiled_pattern in Hm. rewrite Hc in Hm. injection Hm as ->.
  destruct (Hrows i Hi) as (apps & Hrow%match_row_inv & Hcells). eauto.
Qed.

(** C10. With [match_str = None], [matchSeqs] returns the data frame it
    was given, whatever the other arguments: nothing is checked and
    nothing raised. *)
Theorem matchSeqs_None df col_to_match match_col o :
  matchSeqs NT_TO_REGEXP reverseComplement df None col_to_match match_col o
  = Ok df.
Proof. reflexivity. Qed.

Lemma polarity_append_elem mc o p rest :
  add_polarity o = true ->
  (polarity_col mc, VInt p) ∈ polarity_append mc o p ++ rest.
Proof.
  intros Hp. unfold polarity_append. rewrite Hp. apply list_elem_of_here.
Qed.

(** A row whose sequence matches as given: polarity 1, and each
    group holds the text at its span in the sequence. *)
Lemma matchSeqs_forward df pat ctm mc o df' matcher i s sp :
  matchSeqs NT_TO_REGEXP reverseComplement df (Some pat) ctm mc o = Ok df' ->
  compiled_pattern o pat = Ok matcher ->
  i < length (index df) ->
  cell df ctm i = Some (VStr s) ->
  search_spans matcher s = Some sp ->
  cell df' mc i = Some (VBool true)
  /\ (add_polarity o = true ->
      cell df' (polarity_col mc) i = Some (VInt 1))
  /\ (add_group_cols o = true ->
      forall g, g ∈ groupindex matcher ->
        cell df' g i = Some (m_group (mkMatch s sp) g)).
Proof.
  intros Hok Hm Hi Hs Hsp.
  destruct (matchSeqs_row _ _ _ _ _ _ _ _ Hok Hm Hi) as (apps & Hrow & Hcells).
  destruct Hrow as [s0 qs0 sp0 gs Hs0 Hq0 Hsp0 Hgs
                   |s0 qs0 rc sp0 gs Hs0 Hq0 Hn0 Hrc Hsp0 Hgs
                   |s0 rc Hs0 Hn0 Hrc Hsp0];
    rewrite Hs in Hs0; injection Hs0 as <-; try congruence.
  rewrite Hsp in Hsp0. injection Hsp0 as <-.
  split; [apply Hcells, list_elem_of_here|].
  split.
  - intros Hp. apply Hcells, list_elem_of_further.
    by apply polarity_append_elem.
  - intros Hg g Hin. unfold match_groupnames in Hgs. rewrite Hg in Hgs.
    destruct (group_appends_elem _ _ _ _ _ g Hgs Hin) as (Hv & _ & _).
    apply Hcells, list_elem_of_further, elem_of_app. by right.
Qed.

(** C1. A row whose sequence does not match as given is searched again
    as its reverse complement; if that matches, the row is reported
    matched with polarity -1, each group holds the text at its span in
    the reverse complement, its quality slice is the slice at that span
    of the reversed quality array, and its accuracy is computed from
    that slice. *)
Theorem matchSeqs_reverse_complement df pat ctm mc o df' matcher i s :
  matchSeqs NT_TO_REGEXP reverseComplement df (Some pat) ctm mc o = Ok df' ->
  compiled_pattern o pat = Ok matcher ->
  i < length (index df) ->
  cell df ctm i = Some (VStr s) ->
  search_spans matcher s = None ->
  exists rc,
    reverseComplement s = Ok rc
    /\ forall sp, search_spans matcher rc = Some sp ->
        let m := mkMatch rc sp in
        cell df' mc i = Some (VBool true)
        /\ (add_polarity o = true ->
            cell df' (polarity_col mc) i = Some (VInt (-1)))
        /\ (add_group_cols o = true ->
            forall g, g ∈ groupindex matcher ->
              cell df' g i = Some (m_group m g)
              /\ forall qs,
                  cell df (ctm +:+ "_qvals") i = Some (VArray qs) ->
                  let sl := py_slice (reverse qs) (m_start m g) (m_end m g) in
                  (add_qvals o = true ->
                   cell df' (g +:+ "_qvals") i = Some (VArray sl))
                  /\ (add_accuracy o = true ->
                      exists a,
                        qvalsToAccuracy (QArray sl) "numbers" = Ok a
                        /\ cell df' (g +:+ "_accuracy") i
                           = Some (VFloat a))).
Proof.
  intros Hok Hm Hi Hs Hnone.
  destruct (matchSeqs_row _ _ _ _ _ _ _ _ Hok Hm Hi) as (apps & Hrow & Hcells).
  destruct Hrow as [s0 qs0 sp0 gs Hs0 Hq0 Hsp0 Hgs
                   |s0 qs0 rc sp0 gs Hs0 Hq0 Hn0 Hrc Hsp0 Hgs
                   |s0 rc Hs0 Hn0 Hrc Hsp0];
    rewrite Hs in Hs0; injection Hs0 as <-.
  - congruence.
  - exists rc. split; [done|]. intros sp Hsp m.
    rewrite Hsp0 in Hsp. injection Hsp as <-.
    split; [apply Hcells, list_elem_of_here|].
    split.
    { intros Hp. apply Hcells, list_elem_of_further.
      by apply polarity_append_elem. }
    intros Hg g Hin. unfold match_groupnames in Hgs. rewrite Hg in Hgs.
    destruct (group_appends_elem _ _ _ _ _ g Hgs Hin) as (Hv & Hqv & Hac).
    assert (Hsub : forall x, x ∈ concat gs ->
              x ∈ (mc, VBool true) :: polarity_append mc o (-1) ++ concat gs).
    { intros x Hx. apply list_elem_of_further, elem_of_app. by right. }
    split; [by apply Hcells, Hsub|]. intros qs Hqs sl.
    assert (Hsl : forall b, add_qvals o = true \/ add_accuracy o = true ->
              b = with_qvals o ->
              group_slice (mkMatch rc sp0)
                (if b then Some (reverse qs0) else None) g = sl).
    { intros b Hor ->. unfold with_qvals in *. rewrite Hg in *.
      destruct Hor as [Hor|Hor]; rewrite Hor, ?orb_true_r in *; cbn in *;
        rewrite Hqs in Hq0; by injection Hq0 as <-. }
    split.
    + intros Hq. specialize (Hqv Hq).
      rewrite (Hsl _ (or_introl Hq) eq_refl) in Hqv. by apply Hcells, Hsub.
    + intros Ha. destruct (Hac Ha) as (a & Hacc & Hina).
      rewrite (Hsl _ (or_intror Ha) eq_refl) in Hacc. exists a.
      split; [done|]. by apply Hcells, Hsub.
  - exists rc. split; [done|]. intros sp Hsp. congruence.
Qed.

(** C3, amended. In every row polarity is 0 exactly when the row is
    reported unmatched, and an unmatched row holds the sentinels (empty
    text, empty quality slice, accuracy -1) in every requested group
    column; a row with no match in either orientation is reported
    unmatched. *)
Theorem matchSeqs_unmatched_sentinels df pat ctm mc o df' matcher i :
  matchSeqs NT_TO_REGEXP reverseComplement df (Some pat) ctm mc o = Ok df' ->
  compiled_pattern o pat = Ok matcher ->
  i < length (index df) ->
  (add_polarity o = true ->
   (cell df' (polarity_col mc) i = Some (VInt 0)
    <-> cell df' mc i = Some (VBool false)))
  /\ (cell df' mc i = Some (VBool false) ->
      forall g, g ∈ match_groupnames matcher o ->
        group_sentinel_cells df' o g i)
  /\ (forall s rc,
        cell df ctm i = Some (VStr s) ->
        search_spans matcher s = None ->
        reverseComplement s = Ok rc ->
        search_spans matcher rc = None ->
        cell df' mc i = Some (VBool false)).
Proof.
  intros Hok Hm Hi.
  destruct (matchSeqs_row _ _ _ _ _ _ _ _ Hok Hm Hi) as (apps & Hrow & Hcells).
  destruct Hrow as [s0 qs0 sp0 gs Hs0 Hq0 Hsp0 Hgs
                   |s0 qs0 rc0 sp0 gs Hs0 Hq0 Hn0 Hrc Hsp0 Hgs
                   |s0 rc0 Hs0 Hn0 Hrc Hsp0].
  - pose proof (Hcells _ _ (list_elem_of_here _ _)) as Hmc.
    split; [|split].
    + intros Hp. rewrite Hmc.
      rewrite (Hcells (polarity_col mc) (VInt 1))
        by (by apply list_elem_of_further, polarity_append_elem).
      split; intros [=].
    + rewrite Hmc. intros [=].
    + intros s rc Hs Hn. congruence.
  - pose proof (Hcells _ _ (list_elem_of_here _ _)) as Hmc.
    split; [|split].
    + intros Hp. rewrite Hmc.
      rewrite (Hcells (polarity_col mc) (VInt (-1)))
        by (by apply list_elem_of_further, polarity_append_elem).
      split; intros [=].
    + rewrite Hmc. intros [=].
    + intros s rc Hs Hn Hr. congruence.
  - pose proof (Hcells _ _ (list_elem_of_here _ _)) as Hmc.
    split; [|split].
    + intros Hp. rewrite Hmc.
      rewrite (Hcells (polarity_col mc) (VInt 0))
        by (by apply list_elem_of_further, polarity_append_elem).
      done.
    + intros _ g Hg.
      destruct (group_sentinels_elem o _ g Hg) as (Hv & Hqv & Hac).
      assert (Hsub : forall x,
                x ∈ concat (group_sentinels o <$> match_groupnames matcher o) ->
                x ∈ (mc, VBool false) :: polarity_append mc o 0
                    ++ concat (group_sentinels o <$> match_groupnames matcher o)).
      { intros x Hx. apply list_elem_of_further, elem_of_app. by right. }
      split; [by apply Hcells, Hsub|].
      split; intros Hb; apply Hcells, Hsub; auto.
    + done.
Qed.

End MatchSeqsClaims.

(** ** alignSeqs *)

Lemma is_Err_raises {A} (r : result A) : is_Err r -> exists e, r = Err e.
Proof. destruct r; [done | eauto]. Qed.

Lemma is_Err_not_Ok {A} (r : result A) x : is_Err r -> r = Ok x -> False.
Proof. by intros Hr ->. Qed.

(** One step of a call that is shown to raise: the step raises, or the
    call goes on. *)
Ltac raise_or_go :=
  match goal with
  | |- exists e, raise _ = Err e => by eexists
  | |- exists e, Err _ = Err e => by eexists
  | |- exists e, (if ?b then _ else _) = Err e =>
      let E := fresh "E" in destruct b eqn:E
  | |- exists e, mbind _ ?x = Err e =>
      let E := fresh "E" in
      destruct x eqn:E; cbn [mbind result_bind]; [|by eexists]
  end.

(** The four trim counts of row [i]. *)
Definition trimmed_cell (df' : DataFrame) (aligned_col suffix : string)
    (i : nat) : option value :=
  cell df' (aligned_col +:+ "_n_trimmed_" +:+ suffix) i.

(** The sentinels of a row without an alignment. *)
Definition unaligned_cells (df' : DataFrame) (aligned_col : string)
    (o : align_options) (i : nat) : Prop :=
  cell df' aligned_col i = Some (VBool false)
  /\ (add_alignment o = true ->
      cell df' (aligned_col +:+ "_alignment") i = Some VNone)
  /\ (add_target o = true ->
      cell df' (aligned_col +:+ "_target") i = Some (VStr ""))
  /\ (add_cigar o = true ->
      cell df' (aligned_col +:+ "_cigar") i = Some (VStr ""))
  /\ (add_n_trimmed o = true ->
      forall suffix, suffix ∈ trimmed_suffixes ->
        trimmed_cell df' aligned_col suffix i = Some (VInt (-1)))
  /\ (add_n_additional o = true ->
      cell df' (aligned_col +:+ "_n_additional") i = Some (VInt (-1)))
  /\ (add_n_additional_difftarget o = true ->
      cell df' (aligned_col +:+ "_n_additional_difftarget") i
      = Some (VInt (-1)))
  /\ (is_Some (targetvariants o) ->
      cell df' (aligned_col +:+ "_target_variant") i = Some (VStr ""))
  /\ (is_Some (mutationcaller o) ->
      forall mut_type, mut_type ∈ mut_types ->
        cell df' (aligned_col +:+ "_" +:+ mut_type) i = Some (VList [])).

(** The trim counts of a row with the alignment [a]. *)
Definition trimmed_cells (df' : DataFrame) (aligned_col : string)
    (a : Alignment) (i : nat) : Prop :=
  trimmed_cell df' aligned_col "query_start" i = Some (VInt (q_st a))
  /\ trimmed_cell df' aligned_col "query_end" i
     = Some (VInt (q_len a - q_en a))
  /\ trimmed_cell df' aligned_col "target_start" i = Some (VInt (r_st a))
  /\ trimmed_cell df' aligned_col "target_end" i
     = Some (VInt (r_len a - r_en a)).

(** A trim count is 0 exactly when the alignment reaches that end. *)
Definition trimmed_zero_iff_end (df' : DataFrame) (aligned_col : string)
    (a : Alignment) (i : nat) : Prop :=
  (trimmed_cell df' aligned_col "query_start" i = Some (VInt 0)
   <-> q_st a = 0%Z)
  /\ (trimmed_cell df' aligned_col "query_end" i = Some (VInt 0)
      <-> q_en a = q_len a)
  /\ (trimmed_cell df' aligned_col "target_start" i = Some (VInt 0)
      <-> r_st a = 0%Z)
  /\ (trimmed_cell df' aligned_col "target_end" i = Some (VInt 0)
      <-> r_en a = r_len a).

Lemma alignment_appends_trimmed ac o a p :
  add_n_trimmed o = true ->
  p ∈ [(ac +:+ "_n_trimmed_" +:+ "query_start", VInt (q_st a));
       (ac +:+ "_n_trimmed_" +:+ "query_end", VInt (q_len a - q_en a));
       (ac +:+ "_n_trimmed_" +:+ "target_start", VInt (r_st a));
       (ac +:+ "_n_trimmed_" +:+ "target_end", VInt (r_len a - r_en a))] ->
  p ∈ alignment_appends ac o a.
Proof.
  intros Hb Hp. unfold alignment_appends. rewrite Hb, !elem_of_app.
  do 4 right. by left.
Qed.

Lemma VInt_zero_iff (x : Z) : Some (VInt x) = Some (VInt 0) <-> x = 0%Z.
Proof. split; [by intros [= ->] | by intros ->]. Qed.

(** C7. A row with an alignment reports as trim counts the query start,
    the query length minus the query end, the target start and the target
    length minus the target end of the alignment it reports, each 0
    exactly when the alignment reaches that end of the query or target; a
    row without an alignment holds -1 in the four trim counts and the
    sentinel of its type in every other requested column. *)
Theorem alignSeqs_trimmed df mapper qc ac o df' names queries map_dict i name :
  wf_df df ->
  alignSeqs df mapper qc ac o = Ok df' ->
  df_names df = Ok names ->
  align_queries df qc = Ok queries ->
  mapper_map mapper queries (paf_file o) = Ok map_dict ->
  names !! i = Some name ->
  match map_dict !! name with
  | Some a0 =>
      exists a,
        reported_alignment o a0 a
        /\ cell df' ac i = Some (VBool true)
        /\ (add_alignment o = true ->
            cell df' (ac +:+ "_alignment") i = Some (VAlignment a))
        /\ (add_n_trimmed o = true ->
            trimmed_cells df' ac a i /\ trimmed_zero_iff_end df' ac a i)
  | None => unaligned_cells df' ac o i
  end.
Proof.
  intros Hwf (qvals & names' & queries' & map_dict' & Hq & Hn & Hqs & Hm
              & Hrows)%alignSeqs_cells Hnames Hqueries Hmap Hi; [|done].
  rewrite Hnames in Hn. injection Hn as <-.
  rewrite Hqueries in Hqs. injection Hqs as <-.
  rewrite Hmap in Hm. injection Hm as <-.
  destruct (Hrows i name Hi) as (apps & Hrow & Hcells).
  unfold align_row in Hrow. destruct (map_dict !! name) as [a0|].
  - apply aligned_appends_inv in Hrow
      as (_ & a & variant & muts & diff & Ha & _ & _ & _ & ->).
    assert (Hin : forall p, p ∈ alignment_appends ac o a ->
              cell df' p.1 i = Some p.2).
    { intros [c v] Hp. apply Hcells. rewrite !elem_of_app. auto. }
    exists a. split; [done|].
    split; [apply (Hin (ac, VBool true)), list_elem_of_here|].
    split.
    + intros Hb. apply (Hin (_, _)). unfold alignment_appends.
      rewrite Hb, !elem_of_app. right; left. apply list_elem_of_here.
    + intros Hb.
      assert (Ht : trimmed_cells df' ac a i).
      { unfold trimmed_cells, trimmed_cell.
        repeat split; apply (Hin (_, _)), alignment_appends_trimmed;
          try done; repeat constructor. }
      split; [done|]. destruct Ht as (H1 & H2 & H3 & H4).
      unfold trimmed_zero_iff_end. rewrite H1, H2, H3, H4, !VInt_zero_iff.
      repeat split; lia.
  - injection Hrow as <-.
    assert (Hin : forall p, p ∈ unaligned_appends ac o ->
              cell df' p.1 i = Some p.2).
    { intros [c v] Hp. by apply Hcells. }
    unfold unaligned_cells, trimmed_cell.
    split; [apply (Hin (ac, VBool false)), list_elem_of_here|].
    unfold unaligned_appends in Hin.
    repeat split.
    + intros Hb. apply (Hin (_, _)). rewrite Hb, !elem_of_app.
      right; left. apply list_elem_of_here.
    + intros Hb. apply (Hin (_, _)). rewrite Hb, !elem_of_app.
      do 2 right; left. apply list_elem_of_here.
    + intros Hb. apply (Hin (_, _)). rewrite Hb, !elem_of_app.
      do 3 right; left. apply list_elem_of_here.
    + intros Hb suffix Hs. apply (Hin (_, _)). rewrite Hb, !elem_of_app.
      do 4 right; left. apply list_elem_of_fmap. by exists suffix.
    + intros Hb. apply (Hin (_, _)). rewrite Hb, !elem_of_app.
      do 5 right; left. apply list_elem_of_here.
    + intros Hb. apply (Hin (_, _)). rewrite Hb, !elem_of_app.
      do 6 right; left. apply list_elem_of_here.
    + intros Hb. apply (Hin (_, _)).
      rewrite (bool_decide_eq_true_2 _ Hb), !elem_of_app.
      do 7 right; left. apply list_elem_of_here.
    + intros Hb t Ht. apply (Hin (_, _)).
      rewrite (bool_decide_eq_true_2 _ Hb), !elem_of_app.
      do 8 right. apply list_elem_of_fmap. by exists t.
Qed.

(** C8. If the mapper returns for some row an alignment whose strand is
    not 1, [alignSeqs] raises: the call returns no table. *)
Theorem alignSeqs_reverse_strand df mapper qc ac o names queries map_dict
    i name a :
  df_names df = Ok names ->
  align_queries df qc = Ok queries ->
  mapper_map mapper queries (paf_file o) = Ok map_dict ->
  names !! i = Some name ->
  map_dict !! name = Some a ->
  strand a <> 1%Z ->
  exists e, alignSeqs df mapper qc ac o = Err e.
Proof.
  intros Hnames Hqueries Hmap Hi Ha Hs. unfold alignSeqs.
  rewrite Hnames, Hqueries. cbn [mbind result_bind]. rewrite Hmap.
  cbn [mbind result_bind].
  assert (Hloop : forall qvals d0,
    is_Err (for_each names
      (fun (d : gmap string (list value)) name =>
         apps ← align_row mapper ac o qvals map_dict name;
         Ok (foldl dict_append d apps)) d0)).
  { intros qvals d0. eapply for_each_raises; [by eapply list_elem_of_lookup_2|].
    intros d. unfold align_row, aligned_appends. rewrite Ha.
    by destruct (Z.eqb_spec (strand a) 1). }
  repeat raise_or_go; try by eexists.
  all: match goal with
       | E : for_each _ _ _ = Ok _ |- _ =>
           exfalso; exact (is_Err_not_Ok _ _ (Hloop _ _) E)
       end.
Qed.

(** ** Column collisions *)

Lemma collision_nonempty (newcols cols : list string) c :
  c ∈ newcols -> c ∈ cols ->
  bool_decide ((list_to_set newcols : gset string) ∩ list_to_set cols <> ∅)
  = true.
Proof.
  intros Hn Hc. apply bool_decide_eq_true_2. intros Hempty.
  assert (Hin : c ∈ (list_to_set newcols : gset string) ∩ list_to_set cols).
  { apply elem_of_intersection. by rewrite !elem_of_list_to_set. }
  rewrite Hempty in Hin. by apply not_elem_of_empty in Hin.
Qed.

Section CollisionClaims.

Context `{RegexLib}.
Variable NT_TO_REGEXP : gmap ascii string.
Variable reverseComplement : string -> result string.

(** C9, amended. When [matchSeqs] is given a pattern, or [alignSeqs] is
    called, and a requested column is already in the data frame, the
    call raises unless overwriting is allowed, and returns no table;
    when overwriting is allowed and the call returns, the column occurs
    once in the result and holds in each row the value that row
    appended. *)
Theorem collision_raises_or_replaces :
  (forall df pat ctm mc o c,
      overwrite o = false ->
      c ∈ column_names df ->
      (forall matcher,
          compiled_pattern NT_TO_REGEXP o pat = Ok matcher ->
          c ∈ match_keys mc o (match_groupnames matcher o)) ->
      exists e,
        matchSeqs NT_TO_REGEXP reverseComplement df (Some pat) ctm mc o
        = Err e)
  /\ (forall df mapper qc ac o c,
        align_overwrite o = false ->
        c ∈ column_names df ->
        c ∈ align_newcols ac o ->
        exists e, alignSeqs df mapper qc ac o = Err e)
  /\ (forall df pat ctm mc o df' matcher c,
        overwrite o = true ->
        matchSeqs NT_TO_REGEXP reverseComplement df (Some pat) ctm mc o
        = Ok df' ->
        compiled_pattern NT_TO_REGEXP o pat = Ok matcher ->
        c ∈ match_keys mc o (match_groupnames matcher o) ->
        filter (fun k => k = c) (column_names df') = [c]
        /\ forall i, i < length (index df) ->
             exists apps,
               match_row reverseComplement df matcher ctm mc o
                 (match_groupnames matcher o) i = Ok apps
               /\ forall v, (c, v) ∈ apps -> cell df' c i = Some v)
  /\ (forall df mapper qc ac o df' names queries map_dict c,
        align_overwrite o = true ->
        wf_df df ->
        alignSeqs df mapper qc ac o = Ok df' ->
        df_names df = Ok names ->
        align_queries df qc = Ok queries ->
        mapper_map mapper queries (paf_file o) = Ok map_dict ->
        c ∈ align_newcols ac o ->
        filter (fun k => k = c) (column_names df') = [c]
        /\ forall i name, names !! i = Some name ->
             exists qvals apps,
               align_row mapper ac o qvals map_dict name = Ok apps
               /\ forall v, (c, v) ∈ apps -> cell df' c i = Some v).
Proof.
  split; [|split; [|split]].
  - intros df pat ctm mc o c Ho Hc Hreq. unfold matchSeqs.
    destruct (negb _); [by eexists|].
    unfold compiled_pattern in Hreq.
    destruct (regex_compile _) as [matcher|] eqn:Hm; [|by eexists].
    cbn [mbind result_bind].
    destruct (match_newcols _ _ _ _ _) as [[newcols gn]|] eqn:Hn;
      [|by eexists].
    cbn [mbind result_bind].
    apply match_newcols_Ok in Hn as [-> ->].
    rewrite Ho, (collision_nonempty _ _ c) by auto. by eexists.
  - intros df mapper qc ac o c Ho Hc Hreq. unfold alignSeqs.
    rewrite Ho, (collision_nonempty _ _ c) by auto. cbn [negb andb].
    repeat raise_or_go; by eexists.
  - intros df pat ctm mc o df' matcher c Ho Hok Hm Hreq.
    unfold compiled_pattern in Hm. split.
    + apply matchSeqs_inv in Hok as (matcher' & d & Hc & Hloop & Hcat).
      rewrite Hc in Hm. injection Hm as ->.
      by eapply concat_columns_names.
    + intros i Hi.
      apply matchSeqs_cells in Hok as (matcher' & Hc & _ & Hrows).
      rewrite Hc in Hm. injection Hm as ->.
      destruct (Hrows i Hi) as (apps & Hrow & Hcells). eauto.
  - intros df mapper qc ac o df' names queries map_dict c Ho Hwf Hok
      Hnames Hqueries Hmap Hreq. split.
    + apply alignSeqs_inv in Hok
        as (qvals & names' & queries' & map_dict' & d
            & _ & _ & _ & _ & _ & Hcat).
      by eapply concat_columns_names.
    + intros i name Hi.
      apply alignSeqs_cells in Hok
        as (qvals & names' & queries' & map_dict' & Hq & Hn & Hqs & Hm
            & Hrows); [|done].
      rewrite Hnames in Hn. injection Hn as <-.
      rewrite Hqueries in Hqs. injection Hqs as <-.
      rewrite Hmap in Hm. injection Hm as <-.
      destruct (Hrows i name Hi) as (apps & Hrow & Hcells). eauto.
Qed.

End CollisionClaims.

(** ** The scenarios of the documentation *)

(** [termini5 + '(?P<barcode>N{3})' + '(?P<read>N+)' + termini3] of the
    class documentation. *)
Definition barcode_pattern : string := "ACG(?P<barcode>N{3})(?P<read>N+)CTT".

(** C2. Under the table of IUPAC codes and the engine above, [matchSeqs]
    with the pattern [ACG(?P<barcode>N{3})(?P<read>N+)CTT] reports a row
    whose sequence is [ACGTTCACGCTT] as matched with polarity 1, group
    [barcode] holding [TTC] and group [read] holding [ACG]. *)
Theorem matchSeqs_barcode_scenario rc df ctm mc o df' i :
  matchSeqs IUPAC_NT_TO_REGEXP rc df (Some barcode_pattern) ctm mc o = Ok df' ->
  expandIUPAC o = true ->
  i < length (index df) ->
  cell df ctm i = Some (VStr "ACGTTCACGCTT") ->
  cell df' mc i = Some (VBool true)
  /\ (add_polarity o = true -> cell df' (polarity_col mc) i = Some (VInt 1))
  /\ (add_group_cols o = true ->
      cell df' "barcode" i = Some (VStr "TTC")
      /\ cell df' "read" i = Some (VStr "ACG")).
Proof.
  intros Hok He Hi Hs.
  edestruct (matchSeqs_forward IUPAC_NT_TO_REGEXP rc df barcode_pattern ctm mc o)
    as (Hm & Hp & Hg); try eassumption.
  - unfold compiled_pattern. rewrite He. vm_compute. reflexivity.
  - vm_compute. reflexivity.
  - split; [done|]. split; [done|]. intros Hgc.
    split; apply (Hg Hgc); vm_compute; repeat constructor.
Qed.

Lemma matchSeqs_barcode_scenario_witness :
  exists df',
    matchSeqs IUPAC_NT_TO_REGEXP reverseComplement ccs_df
      (Some barcode_pattern) "CCS" "barcoded" match_defaults = Ok df'
    /\ cell df' "barcoded" 0 = Some (VBool true)
    /\ cell df' "barcoded_polarity" 0 = Some (VInt 1)
    /\ cell df' "barcode" 0 = Some (VStr "TTC")
    /\ cell df' "read" 0 = Some (VStr "ACG").
Proof.
  eexists. split; [vm_compute; reflexivity|].
  edestruct (matchSeqs_barcode_scenario reverseComplement ccs_df "CCS"
               "barcoded" match_defaults) with (i := 0) as (Hm & Hp & Hg).
  - vm_compute; reflexivity.
  - reflexivity.
  - vm_compute; lia.
  - reflexivity.
  - destruct (Hg eq_refl) as [Hb Hr].
    split; [exact Hm|]. split; [exact (Hp eq_refl)|]. by split.
Defined.

Lemma matchSeqs_reverse_complement_witness :
  exists df' matcher,
    matchSeqs IUPAC_NT_TO_REGEXP reverseComplement ccs_df
      (Some barcode_pattern) "CCS" "barcoded" match_defaults = Ok df'
    /\ compiled_pattern IUPAC_NT_TO_REGEXP match_defaults barcode_pattern
       = Ok matcher
    /\ cell df' "barcoded" 1 = Some (VBool true)
    /\ cell df' "barcoded_polarity" 1 = Some (VInt (-1))
    /\ cell df' "barcode" 1 = Some (VStr "AGA")
    /\ cell df' "barcode_qvals" 1 = Some (VArray [20; 30; 24]%Z).
Proof.
  eexists _, _. split; [vm_compute; reflexivity|].
  split; [vm_compute; reflexivity|].
  edestruct (matchSeqs_reverse_complement IUPAC_NT_TO_REGEXP reverseComplement
               ccs_df barcode_pattern "CCS" "barcoded" match_defaults)
    with (i := 1) (s := "TAAGTGCTCTCGTA")
    as (rc & Hrc & Hcells).
  - vm_compute; reflexivity.
  - vm_compute; reflexivity.
  - vm_compute; lia.
  - reflexivity.
  - vm_compute; reflexivity.
  - injection Hrc as <-.
    edestruct Hcells as (Hm & Hp & Hg); [vm_compute; reflexivity|].
    split; [exact Hm|]. split; [exact (Hp eq_refl)|].
    destruct (Hg eq_refl "barcode") as [Hb Hq].
    { vm_compute. repeat constructor. }
    split; [exact Hb|].
    destruct (Hq _ eq_refl) as [Hqv _]. exact (Hqv eq_refl).
Defined.

Lemma matchSeqs_unmatched_sentinels_witness :
  exists df',
    matchSeqs IUPAC_NT_TO_REGEXP reverseComplement ccs_df
      (Some barcode_pattern) "CCS" "barcoded" match_defaults = Ok df'
    /\ cell df' "barcoded" 2 = Some (VBool false)
    /\ cell df' "barcoded_polarity" 2 = Some (VInt 0)
    /\ group_sentinel_cells df' match_defaults "barcode" 2.
Proof.
  eexists. split; [vm_compute; reflexivity|].
  edestruct (matchSeqs_unmatched_sentinels IUPAC_NT_TO_REGEXP reverseComplement
               ccs_df barcode_pattern "CCS" "barcoded" match_defaults)
    with (i := 2) as (Hp & Hg & Hn).
  - vm_compute; reflexivity.
  - vm_compute; reflexivity.
  - vm_compute; lia.
  - epose proof (Hn "GGGCATGCACTT" "AAGTGCATGCCC" eq_refl _ _ _) as Hf.
    split; [exact Hf|]. split; [exact (proj2 (Hp eq_refl) Hf)|].
    apply (Hg Hf). vm_compute. repeat constructor.
    Unshelve. all: vm_compute; reflexivity.
Defined.

(** A pattern whose only group can match the empty string, with neither
    accuracy nor quality columns requested. *)
Definition tail_df : DataFrame :=
  {| index_name := None; index := [0%Z]; columns := [("CCS", [VStr "AG"])] |}.

Definition tail_options : match_options :=
  {| add_polarity := true; add_group_cols := true; add_accuracy := false;
     add_qvals := false; expandIUPAC := true; overwrite := false |}.

Definition tail_pattern : string := "A(?P<tail>C{0,})".

(** C3, as stated, fails: the row [AG] matches [tail_pattern] with an
    empty group, so that it is reported matched while its only requested
    group column holds the sentinel. *)
Lemma row_invariant_counterexample :
  ~ (forall df pat ctm mc o df' matcher i,
        matchSeqs IUPAC_NT_TO_REGEXP reverseComplement df (Some pat) ctm mc o
        = Ok df' ->
        compiled_pattern IUPAC_NT_TO_REGEXP o pat = Ok matcher ->
        i < length (index df) ->
        row_invariant df' mc o (match_groupnames matcher o) i).
Proof.
  intros Hinv.
  edestruct (Hinv tail_df tail_pattern "CCS" "matched" tail_options)
    with (i := 0) as [_ [_ Hrev]].
  - vm_compute; reflexivity.
  - vm_compute; reflexivity.
  - vm_compute; lia.
  - unshelve epose proof (Hrev _) as Hf.
    { intros g Hg. vm_compute in Hg.
      apply list_elem_of_singleton in Hg as ->.
      split; [vm_compute; reflexivity|]. split; intros [=]. }
    vm_compute in Hf. discriminate Hf.
Qed.

(** C9, as stated, fails for [matchSeqs]: with [match_str = None] the
    call returns although the requested column exists and may not be
    overwritten. *)
Lemma collision_None_counterexample :
  ~ (forall df match_str ctm mc o,
        overwrite o = false ->
        mc ∈ column_names df ->
        exists e,
          matchSeqs IUPAC_NT_TO_REGEXP reverseComplement df match_str ctm mc o
          = Err e).
Proof.
  intros Hraise.
  destruct (Hraise ccs_df None "CCS" "name" match_defaults) as [e He].
  - reflexivity.
  - vm_compute. repeat constructor.
  - discriminate He.
Qed.

(** ** A small alignment scenario *)

Definition gene_alignment : Alignment :=
  {| target := "geneA"; strand := 1; q_st := 0; q_en := 4; q_len := 4;
     r_st := 2; r_en := 6; r_len := 10; cigar_str := "=ACGT";
     additional := [] |}.

Definition minus_alignment : Alignment :=
  {| target := "geneA"; strand := -1; q_st := 0; q_en := 4; q_len := 4;
     r_st := 2; r_en := 6; r_len := 10; cigar_str := "=ACGT";
     additional := [] |}.

(** A mapper that aligns the query named [read1], to [a]. *)
Definition read1_mapper (a : Alignment) : Mapper :=
  {| mapper_map := fun queries _ =>
       Ok (list_to_map
             ((fun q => (q.1, a))
                <$> filter (fun q => q.1 = "read1") queries));
     target_isoforms := {[ "geneA" := ({[ "geneA" ]} : gset string) ]} |}.

Definition gene_df : DataFrame :=
  {| index_name := None;
     index := [0; 1]%Z;
     columns := [("name", [VStr "read1"; VStr "read2"]);
                 ("gene", [VStr "ACGT"; VStr ""])] |}.

Definition read1_map_dict : gmap string Alignment :=
  list_to_map [("read1", gene_alignment)].

Lemma alignSeqs_trimmed_witness :
  exists df',
    alignSeqs gene_df (read1_mapper gene_alignment) "gene" "gene_aligned"
      align_defaults = Ok df'
    /\ (exists a,
          reported_alignment align_defaults gene_alignment a
          /\ cell df' "gene_aligned" 0 = Some (VBool true)
          /\ (add_alignment align_defaults = true ->
              cell df' "gene_aligned_alignment" 0 = Some (VAlignment a))
          /\ (add_n_trimmed align_defaults = true ->
              trimmed_cells df' "gene_aligned" a 0
              /\ trimmed_zero_iff_end df' "gene_aligned" a 0))
    /\ unaligned_cells df' "gene_aligned" align_defaults 1.
Proof.
  assert (Hwf : wf_df gene_df)
    by (apply (bool_decide_unpack _); vm_compute; reflexivity).
  assert (Hn : df_names gene_df = Ok ["read1"; "read2"]) by reflexivity.
  assert (Hq : align_queries gene_df "gene" = Ok [("read1", "ACGT")])
    by (vm_compute; reflexivity).
  assert (Hm : mapper_map (read1_mapper gene_alignment) [("read1", "ACGT")]
                 (paf_file align_defaults) = Ok read1_map_dict)
    by (vm_compute; reflexivity).
  assert (H1 : read1_map_dict !! "read1" = Some gene_alignment)
    by (vm_compute; reflexivity).
  assert (H2 : read1_map_dict !! "read2" = None) by (vm_compute; reflexivity).
  destruct (alignSeqs gene_df (read1_mapper gene_alignment) "gene"
              "gene_aligned" align_defaults) as [df'|] eqn:Hok;
    [|vm_compute in Hok; discriminate Hok].
  exists df'. split; [done|]. split.
  - pose proof (alignSeqs_trimmed _ _ _ _ _ _ _ _ _ 0 "read1"
                  Hwf Hok Hn Hq Hm eq_refl) as Ht.
    rewrite H1 in Ht. exact Ht.
  - pose proof (alignSeqs_trimmed _ _ _ _ _ _ _ _ _ 1 "read2"
                  Hwf Hok Hn Hq Hm eq_refl) as Ht.
    rewrite H2 in Ht. exact Ht.
Defined.

Lemma alignSeqs_reverse_strand_witness :
  strand minus_alignment <> 1%Z
  /\ exists e,
      alignSeqs gene_df (read1_mapper minus_alignment) "gene" "gene_aligned"
        align_defaults = Err e.
Proof.
  split; [done|].
  eapply (alignSeqs_reverse_strand gene_df (read1_mapper minus_alignment)
            "gene" "gene_aligned" align_defaults _ _ _ 0 "read1"
            minus_alignment).
  - vm_compute; reflexivity.
  - vm_compute; reflexivity.
  - vm_compute; reflexivity.
  - reflexivity.
  - vm_compute; reflexivity.
  - done.
Defined.

(** The data frame of the class documentation once more, now with the
    columns of a first call in it. *)
Definition no_overwrite : align_options :=
  {| add_alignment := true; add_target := true; add_cigar := true;
     add_n_trimmed := true; add_n_additional := true;
     add_n_additional_difftarget := true; targetvariants := None;
     mutationcaller := None; align_overwrite := false; paf_file := None |}.

Definition with_overwrite : match_options :=
  {| add_polarity := true; add_group_cols := true; add_accuracy := false;
     add_qvals := false; expandIUPAC := true; overwrite := true |}.

Lemma collision_raises_or_replaces_witness :
  (exists e,
      matchSeqs IUPAC_NT_TO_REGEXP reverseComplement ccs_df
        (Some barcode_pattern) "CCS" "name" match_defaults = Err e)
  /\ (exists e,
        alignSeqs gene_df (read1_mapper gene_alignment) "gene" "name"
          no_overwrite = Err e)
  /\ (exists df',
        matchSeqs IUPAC_NT_TO_REGEXP reverseComplement ccs_df
          (Some barcode_pattern) "CCS" "name" with_overwrite = Ok df'
        /\ filter (fun k => k = "name") (column_names df') = ["name"]
        /\ cell df' "name" 0 = Some (VBool true))
  /\ (exists df',
        alignSeqs gene_df (read1_mapper gene_alignment) "gene" "gene"
          align_defaults = Ok df'
        /\ filter (fun k => k = "gene") (column_names df') = ["gene"]
        /\ cell df' "gene" 0 = Some (VBool true)).
Proof.
  destruct (collision_raises_or_replaces IUPAC_NT_TO_REGEXP reverseComplement)
    as (Hm & Ha & Hmo & Hao).
  split; [|split; [|split]].
  - apply (Hm ccs_df barcode_pattern "CCS" "name" match_defaults "name").
    + reflexivity.
    + vm_compute. repeat constructor.
    + intros matcher _. apply list_elem_of_here.
  - apply (Ha gene_df (read1_mapper gene_alignment) "gene" "name"
             no_overwrite "name").
    + reflexivity.
    + vm_compute. repeat constructor.
    + apply list_elem_of_here.
  - eexists. split; [vm_compute; reflexivity|].
    edestruct (Hmo ccs_df barcode_pattern "CCS" "name" with_overwrite)
      with (c := "name") as [Hone Hcells].
    + reflexivity.
    + vm_compute; reflexivity.
    + vm_compute; reflexivity.
    + apply list_elem_of_here.
    + split; [exact Hone|].
      destruct (Hcells 0) as (apps & Happs & Hcell); [vm_compute; lia|].
      vm_compute in Happs. injection Happs as <-.
      apply Hcell, list_elem_of_here.
  - eexists. split; [vm_compute; reflexivity|].
    edestruct (Hao gene_df (read1_mapper gene_alignment) "gene" "gene"
                 align_defaults) with (c := "gene") as [Hone Hcells].
    + reflexivity.
    + apply (bool_decide_unpack _). vm_compute. reflexivity.
    + vm_compute; reflexivity.
    + vm_compute; reflexivity.
    + vm_compute; reflexivity.
    + vm_compute; reflexivity.
    + apply list_elem_of_here.
    + split; [exact Hone|].
      destruct (Hcells 0 "read1" eq_refl) as (qvals & apps & Happs & Hcell).
      vm_compute in Happs. injection Happs as <-.
      apply Hcell, list_elem_of_here.
Defined.

(** ** re_expandIUPAC *)

(** C6. [re_expandIUPAC] reads the pattern from the left as group-name
    markers [(?P<name>] and single characters outside them; it copies each
    marker, replaces each outside character that is a key of
    [NT_TO_REGEXP] by its expansion and copies every other character.
    When no expansion is empty or uses a character of the marker syntax,
    the group-name pattern finds the same markers in the result as in the
    pattern, and every character the table does not mention (parentheses,
    quantifiers, digits) is kept, in order. *)
Theorem re_expandIUPAC_keeps_markers NT_TO_REGEXP (re_str : string) :
  safe_table NT_TO_REGEXP ->
  let l := list_ascii_of_string re_str in
  let new := list_ascii_of_string (re_expandIUPAC NT_TO_REGEXP re_str) in
  (exists gs, Segments l gs) /\
  (forall gs, Segments l gs -> new = concat (render NT_TO_REGEXP <$> gs)) /\
  groupname_matches new = groupname_matches l /\
  filter (fun c => ~ is_code NT_TO_REGEXP c) new
  = filter (fun c => ~ is_code NT_TO_REGEXP c) l.
Proof.
  intros Hsafe l new. subst new.
  rewrite re_expandIUPAC_segments. fold l. fold (expansion NT_TO_REGEXP l).
  split; [exists (segments l); apply segments_Segments|].
  split; [by intros gs ->%Segments_unique|].
  split.
  - rewrite !groupname_matches_segments. by apply markers_kept.
  - apply filter_render.
Qed.

Lemma re_expandIUPAC_keeps_markers_witness :
  let re_str := "^(?P<termini5>ATG)(?P<cDNA>N+)A+(?P<barcode>N{4})$" in
  let l := list_ascii_of_string re_str in
  let new := list_ascii_of_string (re_expandIUPAC IUPAC_NT_TO_REGEXP re_str) in
  (exists gs, Segments l gs) /\
  (forall gs, Segments l gs -> new = concat (render IUPAC_NT_TO_REGEXP <$> gs)) /\
  groupname_matches new = groupname_matches l /\
  filter (fun c => ~ is_code IUPAC_NT_TO_REGEXP c) new
  = filter (fun c => ~ is_code IUPAC_NT_TO_REGEXP c) l.
Proof.
  apply (re_expandIUPAC_keeps_markers IUPAC_NT_TO_REGEXP).
  apply (bool_decide_unpack _). vm_compute. reflexivity.
Defined.

(** * Further properties *)

(** ** The accuracy of Q-values *)


Lemma correctness_probability_mono (Q1 Q2 : Z) :
  (Q1 <= Q2)%Z ->
  (correctness_probability Q1 <= correctness_probability Q2)%R.
Proof.
  intros Hle%IZR_le. unfold correctness_probability.
  assert (Rpower 10 (- IZR Q2 / 10) <= Rpower 10 (- IZR Q1 / 10))%R;
    [|lra].
  apply Rle_Rpower; lra.
Qed.


Lemma Rsum_app (l k : list R) : Rsum (l ++ k) = (Rsum l + Rsum k)%R.
Proof.
  induction l as [|x l IH]; simpl; [lra|]. rewrite IH. lra.
Qed.



Lemma Rsum_mono (l k : list R) :
  Forall2 Rle l k -> (Rsum l <= Rsum k)%R.
Proof.
  induction 1 as [|x y l k Hxy _ IH]; simpl; [lra|].
  fold (Rsum l) (Rsum k). lra.
Qed.

Lemma INR_length_pos {A} (l : list A) : l <> [] -> (0 < INR (length l))%R.
Proof.
  intros Hne. destruct l; [done|]. apply lt_0_INR. simpl. lia.
Qed.



Lemma qvalsToAccuracy_array (a : list Z) :
  a <> [] ->
  qvalsToAccuracy (QArray a) "numbers"
  = Ok (Fin (arithmetic_mean (correctness_probability <$> a))).
Proof.
  intros Hne. destruct a as [|q qs]; [done|].
  unfold qvalsToAccuracy. cbn -[mean_accuracy].
  by rewrite mean_accuracy_spec.
Qed.




(** Raising Q-values never lowers the accuracy. *)
Theorem qvalsToAccuracy_monotone (a b : list Z) :
  a <> [] -> Forall2 Z.le a b ->
  exists ra rb,
    qvalsToAccuracy (QArray a) "numbers" = Ok (Fin ra)
    /\ qvalsToAccuracy (QArray b) "numbers" = Ok (Fin rb)
    /\ (ra <= rb)%R.
Proof.
  intros Hne Hab.
  assert (Hb : b <> []) by (destruct Hab; done).
  rewrite (qvalsToAccuracy_array a Hne), (qvalsToAccuracy_array b Hb).
  do 2 eexists. split; [done|]. split; [done|].
  unfold arithmetic_mean. rewrite !length_fmap, <- (Forall2_length _ _ _ Hab).
  apply Rmult_le_compat_r.
  - left. apply Rinv_0_lt_compat. by apply INR_length_pos.
  - apply Rsum_mono. apply Forall2_fmap.
    eapply Forall2_impl; [exact Hab|]. intros x y.
    apply correctness_probability_mono.
Qed.

Lemma qvalsToAccuracy_monotone_witness :
  exists ra rb,
    qvalsToAccuracy (QArray [20; 30]%Z) "numbers" = Ok (Fin ra)
    /\ qvalsToAccuracy (QArray [30; 30]%Z) "numbers" = Ok (Fin rb)
    /\ (ra <= rb)%R.
Proof.
  apply (qvalsToAccuracy_monotone [20; 30]%Z [30; 30]%Z); [done|].
  repeat constructor; lia.
Defined.

(** The accuracy of two arrays joined is the mean of their accuracies
    weighted by their lengths. *)
Theorem qvalsToAccuracy_app (a b : list Z) :
  a <> [] -> b <> [] ->
  exists ra rb,
    qvalsToAccuracy (QArray a) "numbers" = Ok (Fin ra)
    /\ qvalsToAccuracy (QArray b) "numbers" = Ok (Fin rb)
    /\ qvalsToAccuracy (QArray (a ++ b)) "numbers"
       = Ok (Fin ((ra * INR (length a) + rb * INR (length b))
                  / INR (length a + length b))).
Proof.
  intros Ha Hb.
  assert (Hab : a ++ b <> []) by (by destruct a).
  rewrite (qvalsToAccuracy_array a Ha), (qvalsToAccuracy_array b Hb),
    (qvalsToAccuracy_array _ Hab).
  do 2 eexists. split; [done|]. split; [done|]. do 2 f_equal.
  unfold arithmetic_mean. rewrite fmap_app, Rsum_app, length_app, !length_fmap.
  pose proof (INR_length_pos a Ha). pose proof (INR_length_pos b Hb).
  rewrite plus_INR. field. repeat split; lra.
Qed.

Lemma qvalsToAccuracy_app_witness :
  exists ra rb,
    qvalsToAccuracy (QArray [13]%Z) "numbers" = Ok (Fin ra)
    /\ qvalsToAccuracy (QArray [77; 93]%Z) "numbers" = Ok (Fin rb)
    /\ qvalsToAccuracy (QArray ([13] ++ [77; 93])%Z) "numbers"
       = Ok (Fin ((ra * INR (length [13%Z]) + rb * INR (length [77; 93]%Z))
                  / INR (length [13%Z] + length [77; 93]%Z))).
Proof. apply (qvalsToAccuracy_app [13]%Z [77; 93]%Z); done. Defined.

(** With an encoding other than "numbers", a single number has no
    length and raises [TypeError], whatever the encoding.  An encoding
    that is neither "numbers" nor "sanger" raises [RuntimeError] on a
    non-empty array, list or string; "sanger" raises [TypeError] on a
    non-empty array or list, and "numbers" on a non-empty string. *)
Theorem qvalsToAccuracy_errors (encoding : string) (q : Z) (a : list Z)
    (s : string) :
  encoding <> "numbers" -> a <> [] -> s <> "" ->
  qvalsToAccuracy (QNumber q) encoding = Err TypeError
  /\ qvalsToAccuracy (QArray a) encoding
     = Err (if String.eqb encoding "sanger" then TypeError else RuntimeError)
  /\ qvalsToAccuracy (QList a) encoding
     = Err (if String.eqb encoding "sanger" then TypeError else RuntimeError)
  /\ (encoding <> "sanger" ->
      qvalsToAccuracy (QStr s) encoding = Err RuntimeError)
  /\ qvalsToAccuracy (QStr s) "numbers" = Err TypeError.
Proof.
  intros Hn Ha Hs. unfold qvalsToAccuracy.
  apply String.eqb_neq in Hn. rewrite Hn.
  destruct a as [|x a]; [done|]. destruct s as [|c s]; [done|].
  cbn. destruct (String.eqb encoding "sanger") eqn:Hsa; cbn.
  - repeat split; try done. intros Hne. by apply String.eqb_eq in Hsa.
  - done.
Qed.

Lemma qvalsToAccuracy_errors_witness :
  qvalsToAccuracy (QNumber 15) "phred" = Err TypeError
  /\ qvalsToAccuracy (QArray [13]%Z) "phred"
     = Err (if String.eqb "phred" "sanger" then TypeError else RuntimeError)
  /\ qvalsToAccuracy (QList [13]%Z) "phred"
     = Err (if String.eqb "phred" "sanger" then TypeError else RuntimeError)
  /\ ("phred" <> "sanger" ->
      qvalsToAccuracy (QStr "?") "phred" = Err RuntimeError)
  /\ qvalsToAccuracy (QStr "?") "numbers" = Err TypeError.
Proof. apply (qvalsToAccuracy_errors "phred" 15 [13]%Z "?"); done. Defined.

(** ** Expansion of nucleotide codes *)

Lemma list_ascii_of_string_app (a b : string) :
  list_ascii_of_string (a +:+ b)
  = list_ascii_of_string a ++ list_ascii_of_string b.
Proof.
  induction a as [|c a IH]; [done|]. exact (f_equal (cons c) IH).
Qed.

Lemma string_of_list_ascii_app (a b : list ascii) :
  string_of_list_ascii (a ++ b)
  = string_of_list_ascii a +:+ string_of_list_ascii b.
Proof.
  induction a as [|c a IH]; [done|]. exact (f_equal (String c) IH).
Qed.

Lemma append_empty_r (a : string) : a +:+ "" = a.
Proof.
  induction a as [|c a IH]; [done|]. exact (f_equal (String c) IH).
Qed.

Lemma re_expandIUPAC_expansion NT (re_str : string) :
  re_expandIUPAC NT re_str
  = string_of_list_ascii (expansion NT (list_ascii_of_string re_str)).
Proof.
  unfold expansion. rewrite <- re_expandIUPAC_segments.
  by rewrite string_of_list_ascii_of_string.
Qed.

(** Every [(?P<] of the pattern is followed by a [>]: no group name is
    left open at the end of the pattern. *)
Definition names_closed (s : list ascii) : Prop :=
  forall a b, s = a ++ marker_open ++ b -> ">"%char ∈ b.

(** No [(?P<] of the pattern is followed by a [>]: the pattern names no
    group. *)
Definition no_names (s : list ascii) : Prop :=
  forall a b, s = a ++ marker_open ++ b -> ">"%char ∉ b.

(** What [re_expandIUPAC] puts for a character outside the group names. *)
Definition expand_code (NT_TO_REGEXP : gmap ascii string) (c : ascii)
  : string :=
  default (String c EmptyString) (NT_TO_REGEXP !! c).

Lemma marker_len_prefix t b :
  ">"%char ∈ b -> is_Some (marker_len (marker_open ++ b ++ t)).
Proof.
  intros (a1 & b1 & -> & Ha)%elem_of_split_first.
  exists (5 + length a1). apply marker_len_spec.
  exists a1, (b1 ++ t). by rewrite <- app_assoc.
Qed.

Lemma segments_no_names s :
  no_names s -> segments s = Outside <$> s.
Proof.
  induction s as [|c t IH]; [done|]. intros Hno.
  rewrite segments_outside, IH; [done| |].
  - intros a b ->. apply (Hno (c :: a) b eq_refl).
  - destruct (marker_len (c :: t)) as [n|] eqn:Hm; [|done].
    apply marker_len_spec in Hm as (name & u & Heq & _ & _).
    destruct (Hno [] (name ++ ">"%char :: u) Heq).
    apply elem_of_app. right. apply list_elem_of_here.
Qed.

Lemma render_outside NT c :
  string_of_list_ascii (render NT (Outside c)) = expand_code NT c.
Proof.
  unfold render, expand_code. destruct (NT !! c) as [v|]; cbn; [|done].
  apply string_of_list_ascii_of_string.
Qed.

Lemma concat_expand_codes NT (l : list ascii) :
  string_of_list_ascii (concat (render NT <$> (Outside <$> l)))
  = String.concat "" (expand_code NT <$> l).
Proof.
  induction l as [|c l IH]; [done|].
  cbn [fmap list_fmap concat]. rewrite string_of_list_ascii_app.
  fold (fmap (M := list) Outside l).
  fold (fmap (M := list) (render NT) (Outside <$> l)).
  rewrite IH, render_outside.
  destruct l as [|d l]; [apply append_empty_r | done].
Qed.

(** In a pattern that names no group, every character the table has an
    entry for is replaced by its entry and every other character is
    kept. *)
Theorem re_expandIUPAC_plain NT (re_str : string) :
  no_names (list_ascii_of_string re_str) ->
  re_expandIUPAC NT re_str
  = String.concat "" (expand_code NT <$> list_ascii_of_string re_str).
Proof.
  intros Hno. rewrite re_expandIUPAC_expansion. unfold expansion.
  rewrite (segments_no_names _ Hno). apply concat_expand_codes.
Qed.

Lemma no_names_no_paren s : "("%char ∉ s -> no_names s.
Proof.
  intros Hp a b ->. destruct Hp.
  apply elem_of_app. right. apply list_elem_of_here.
Qed.

Lemma re_expandIUPAC_plain_witness :
  no_names (list_ascii_of_string "ATG|CTN")
  /\ re_expandIUPAC IUPAC_NT_TO_REGEXP "ATG|CTN"
     = String.concat ""
         (expand_code IUPAC_NT_TO_REGEXP <$> list_ascii_of_string "ATG|CTN").
Proof.
  assert (Hno : no_names (list_ascii_of_string "ATG|CTN")).
  { apply no_names_no_paren. apply (bool_decide_unpack _).
    vm_compute. reflexivity. }
  split; [exact Hno|].
  apply (re_expandIUPAC_plain IUPAC_NT_TO_REGEXP "ATG|CTN" Hno).
Defined.

(** *** Expanding twice *)

(** The characters of every expansion are left alone by the table: it
    has no entry for them, or the entry is the character itself. *)
Definition stable_table (NT_TO_REGEXP : gmap ascii string) : Prop :=
  map_Forall (fun _ v =>
    Forall (fun c => NT_TO_REGEXP !! c = None
                     \/ NT_TO_REGEXP !! c = Some (String c EmptyString))
      (list_ascii_of_string v))
    NT_TO_REGEXP.

#[global] Instance stable_table_dec NT : Decision (stable_table NT).
Proof. unfold stable_table. apply _. Defined.

Section ExpandTwice.

Variable NT_TO_REGEXP : gmap ascii string.
Hypothesis Hsafe : safe_table NT_TO_REGEXP.
Hypothesis Hstable : stable_table NT_TO_REGEXP.

Local Abbreviation out := (expansion NT_TO_REGEXP).

Lemma expansion_marker s n :
  marker_len s = Some n -> out s = take n s ++ out (drop n s).
Proof. intros Hm. unfold expansion. by rewrite (segments_marker _ _ Hm). Qed.

Lemma expansion_outside c t :
  marker_len (c :: t) = None ->
  out (c :: t) = render NT_TO_REGEXP (Outside c) ++ out t.
Proof. intros Hm. unfold expansion. by rewrite (segments_outside _ _ Hm). Qed.

Lemma expansion_stable_value v t :
  Forall (fun c => (c ∉ marker_open) /\ c <> ">"%char) v ->
  Forall (fun c => NT_TO_REGEXP !! c = None
                   \/ NT_TO_REGEXP !! c = Some (String c EmptyString)) v ->
  out (v ++ t) = v ++ out t.
Proof.
  intros Hs Hst. unfold expansion. rewrite segments_app_plain.
  - rewrite fmap_app, concat_app. f_equal.
    clear Hs. induction Hst as [|c v Hc _ IH]; [done|].
    cbn [fmap list_fmap concat]. rewrite IH.
    unfold render. by destruct Hc as [->| ->].
  - eapply Forall_impl; [exact Hs|]. intros x [Hx _] ->. apply Hx.
    unfold marker_open. simpl. constructor.
Qed.

Lemma expansion_idempotent s : out (out s) = out s.
Proof.
  induction s as [|s n Hm IH|c t Hm IH] using segments_ind.
  - done.
  - rewrite (expansion_marker _ _ Hm).
    destruct (marker_len_is_marker _ _ Hm) as [Hw _].
    rewrite (expansion_marker _ (length (take n s)))
      by (by apply is_marker_len).
    by rewrite take_app_length, drop_app_length, IH.
  - rewrite (expansion_outside _ _ Hm). cbn [render].
    destruct (NT_TO_REGEXP !! c) as [v|] eqn:Hc.
    + destruct (Hsafe c v Hc) as [_ Hall].
      rewrite expansion_stable_value, IH; [done|done|].
      apply (Hstable c v Hc).
    + cbn [app]. rewrite expansion_outside.
      * cbn [render]. by rewrite Hc, IH.
      * destruct (decide (c = "("%char)) as [->|Hne].
        -- by apply marker_len_paren.
        -- by apply marker_len_head.
Qed.

End ExpandTwice.

(** For a table whose expansions use no character of the group-name
    syntax and only characters the table leaves alone, as the nucleotide
    table does, expanding an expanded pattern changes nothing. *)
Theorem re_expandIUPAC_idempotent NT (re_str : string) :
  safe_table NT -> stable_table NT ->
  re_expandIUPAC NT (re_expandIUPAC NT re_str) = re_expandIUPAC NT re_str.
Proof.
  intros Hsafe Hstable. rewrite !re_expandIUPAC_expansion.
  rewrite list_ascii_of_string_of_list_ascii.
  by rewrite expansion_idempotent.
Qed.

Lemma IUPAC_stable : stable_table IUPAC_NT_TO_REGEXP.
Proof. apply (bool_decide_unpack _). vm_compute. reflexivity. Qed.

Lemma re_expandIUPAC_idempotent_witness :
  re_expandIUPAC IUPAC_NT_TO_REGEXP
    (re_expandIUPAC IUPAC_NT_TO_REGEXP "(?P<UMI>N{4})R")
  = re_expandIUPAC IUPAC_NT_TO_REGEXP "(?P<UMI>N{4})R".
Proof.
  apply (re_expandIUPAC_idempotent IUPAC_NT_TO_REGEXP "(?P<UMI>N{4})R").
  - apply (bool_decide_unpack _). vm_compute. reflexivity.
  - apply (bool_decide_unpack _). vm_compute. reflexivity.
Defined.

(** ** Columns that a call leaves alone *)

Lemma assoc_app {A} c (l1 l2 : list (string * A)) :
  assoc c (l1 ++ l2) = from_option Some (assoc c l2) (assoc c l1).
Proof.
  induction l1 as [|[k v] l1 IH]; simpl; [done|].
  by destruct (decide (c = k)).
Qed.

Lemma assoc_None {A} c (l : list (string * A)) :
  assoc c l = None <-> c ∉ l.*1.
Proof.
  induction l as [|[k v] l IH]; simpl.
  - split; [intros _; apply not_elem_of_nil | done].
  - rewrite not_elem_of_cons. destruct (decide (c = k)) as [->|Hne].
    + split; [done | by intros [? _]].
    + rewrite IH. tauto.
Qed.

Lemma assoc_is_Some {A} c (l : list (string * A)) :
  is_Some (assoc c l) <-> c ∈ l.*1.
Proof.
  rewrite <- not_eq_None_Some, assoc_None.
  split; [apply dec_stable | by intros ? ?].
Qed.

Lemma assoc_filter {A} (X : gset string) c (l : list (string * A)) :
  c ∉ X -> assoc c (filter (fun p => p.1 ∉ X) l) = assoc c l.
Proof.
  intros Hc. induction l as [|[k v] l IH]; [done|].
  rewrite filter_cons. cbn [fst assoc].
  destruct (decide (k ∉ X)) as [Hk|Hk]; cbn [assoc].
  - by rewrite IH.
  - rewrite IH. destruct (decide (c = k)) as [->|]; done.
Qed.

Lemma fst_new_columns (F : string -> list value) (keys : list string) :
  ((fun c => (c, F c)) <$> keys).*1 = keys.
Proof. rewrite <- list_fmap_compose. apply list_fmap_id. Qed.

(** A column that is not requested is carried over. *)
Lemma concat_columns_frame df newcols (d : gmap string (list value)) df' c :
  concat_columns df
    ((list_to_set newcols : gset string) ∩ list_to_set (column_names df))
    newcols d = Ok df' ->
  c ∉ newcols ->
  assoc c (columns df') = assoc c (columns df).
Proof.
  intros [-> _]%concat_columns_Ok Hc. cbn [columns].
  rewrite assoc_app.
  rewrite assoc_filter.
  - destruct (assoc c (columns df)); [done|]. cbn.
    apply assoc_None. rewrite fst_new_columns.
    by rewrite elem_of_remove_dups.
  - rewrite elem_of_intersection, elem_of_list_to_set. tauto.
Qed.

Lemma concat_columns_index df dup newcols (d : gmap string (list value)) df' :
  concat_columns df dup newcols d = Ok df' ->
  index df' = index df /\ index_name df' = index_name df.
Proof. by intros [-> _]%concat_columns_Ok. Qed.

Lemma filter_fst {A} (X : gset string) (l : list (string * A)) :
  (filter (fun p => p.1 ∉ X) l).*1 = filter (fun k => k ∉ X) l.*1.
Proof.
  induction l as [|[k v] l IH]; [done|].
  rewrite fmap_cons, !filter_cons. cbn [fst].
  destruct (decide (k ∉ X)); cbn; by rewrite IH.
Qed.

Lemma filter_ext_in {A} (P Q : A -> Prop) `{!forall x, Decision (P x)}
    `{!forall x, Decision (Q x)} (l : list A) :
  (forall x, x ∈ l -> P x <-> Q x) -> filter P l = filter Q l.
Proof.
  induction l as [|x l IH]; [done|]. intros Hl.
  rewrite !filter_cons.
  pose proof (Hl x (list_elem_of_here _ _)) as Hx.
  rewrite IH by (intros y Hy; apply Hl; by apply list_elem_of_further).
  destruct (decide (P x)), (decide (Q x)); tauto || done.
Qed.

(** The columns of the result, in order: those of the input that are not
    requested, then the requested ones. *)
Lemma concat_columns_column_names df newcols (d : gmap string (list value))
    df' :
  concat_columns df
    ((list_to_set newcols : gset string) ∩ list_to_set (column_names df))
    newcols d = Ok df' ->
  column_names df'
  = filter (fun c => c ∉ newcols) (column_names df) ++ remove_dups newcols.
Proof.
  intros [-> _]%concat_columns_Ok. unfold column_names. cbn [columns].
  rewrite fmap_app, fst_new_columns. f_equal.
  rewrite filter_fst.
  apply filter_ext_in. intros k Hk.
  rewrite elem_of_intersection, !elem_of_list_to_set. tauto.
Qed.

Lemma concat_columns_wf df dup newcols (d : gmap string (list value)) df' :
  wf_df df -> concat_columns df dup newcols d = Ok df' -> wf_df df'.
Proof.
  unfold wf_df. intros Hwf [-> Hlen]%concat_columns_Ok. cbn [columns index].
  apply Forall_app. split.
  - apply Forall_forall. intros p [_ Hp]%list_elem_of_filter.
    rewrite Forall_forall in Hwf. by apply Hwf.
  - apply Forall_fmap, Forall_forall. intros c Hc.
    rewrite elem_of_remove_dups in Hc. unfold compose. cbn [snd].
    by apply Hlen.
Qed.

Lemma cell_assoc df df' c i :
  assoc c (columns df') = assoc c (columns df) -> cell df' c i = cell df c i.
Proof. unfold cell. by intros ->. Qed.

(** ** More on matchSeqs *)

Section MatchSeqsMore.

Context `{RegexLib}.
Variable NT_TO_REGEXP : gmap ascii string.
Variable reverseComplement : string -> result string.


(** The requested columns of a call with the pattern [pat]. *)
Definition match_columns (matcher : Pattern) (match_col : string)
    (o : match_options) : list string :=
  match_keys match_col o (match_groupnames matcher o).

(** A call that returns: what it checked and computed. *)
Lemma matchSeqs_Ok_inv df pat ctm mc o df' matcher :
  matchSeqs NT_TO_REGEXP reverseComplement df (Some pat) ctm mc o = Ok df' ->
  compiled_pattern NT_TO_REGEXP o pat = Ok matcher ->
  ctm ∈ column_names df
  /\ match_newcols df matcher ctm mc o
     = Ok (match_columns matcher mc o, match_groupnames matcher o)
  /\ (overwrite o = false ->
      (list_to_set (match_columns matcher mc o) : gset string)
      ∩ list_to_set (column_names df) = ∅)
  /\ exists d,
      for_each (seq 0 (length (index df)))
        (fun (d : gmap string (list value)) i =>
           apps ← match_row reverseComplement df matcher ctm mc o
                    (match_groupnames matcher o) i;
           Ok (foldl dict_append d apps))
        (empty_columns (match_columns matcher mc o)) = Ok d
      /\ name_in_dict (index_name df) d = false
      /\ concat_columns df
           ((list_to_set (match_columns matcher mc o) : gset string)
            ∩ list_to_set (column_names df))
           (match_columns matcher mc o) d = Ok df'.
Proof.
  unfold matchSeqs, compiled_pattern, match_columns.
  intros Hok Hc.
  destruct (bool_decide (ctm ∈ column_names df)) eqn:Hctm; [|done].
  apply bool_decide_eq_true in Hctm. cbn [negb] in Hok.
  rewrite Hc in Hok. cbn [mbind result_bind] in Hok.
  destruct (match_newcols _ _ _ _ _) as [[newcols gn]|] eqn:Hn; [|done].
  cbn [mbind result_bind] in Hok.
  pose proof (match_newcols_Ok _ _ _ _ _ _ _ Hn) as [-> ->].
  destruct (negb (overwrite o) && _) eqn:Hdup; [done|].
  destruct (for_each _ _ _) as [d|] eqn:Hloop; [|done].
  cbn [mbind result_bind] in Hok.
  destruct (name_in_dict _ _) eqn:Hname; [done|].
  split; [done|]. split; [done|]. split.
  - intros Ho. rewrite Ho in Hdup. cbn in Hdup.
    apply bool_decide_eq_false in Hdup. by apply dec_stable.
  - by exists d.
Qed.


End MatchSeqsMore.


(** *** Slices *)

Lemma length_py_slice {A} (l : list A) (start stop : Z) :
  length (py_slice l start stop)
  = Nat.min (slice_index (length l) stop - slice_index (length l) start)
      (length l - slice_index (length l) start).
Proof. unfold py_slice. by rewrite length_take, length_drop. Qed.


Lemma length_string_of_list_ascii (l : list ascii) :
  String.length (string_of_list_ascii l) = length l.
Proof. induction l as [|c l IH]; [done|]. cbn. by rewrite IH. Qed.

Lemma length_list_ascii_of_string (s : string) :
  length (list_ascii_of_string s) = String.length s.
Proof. induction s as [|c s IH]; [done|]. cbn. by rewrite IH. Qed.

(** A slice of the Q-values has the length of the same slice of the
    sequence, when the two have the same length. *)
Lemma length_str_slice (s : string) (qs : list Z) (start stop : Z) :
  length qs = String.length s ->
  length (py_slice qs start stop) = String.length (str_slice s start stop).
Proof.
  intros Hl. unfold str_slice.
  rewrite length_string_of_list_ascii, !length_py_slice.
  by rewrite length_list_ascii_of_string, Hl.
Qed.

Lemma for_each_ext {A S} (b1 b2 : S -> A -> result S) (l : list A) (s0 : S) :
  (forall x s, x ∈ l -> b1 s x = b2 s x) ->
  for_each l b1 s0 = for_each l b2 s0.
Proof.
  revert s0. induction l as [|x l IH]; intros s0 Hb; [done|].
  cbn [for_each]. rewrite (Hb x s0) by apply list_elem_of_here.
  destruct (b2 s0 x) as [s1|]; cbn; [|done].
  apply IH. intros y s Hy. apply Hb. by apply list_elem_of_further.
Qed.

Section MatchSeqsRows.

Context `{RegexLib}.
Variable NT_TO_REGEXP : gmap ascii string.
Variable reverseComplement : string -> result string.


(** The cells of the group [g] in a row that [m] matched, with the
    Q-values [qs] in the orientation of the match. *)
Definition group_cells (df' : DataFrame) (o : match_options) (m : Match)
    (qs : list Z) (g : string) (i : nat) : Prop :=
  cell df' g i = Some (m_group m g)
  /\ (add_qvals o = true ->
      cell df' (g +:+ "_qvals") i
      = Some (VArray (py_slice qs (m_start m g) (m_end m g))))
  /\ (add_accuracy o = true ->
      exists a,
        qvalsToAccuracy (QArray (py_slice qs (m_start m g) (m_end m g)))
          "numbers" = Ok a
        /\ cell df' (g +:+ "_accuracy") i = Some (VFloat a)).

(** A row of the result is reported without a match and holds the
    sentinels, or it is reported with a match [m] of its sequence or of
    the reverse complement, and its groups hold what [m] gives. *)
Lemma matchSeqs_row_cells df pat ctm mc o df' matcher i :
  matchSeqs NT_TO_REGEXP reverseComplement df (Some pat) ctm mc o = Ok df' ->
  compiled_pattern NT_TO_REGEXP o pat = Ok matcher ->
  i < length (index df) ->
  (cell df' mc i = Some (VBool false)
   /\ forall g, g ∈ match_groupnames matcher o ->
        group_sentinel_cells df' o g i)
  \/ (cell df' mc i = Some (VBool true)
      /\ exists s m,
          cell df ctm i = Some (VStr s)
          /\ (m_string m = s \/ reverseComplement s = Ok (m_string m))
          /\ forall qs0,
              cell df (ctm +:+ "_qvals") i = Some (VArray qs0) ->
              exists qs,
                (qs = qs0 \/ qs = reverse qs0)
                /\ forall g, g ∈ match_groupnames matcher o ->
                     group_cells df' o m qs g i).
Proof.
  intros Hok Hm Hi.
  destruct (matchSeqs_row _ _ _ _ _ _ _ _ _ _ Hok Hm Hi)
    as (apps & Hrow & Hcells).
  assert (Hgroups : forall m (b : bool) qs qs0 gs,
    (if with_qvals o then cell df (ctm +:+ "_qvals") i = Some (VArray qs)
     else True) ->
    mapM (group_appends o m
            (if with_qvals o
             then Some (if b then reverse qs else qs) else None))
      (match_groupnames matcher o) = Ok gs ->
    (forall x, x ∈ concat gs -> exists c v, x = (c, v) /\ cell df' c i = Some v) ->
    cell df (ctm +:+ "_qvals") i = Some (VArray qs0) ->
    exists qs',
      (qs' = qs0 \/ qs' = reverse qs0)
      /\ forall g, g ∈ match_groupnames matcher o ->
           group_cells df' o m qs' g i).
  { intros m b qs qs0 gs Hq Hgs Hin Hq0.
    exists (if b then reverse qs0 else qs0).
    split; [destruct b; auto|]. intros g Hg.
    destruct (group_appends_elem _ _ _ _ _ g Hgs Hg) as (Hv & Hqv & Hac).
    assert (Hcell : forall c v, (c, v) ∈ concat gs -> cell df' c i = Some v).
    { intros c v Hx. destruct (Hin _ Hx) as (c' & v' & [= -> ->] & ?). done. }
    assert (Hgn : add_group_cols o = true).
    { unfold match_groupnames in Hg. destruct (add_group_cols o); [done|].
      by apply elem_of_nil in Hg. }
    assert (Hsl : add_qvals o = true \/ add_accuracy o = true ->
              group_slice m (if with_qvals o
                             then Some (if b then reverse qs else qs)
                             else None) g
              = py_slice (if b then reverse qs0 else qs0)
                  (m_start m g) (m_end m g)).
    { intros Hor. unfold with_qvals in *. rewrite Hgn in *.
      assert (Hw : add_accuracy o || add_qvals o = true)
        by (destruct Hor as [-> | ->]; by rewrite ?orb_true_r).
      rewrite Hw in *. cbn [andb] in *. rewrite Hq0 in Hq.
      by injection Hq as <-. }
    split; [by apply Hcell|]. split.
    - intros Ha. rewrite <- (Hsl (or_introl Ha)). by apply Hcell, Hqv.
    - intros Ha. destruct (Hac Ha) as (a & Hacc & Hina).
      rewrite (Hsl (or_intror Ha)) in Hacc. exists a.
      split; [done | by apply Hcell]. }
  destruct Hrow as [s0 qs sp gs Hs0 Hq Hsp Hgs
                   |s0 qs rc sp gs Hs0 Hq Hn Hrc Hsp Hgs
                   |s0 rc Hs0 Hn Hrc Hsp].
  - right. split; [apply Hcells, list_elem_of_here|].
    exists s0, (mkMatch s0 sp). split; [done|]. split; [by left|].
    intros qs0 Hq0.
    apply (Hgroups (mkMatch s0 sp) false qs qs0 gs Hq Hgs); [|done].
    intros [c v] Hx. exists c, v. split; [done|].
    apply Hcells, list_elem_of_further, elem_of_app. by right.
  - right. split; [apply Hcells, list_elem_of_here|].
    exists s0, (mkMatch rc sp). split; [done|]. split; [by right|].
    intros qs0 Hq0.
    apply (Hgroups (mkMatch rc sp) true qs qs0 gs Hq); [|  |done].
    + by destruct (with_qvals o).
    + intros [c v] Hx. exists c, v. split; [done|].
      apply Hcells, list_elem_of_further, elem_of_app. by right.
  - left. split; [apply Hcells, list_elem_of_here|].
    intros g Hg.
    destruct (group_sentinels_elem o _ g Hg) as (Hv & Hqv & Hac).
    assert (Hsub : forall x,
              x ∈ concat (group_sentinels o <$> match_groupnames matcher o) ->
              x ∈ (mc, VBool false) :: polarity_append mc o 0
                  ++ concat (group_sentinels o <$> match_groupnames matcher o)).
    { intros x Hx. apply list_elem_of_further, elem_of_app. by right. }
    split; [by apply Hcells, Hsub|].
    split; intros Hb; apply Hcells, Hsub; auto.
Qed.

(** When the Q-values of a row are as many as the characters of its
    sequence, and reverse complementing keeps the length, the Q-values
    reported for a group are as many as the characters of the text
    reported for it. *)
Theorem matchSeqs_group_lengths df pat ctm mc o df' matcher i s qs g :
  (forall s rc, reverseComplement s = Ok rc ->
     String.length rc = String.length s) ->
  matchSeqs NT_TO_REGEXP reverseComplement df (Some pat) ctm mc o = Ok df' ->
  compiled_pattern NT_TO_REGEXP o pat = Ok matcher ->
  i < length (index df) ->
  add_group_cols o = true -> add_qvals o = true ->
  cell df ctm i = Some (VStr s) ->
  cell df (ctm +:+ "_qvals") i = Some (VArray qs) ->
  length qs = String.length s ->
  g ∈ groupindex matcher ->
  exists q,
    cell df' (g +:+ "_qvals") i = Some (VArray q)
    /\ (cell df' g i = Some VNone
        \/ exists t, cell df' g i = Some (VStr t)
                     /\ length q = String.length t).
Proof.
  intros Hrc Hok Hm Hi Hgc Hqv Hs Hq Hlen Hg.
  assert (Hg' : g ∈ match_groupnames matcher o)
    by (unfold match_groupnames; by rewrite Hgc).
  destruct (matchSeqs_row_cells _ _ _ _ _ _ _ _ Hok Hm Hi)
    as [[_ Hsent]|(_ & s0 & m & Hs0 & Hor & Hcells)].
  - destruct (Hsent g Hg') as (Hv & Hqs & _).
    exists []. split; [by apply Hqs|]. right. by exists "".
  - rewrite Hs in Hs0. injection Hs0 as <-.
    destruct (Hcells qs Hq) as (qs' & Hqs' & Hgroup).
    destruct (Hgroup g Hg') as (Hv & Hqs & _).
    eexists. split; [by apply Hqs|]. rewrite Hv. unfold m_group.
    destruct (m_start m g <? 0)%Z; [by left|]. right.
    eexists. split; [done|]. apply length_str_slice.
    assert (Hl1 : length qs' = length qs)
      by (destruct Hqs' as [-> | ->]; by rewrite ?length_reverse).
    assert (Hl2 : String.length (m_string m) = String.length s)
      by (destruct Hor as [-> | Hr]; [done | by apply Hrc]).
    congruence.
Qed.


(** *** When the reverse complement is computed *)

Lemma match_row_forward rc1 rc2 df matcher ctm mc o gn i :
  (forall s, cell df ctm i = Some (VStr s) ->
     is_Some (search_spans matcher s)) ->
  match_row rc1 df matcher ctm mc o gn i
  = match_row rc2 df matcher ctm mc o gn i.
Proof.
  intros Hfwd. unfold match_row.
  destruct (row_get df i ctm ≫= as_str) as [s|] eqn:Hs; [|done].
  cbn [mbind result_bind].
  destruct (Hfwd s (row_get_str _ _ _ _ Hs)) as [sp Hsp].
  unfold matcher_search. rewrite Hsp. cbn [fmap option_fmap option_map].
  match goal with
  | |- mbind _ ?x = _ => destruct x as [qs|]; [|done]
  end.
  done.
Qed.

End MatchSeqsRows.

(** The sequences that match as given are never reverse complemented:
    when every row matches as given, the result is the same whatever
    [reverseComplement] does, even if it raises. *)
Theorem matchSeqs_forward_only `{RegexLib} NT_TO_REGEXP
    (rc1 rc2 : string -> result string) df pat ctm mc o :
  (forall matcher i s,
     compiled_pattern NT_TO_REGEXP o pat = Ok matcher ->
     i < length (index df) ->
     cell df ctm i = Some (VStr s) ->
     is_Some (search_spans matcher s)) ->
  matchSeqs NT_TO_REGEXP rc1 df (Some pat) ctm mc o
  = matchSeqs NT_TO_REGEXP rc2 df (Some pat) ctm mc o.
Proof.
  intros Hfwd. unfold matchSeqs, compiled_pattern in *.
  destruct (negb _); [done|].
  destruct (regex_compile _) as [matcher|] eqn:Hc; [|done].
  cbn [mbind result_bind].
  destruct (match_newcols _ _ _ _ _) as [[newcols gn]|]; [|done].
  cbn [mbind result_bind].
  destruct (negb (overwrite o) && _); [done|].
  rewrite (for_each_ext _
             (fun (d : gmap string (list value)) i =>
                apps ← match_row rc2 df matcher ctm mc o gn i;
                Ok (foldl dict_append d apps))); [done|].
  intros i d Hi. rewrite (match_row_forward rc1 rc2); [done|].
  intros s Hs. apply (Hfwd matcher i s eq_refl); [|done].
  apply elem_of_seq in Hi. lia.
Qed.

(** A sequence that does not match as given is reverse complemented:
    if that raises, the call raises. *)
Theorem matchSeqs_reverse_complement_raises `{RegexLib} NT_TO_REGEXP
    reverseComplement df pat ctm mc o matcher i s e :
  compiled_pattern NT_TO_REGEXP o pat = Ok matcher ->
  i < length (index df) ->
  cell df ctm i = Some (VStr s) ->
  search_spans matcher s = None ->
  reverseComplement s = Err e ->
  is_Err (matchSeqs NT_TO_REGEXP reverseComplement df (Some pat) ctm mc o).
Proof.
  intros Hm Hi Hs Hn Hrc.
  destruct (matchSeqs _ _ _ _ _ _ _) as [df'|] eqn:Hok; [|done].
  destruct (matchSeqs_row _ _ _ _ _ _ _ _ _ _ Hok Hm Hi)
    as (apps & Hrow & _).
  destruct Hrow as [s0 qs sp gs Hs0 _ Hsp _
                   |s0 qs rc sp gs Hs0 _ _ Hrc0 _ _
                   |s0 rc Hs0 _ Hrc0 _];
    rewrite Hs in Hs0; injection Hs0 as <-; congruence.
Qed.

Lemma reverseComplement_length (s rc : string) :
  reverseComplement s = Ok rc -> String.length rc = String.length s.
Proof.
  unfold reverseComplement.
  destruct (mapM complement _) as [l|] eqn:Hl; [|done].
  intros [= <-]. apply mapM_result_length in Hl.
  by rewrite length_string_of_list_ascii, Hl, length_reverse,
    length_list_ascii_of_string.
Qed.

Lemma matchSeqs_group_lengths_witness :
  exists df',
    matchSeqs IUPAC_NT_TO_REGEXP reverseComplement ccs_df
      (Some barcode_pattern) "CCS" "barcoded" match_defaults = Ok df'
    /\ exists q,
        cell df' "barcode_qvals" 1 = Some (VArray q)
        /\ (cell df' "barcode" 1 = Some VNone
            \/ exists t, cell df' "barcode" 1 = Some (VStr t)
                         /\ length q = String.length t).
Proof.
  eexists. split; [vm_compute; reflexivity|].
  eapply (matchSeqs_group_lengths IUPAC_NT_TO_REGEXP reverseComplement ccs_df
            barcode_pattern "CCS" "barcoded" match_defaults _ _ 1
            "TAAGTGCTCTCGTA" _ "barcode").
  - apply reverseComplement_length.
  - vm_compute; reflexivity.
  - vm_compute; reflexivity.
  - vm_compute; lia.
  - reflexivity.
  - reflexivity.
  - reflexivity.
  - reflexivity.
  - vm_compute; reflexivity.
  - vm_compute. repeat constructor.
Defined.


Lemma matchSeqs_forward_only_witness :
  matchSeqs IUPAC_NT_TO_REGEXP reverseComplement tail_df (Some tail_pattern)
    "CCS" "matched" tail_options
  = matchSeqs IUPAC_NT_TO_REGEXP (fun _ => Err ValueError) tail_df
      (Some tail_pattern) "CCS" "matched" tail_options.
Proof.
  apply (matchSeqs_forward_only IUPAC_NT_TO_REGEXP reverseComplement
           (fun _ => Err ValueError) tail_df tail_pattern "CCS" "matched"
           tail_options).
  intros matcher i s Hm Hi Hs.
  vm_compute in Hm. injection Hm as <-.
  destruct i as [|i]; [|vm_compute in Hi; lia].
  vm_compute in Hs. injection Hs as <-.
  vm_compute. eexists. reflexivity.
Defined.

(** A read with a character that has no complement. *)
Definition unknown_base_df : DataFrame :=
  {| index_name := None; index := [0%Z]; columns := [("CCS", [VStr "GGX"])] |}.

Lemma matchSeqs_reverse_complement_raises_witness :
  is_Err (matchSeqs IUPAC_NT_TO_REGEXP reverseComplement unknown_base_df
            (Some tail_pattern) "CCS" "matched" tail_options).
Proof.
  eapply (matchSeqs_reverse_complement_raises IUPAC_NT_TO_REGEXP
            reverseComplement unknown_base_df tail_pattern "CCS" "matched"
            tail_options _ 0 "GGX" ValueError).
  - vm_compute; reflexivity.
  - vm_compute; lia.
  - reflexivity.
  - vm_compute; reflexivity.
  - vm_compute; reflexivity.
Defined.

(** *** Calling again, and what a call needs *)

Section MatchSeqsAgain.

Context `{RegexLib}.
Variable NT_TO_REGEXP : gmap ascii string.
Variable reverseComplement : string -> result string.


(** A row reads its sequence and, if asked for, its Q-values; nothing
    else of the data frame. *)
Lemma match_row_ext df df' matcher ctm mc o gn i :
  cell df' ctm i = cell df ctm i ->
  cell df' (ctm +:+ "_qvals") i = cell df (ctm +:+ "_qvals") i ->
  match_row reverseComplement df' matcher ctm mc o gn i
  = match_row reverseComplement df matcher ctm mc o gn i.
Proof.
  intros Hs Hq. unfold match_row, row_get. by rewrite Hs, Hq.
Qed.

Lemma match_newcols_ext df df' matcher ctm mc o :
  (ctm +:+ "_qvals" ∈ column_names df <-> ctm +:+ "_qvals" ∈ column_names df') ->
  match_newcols df' matcher ctm mc o = match_newcols df matcher ctm mc o.
Proof.
  intros Hq. unfold match_newcols.
  by rewrite (bool_decide_ext _ _ Hq).
Qed.

Lemma filter_new_columns (X : gset string) (F : string -> list value)
    (keys : list string) :
  (forall k, k ∈ keys -> k ∈ X) ->
  filter (fun p : string * list value => p.1 ∉ X) ((fun c => (c, F c)) <$> keys)
  = [].
Proof.
  intros Hk. apply filter_all_False, Forall_forall.
  intros p (c & -> & Hc)%list_elem_of_fmap Hn. apply Hn. cbn. by apply Hk.
Qed.

Lemma filter_filter_notin {A} (X Y : gset string) (l : list (string * A)) :
  (forall p, p ∈ l -> p.1 ∉ X -> p.1 ∉ Y) ->
  filter (fun p => p.1 ∉ Y) (filter (fun p => p.1 ∉ X) l)
  = filter (fun p => p.1 ∉ X) l.
Proof.
  intros HXY. induction l as [|p l IH]; [done|].
  rewrite (filter_cons (fun p => p.1 ∉ X)).
  destruct (decide (p.1 ∉ X)) as [Hp|Hp].
  - rewrite filter_cons, decide_True
      by (apply HXY; [apply list_elem_of_here|done]).
    f_equal. apply IH. intros q Hq. apply HXY. by apply list_elem_of_further.
  - apply IH. intros q Hq. apply HXY. by apply list_elem_of_further.
Qed.

(** Joining the same new columns to the result of a join gives that
    result again. *)
Lemma concat_columns_again df newcols (d : gmap string (list value)) df' :
  concat_columns df
    ((list_to_set newcols : gset string) ∩ list_to_set (column_names df))
    newcols d = Ok df' ->
  concat_columns df'
    ((list_to_set newcols : gset string) ∩ list_to_set (column_names df'))
    newcols d = Ok df'.
Proof.
  intros Hcat.
  pose proof (concat_columns_column_names _ _ _ _ Hcat) as Hnames.
  pose proof Hcat as [Hdf' _]%concat_columns_Ok.
  unfold concat_columns in *.
  replace (index df') with (index df) by (by rewrite Hdf').
  destruct (forallb _ _); [|done]. clear Hcat. f_equal.
  set (X := (list_to_set newcols : gset string)
            ∩ list_to_set (column_names df)) in *.
  set (Y := (list_to_set newcols : gset string)
            ∩ list_to_set (column_names df')) in *.
  assert (Hcols : filter (fun p => p.1 ∉ Y) (columns df')
                  = filter (fun p => p.1 ∉ X) (columns df)).
  { rewrite Hdf'. cbn [columns]. rewrite filter_app.
    rewrite filter_new_columns, app_nil_r.
    - apply filter_filter_notin. intros p Hp Hn. subst X Y.
      rewrite elem_of_intersection, !elem_of_list_to_set in *.
      intros [Hnew' _]. apply Hn. split; [done|].
      apply list_elem_of_fmap. by exists p.
    - intros k Hk. rewrite elem_of_remove_dups in Hk. subst Y.
      rewrite elem_of_intersection, !elem_of_list_to_set. split; [done|].
      rewrite Hnames, elem_of_app, elem_of_remove_dups. by right. }
  unfold drop_columns. cbn [columns]. rewrite Hcols.
  rewrite Hdf'. done.
Qed.

(** With [overwrite], a call on the result of the same call returns that
    result again: the columns written the first time are replaced by
    equal ones, in the same places.  The column matched and its Q-values
    must not be among the columns written. *)
Theorem matchSeqs_again df pat ctm mc o df' matcher :
  matchSeqs NT_TO_REGEXP reverseComplement df (Some pat) ctm mc o = Ok df' ->
  compiled_pattern NT_TO_REGEXP o pat = Ok matcher ->
  overwrite o = true ->
  ctm ∉ match_columns matcher mc o ->
  ctm +:+ "_qvals" ∉ match_columns matcher mc o ->
  matchSeqs NT_TO_REGEXP reverseComplement df' (Some pat) ctm mc o = Ok df'.
Proof.
  intros Hok Hc Ho Hctm Hq.
  destruct (matchSeqs_Ok_inv _ _ _ _ _ _ _ _ _ Hok Hc)
    as (Hin & Hnew & _ & d & Hloop & Hname & Hcat).
  pose proof (concat_columns_column_names _ _ _ _ Hcat) as Hnames.
  pose proof (concat_columns_index _ _ _ _ _ Hcat) as [Hidx Hiname].
  assert (Hkeep : forall c, c ∉ match_columns matcher mc o ->
            c ∈ column_names df <-> c ∈ column_names df').
  { intros c Hc'. rewrite Hnames, elem_of_app, list_elem_of_filter,
      elem_of_remove_dups. tauto. }
  assert (Hcell : forall c i, c ∉ match_columns matcher mc o ->
            cell df' c i = cell df c i).
  { intros c i Hc'. apply cell_assoc. by eapply concat_columns_frame. }
  unfold matchSeqs, compiled_pattern in *.
  rewrite bool_decide_eq_true_2 by (by apply Hkeep). cbn [negb].
  rewrite Hc. cbn [mbind result_bind].
  rewrite (match_newcols_ext df df') by (by apply Hkeep).
  rewrite Hnew. cbn [mbind result_bind]. rewrite Ho. cbn [negb andb].
  rewrite Hidx.
  rewrite (for_each_ext _
             (fun (d : gmap string (list value)) i =>
                apps ← match_row reverseComplement df matcher ctm mc o
                         (match_groupnames matcher o) i;
                Ok (foldl dict_append d apps)))
    by (intros i s _; by rewrite (match_row_ext df df') by (by apply Hcell)).
  rewrite Hloop. cbn [mbind result_bind]. rewrite Hiname, Hname.
  by apply (concat_columns_again df).
Qed.

(** A call with a pattern needs the column to match, and with it the
    column of its Q-values as soon as accuracies or Q-values of groups
    are asked for, whether or not the pattern names a group. *)
Theorem matchSeqs_missing_column df pat ctm mc o :
  (ctm ∉ column_names df ->
   matchSeqs NT_TO_REGEXP reverseComplement df (Some pat) ctm mc o
   = Err AssertionError)
  /\ (forall matcher,
        ctm ∈ column_names df ->
        compiled_pattern NT_TO_REGEXP o pat = Ok matcher ->
        NoDup (groupindex matcher) ->
        with_qvals o = true ->
        ctm +:+ "_qvals" ∉ column_names df ->
        matchSeqs NT_TO_REGEXP reverseComplement df (Some pat) ctm mc o
        = Err ValueError).
Proof.
  unfold matchSeqs, compiled_pattern. split.
  - intros Hn. by rewrite bool_decide_eq_false_2.
  - intros matcher Hin Hc Hnd Hw Hq.
    rewrite bool_decide_eq_true_2 by done. cbn [negb].
    rewrite Hc. cbn [mbind result_bind].
    unfold match_newcols, with_qvals in *.
    destruct (add_group_cols o); [|done].
    rewrite size_list_to_set, Nat.eqb_refl by done. cbn [negb].
    cbn [andb] in Hw. rewrite Hw.
    by rewrite bool_decide_eq_false_2.
Qed.

End MatchSeqsAgain.

Lemma matchSeqs_again_witness :
  exists df',
    matchSeqs IUPAC_NT_TO_REGEXP reverseComplement ccs_df
      (Some barcode_pattern) "CCS" "barcoded" with_overwrite = Ok df'
    /\ matchSeqs IUPAC_NT_TO_REGEXP reverseComplement df'
         (Some barcode_pattern) "CCS" "barcoded" with_overwrite = Ok df'.
Proof.
  eexists. split; [vm_compute; reflexivity|].
  eapply (matchSeqs_again IUPAC_NT_TO_REGEXP reverseComplement ccs_df
            barcode_pattern "CCS" "barcoded" with_overwrite).
  - vm_compute; reflexivity.
  - vm_compute; reflexivity.
  - reflexivity.
  - apply (bool_decide_unpack _). vm_compute. reflexivity.
  - apply (bool_decide_unpack _). vm_compute. reflexivity.
Defined.

(** The data frame of the documentation without its Q-values. *)
Definition no_qvals_df : DataFrame :=
  {| index_name := None; index := [0%Z];
     columns := [("name", [VStr "read1"]); ("CCS", [VStr "ACGTTCACGCTT"])] |}.

Example matchSeqs_missing_qvals :
  matchSeqs IUPAC_NT_TO_REGEXP reverseComplement no_qvals_df (Some "ACG")
    "CCS" "has_termini5" match_defaults = Err ValueError
  /\ matchSeqs IUPAC_NT_TO_REGEXP reverseComplement no_qvals_df (Some "ACG")
       "seq" "has_termini5" match_defaults = Err AssertionError.
Proof. split; vm_compute; reflexivity. Qed.

(** ** More on alignSeqs *)

Lemma size_list_to_set_le (l : list string) :
  size (list_to_set l : gset string) <= length l.
Proof.
  induction l as [|x l IH]; [done|]. cbn [list_to_set length].
  rewrite size_union_alt, size_singleton.
  assert (size ((list_to_set l : gset string) ∖ {[x]})
          <= size (list_to_set l : gset string))
    by (apply subseteq_size; set_solver).
  lia.
Qed.

(** [len(l) == len(set(l))] holds of the lists without a repeated
    element only. *)
Lemma length_size_NoDup (l : list string) :
  length l = size (list_to_set l : gset string) <-> NoDup l.
Proof.
  split; [|intros Hnd; by rewrite size_list_to_set].
  induction l as [|x l IH]; [constructor|].
  cbn [list_to_set length]. intros Hl.
  pose proof (size_list_to_set_le l) as Hle.
  destruct (decide (x ∈ l)) as [Hx|Hx].
  - exfalso.
    replace ({[x]} ∪ list_to_set l : gset string) with
      (list_to_set l : gset string) in Hl; [lia|].
    apply set_eq. intros y.
    rewrite elem_of_union, elem_of_singleton, elem_of_list_to_set.
    split; [auto | by intros [->|]].
  - rewrite size_union, size_singleton in Hl
      by (apply disjoint_singleton_l; by rewrite elem_of_list_to_set).
    constructor; [done|]. apply IH. lia.
Qed.

Lemma remove_dups_NoDup (l : list string) : NoDup l -> remove_dups l = l.
Proof.
  induction 1 as [|x l Hx _ IH]; [done|].
  cbn [remove_dups]. destruct (decide_rel _ x l); [done|]. by rewrite IH.
Qed.

(** A call that returns: what it checked. *)
Lemma alignSeqs_Ok_inv df mapper qc ac o df' :
  alignSeqs df mapper qc ac o = Ok df' ->
  qc ∈ column_names df
  /\ NoDup (align_newcols ac o)
  /\ (align_overwrite o = false ->
      (list_to_set (align_newcols ac o) : gset string)
      ∩ list_to_set (column_names df) = ∅)
  /\ exists names, df_names df = Ok names /\ NoDup names.
Proof.
  unfold alignSeqs. intros Hok.
  destruct (bool_decide (qc ∈ column_names df)) eqn:Hqc; [|done].
  apply bool_decide_eq_true in Hqc. cbn [negb] in Hok.
  destruct (align_qvals df qc o) as [qvals|]; [|done].
  cbn [mbind result_bind] in Hok.
  destruct (length (align_newcols ac o) =? _) eqn:Hnd; [|done].
  apply Nat.eqb_eq, length_size_NoDup in Hnd. cbn [negb] in Hok.
  destruct (negb (align_overwrite o) && _) eqn:Hdup; [done|].
  destruct (df_names df) as [names|]; [|done].
  cbn [mbind result_bind] in Hok.
  destruct (length names =? _) eqn:Hn; [|done].
  apply Nat.eqb_eq, length_size_NoDup in Hn.
  split; [done|]. split; [done|]. split; [|by exists names].
  intros Ho. rewrite Ho in Hdup. cbn in Hdup.
  apply bool_decide_eq_false in Hdup. by apply dec_stable.
Qed.

(** A call that returns keeps the index, keeps every column it was not
    asked to write, in order and cell by cell, and puts the requested
    columns last, in the order of the keyword arguments.  If it may not
    overwrite, it returns only when none of the requested columns exists,
    so that every column of the input is kept. *)
Theorem alignSeqs_frame df mapper qc ac o df' :
  alignSeqs df mapper qc ac o = Ok df' ->
  let newcols := align_newcols ac o in
  index df' = index df
  /\ index_name df' = index_name df
  /\ column_names df'
     = filter (fun c => c ∉ newcols) (column_names df) ++ newcols
  /\ (forall c, c ∉ newcols -> assoc c (columns df') = assoc c (columns df))
  /\ (align_overwrite o = false ->
      forall c, c ∈ column_names df -> c ∉ newcols).
Proof.
  intros Hok newcols. subst newcols.
  destruct (alignSeqs_Ok_inv _ _ _ _ _ _ Hok) as (_ & Hnd & Hdup & _).
  apply alignSeqs_inv in Hok
    as (qvals & names & queries & map_dict & d & _ & _ & _ & _ & _ & Hcat).
  destruct (concat_columns_index _ _ _ _ _ Hcat) as [Hi Hn].
  split; [done|]. split; [done|]. split.
  { rewrite (concat_columns_column_names _ _ _ _ Hcat).
    f_equal. by apply remove_dups_NoDup. }
  split; [intros c Hc'; by eapply concat_columns_frame|].
  intros Ho c Hin Hnew. specialize (Hdup Ho).
  assert (Hc' : c ∈ (list_to_set (align_newcols ac o) : gset string)
                    ∩ list_to_set (column_names df)).
  { rewrite elem_of_intersection, !elem_of_list_to_set. done. }
  rewrite Hdup in Hc'. by apply not_elem_of_empty in Hc'.
Qed.

Lemma alignSeqs_frame_witness :
  exists df',
    alignSeqs gene_df (read1_mapper gene_alignment) "gene" "gene_aligned"
      align_defaults = Ok df'
    /\ index df' = index gene_df
    /\ column_names df'
       = ["name"; "gene"; "gene_aligned"; "gene_aligned_alignment";
          "gene_aligned_target"; "gene_aligned_cigar";
          "gene_aligned_n_trimmed_query_start";
          "gene_aligned_n_trimmed_query_end";
          "gene_aligned_n_trimmed_target_start";
          "gene_aligned_n_trimmed_target_end"; "gene_aligned_n_additional";
          "gene_aligned_n_additional_difftarget"]
    /\ assoc "gene" (columns df') = assoc "gene" (columns gene_df).
Proof.
  eexists. split; [vm_compute; reflexivity|].
  edestruct (alignSeqs_frame gene_df (read1_mapper gene_alignment) "gene"
               "gene_aligned" align_defaults) as (Hi & _ & Hn & Hf & _).
  - vm_compute; reflexivity.
  - split; [exact Hi|]. split; [exact Hn|].
    apply Hf. apply (bool_decide_unpack _). vm_compute. reflexivity.
Defined.

(** With [targetvariants] given and its [variantsites_min_acc] left at
    [None], the name [qvals] is never bound, and the first row with an
    alignment raises when [qvals[name]] is evaluated: the call returns a
    table only if no row is aligned. *)
Theorem alignSeqs_unbound_qvals df mapper qc ac o tv names queries map_dict
    name a :
  targetvariants o = Some tv ->
  variantsites_min_acc tv = None ->
  df_names df = Ok names ->
  align_queries df qc = Ok queries ->
  mapper_map mapper queries (paf_file o) = Ok map_dict ->
  name ∈ names ->
  map_dict !! name = Some a ->
  exists e, alignSeqs df mapper qc ac o = Err e.
Proof.
  intros Htv Hvs Hnames Hqueries Hmap Hin Ha. unfold alignSeqs.
  assert (Hq : align_qvals df qc o = Ok None)
    by (unfold align_qvals; by rewrite Htv, Hvs).
  rewrite Hq, Hnames, Hqueries. cbn [mbind result_bind]. rewrite Hmap.
  cbn [mbind result_bind].
  assert (Hloop : forall d0,
    is_Err (for_each names
      (fun (d : gmap string (list value)) name =>
         apps ← align_row mapper ac o None map_dict name;
         Ok (foldl dict_append d apps)) d0)).
  { intros d0. eapply for_each_raises; [done|].
    intros d. unfold align_row, aligned_appends, call_targetvariants.
    rewrite Ha, Htv. by destruct (Z.eqb_spec (strand a) 1). }
  repeat raise_or_go; try by eexists.
  all: match goal with
       | E : for_each _ _ _ = Ok _ |- _ =>
           exfalso; exact (is_Err_not_Ok _ _ (Hloop _) E)
       end.
Qed.

(** A caller of target variants that takes no accuracy threshold. *)
Definition no_threshold_variants : TargetVariants :=
  {| variantsites_min_acc := None;
     tv_call := fun a _ => Ok ("wildtype", a) |}.

Definition with_variants : align_options :=
  {| add_alignment := true; add_target := true; add_cigar := true;
     add_n_trimmed := true; add_n_additional := true;
     add_n_additional_difftarget := true;
     targetvariants := Some no_threshold_variants;
     mutationcaller := None; align_overwrite := true; paf_file := None |}.

Lemma alignSeqs_unbound_qvals_witness :
  exists e,
    alignSeqs gene_df (read1_mapper gene_alignment) "gene" "gene_aligned"
      with_variants = Err e.
Proof.
  eapply (alignSeqs_unbound_qvals gene_df (read1_mapper gene_alignment)
            "gene" "gene_aligned" with_variants no_threshold_variants
            _ _ _ "read1" gene_alignment).
  - reflexivity.
  - reflexivity.
  - vm_compute; reflexivity.
  - vm_compute; reflexivity.
  - vm_compute; reflexivity.
  - apply list_elem_of_here.
  - vm_compute; reflexivity.
Defined.



(** The names of the queries are those the mapper may answer for. *)
Definition answers_queries (mapper : Mapper) : Prop :=
  forall queries paf map_dict,
    mapper_map mapper queries paf = Ok map_dict ->
    forall name, is_Some (map_dict !! name) -> name ∈ queries.*1.

Lemma df_names_lookup df names i name :
  df_names df = Ok names ->
  cell df "name" i = Some (VStr name) -> names !! i = Some name.
Proof.
  unfold df_names, cell.
  destruct (assoc "name" (columns df)) as [col|]; [|done].
  cbn [mbind option_bind]. intros Hm%mapM_result_Forall2 Hi.
  destruct (Forall2_lookup_l _ _ _ _ _ Hm Hi) as (n & Hn & Hs).
  cbn in Hs. by injection Hs as <-.
Qed.

Lemma Ok_inj {A} (x y : A) : Ok x = Ok y -> x = y.
Proof. by intros [= ->]. Qed.

(** The name of a row whose query is the empty string is not among the
    queries written to the file. *)
Lemma empty_query_not_written df qc names queries i name :
  df_names df = Ok names -> NoDup names ->
  align_queries df qc = Ok queries ->
  names !! i = Some name ->
  cell df qc i = Some (VStr "") ->
  name ∉ queries.*1.
Proof.
  intros Hn Hnd Hqs Hi Hquery Hin.
  unfold align_queries in Hqs. rewrite Hn in Hqs.
  cbn [mbind result_bind] in Hqs. unfold cell in Hquery.
  destruct (assoc qc (columns df)) as [col|]; [|done].
  cbn [from_option mbind option_bind] in Hqs, Hquery.
  destruct (mapM as_str col) as [qs|] eqn:Hcol; [|done].
  cbn [mbind result_bind] in Hqs. apply Ok_inj in Hqs as <-.
  apply mapM_result_Forall2 in Hcol.
  destruct (Forall2_lookup_l _ _ _ _ _ Hcol Hquery) as (q & Hq & Hs).
  cbn in Hs. injection Hs as <-.
  apply list_elem_of_fmap in Hin as ([n q] & -> & [Hne Hin]%list_elem_of_filter).
  apply list_elem_of_lookup in Hin as [j Hj].
  apply lookup_zip_Some in Hj as [Hj1 Hj2]. cbn in *.
  rewrite (NoDup_lookup _ _ _ _ Hnd Hi Hj1) in Hq. congruence.
Qed.

(** A row whose query is the empty string is reported as not aligned by
    a call that returns, when the mapper answers only for the queries it
    is given. *)
Lemma empty_query_unaligned df mapper qc ac o df' i name :
  wf_df df ->
  answers_queries mapper ->
  alignSeqs df mapper qc ac o = Ok df' ->
  cell df "name" i = Some (VStr name) ->
  cell df qc i = Some (VStr "") ->
  cell df' ac i = Some (VBool false).
Proof.
  intros Hwf Hmapper Hok Hname Hquery.
  destruct (alignSeqs_Ok_inv _ _ _ _ _ _ Hok)
    as (_ & _ & _ & names' & Hn' & Hnd).
  destruct (alignSeqs_cells _ _ _ _ _ _ Hwf Hok)
    as (qvals & names & queries & map_dict & _ & Hn & Hqs & Hm & Hrows).
  rewrite Hn in Hn'. injection Hn' as <-.
  pose proof (df_names_lookup _ _ _ _ Hn Hname) as Hi.
  destruct (Hrows i name Hi) as (apps & Hrow & Hcells).
  assert (Hnone : map_dict !! name = None).
  { apply eq_None_not_Some. intros Hsome%(Hmapper _ _ _ Hm).
    by eapply empty_query_not_written. }
  unfold align_row in Hrow. rewrite Hnone in Hrow. injection Hrow as <-.
  apply Hcells. apply list_elem_of_here.
Qed.

(** A row whose query is the empty string is not written to the file
    of queries; when the mapper answers only for the queries it is
    given, the row is reported as not aligned. *)
Theorem alignSeqs_empty_query df mapper qc ac o df' i name queries :
  wf_df df ->
  answers_queries mapper ->
  alignSeqs df mapper qc ac o = Ok df' ->
  align_queries df qc = Ok queries ->
  cell df "name" i = Some (VStr name) ->
  cell df qc i = Some (VStr "") ->
  name ∉ queries.*1 /\ cell df' ac i = Some (VBool false).
Proof.
  intros Hwf Hmapper Hok Hqs Hname Hquery.
  split; [|by eapply empty_query_unaligned].
  destruct (alignSeqs_Ok_inv _ _ _ _ _ _ Hok)
    as (_ & _ & _ & names & Hn & Hnd).
  eapply empty_query_not_written; try done.
  by eapply df_names_lookup.
Qed.

Lemma read1_mapper_answers a : answers_queries (read1_mapper a).
Proof.
  intros queries paf map_dict [= <-] name [x Hx].
  apply elem_of_list_to_map_2, list_elem_of_fmap in Hx
    as (q & [= -> _] & [_ Hq]%list_elem_of_filter).
  apply list_elem_of_fmap. by exists q.
Qed.

Lemma alignSeqs_empty_query_witness :
  exists df',
    alignSeqs gene_df (read1_mapper gene_alignment) "gene" "gene_aligned"
      align_defaults = Ok df'
    /\ "read2" ∉ [("read1", "ACGT")].*1
    /\ cell df' "gene_aligned" 1 = Some (VBool false).
Proof.
  eexists. split; [vm_compute; reflexivity|].
  eapply (alignSeqs_empty_query gene_df (read1_mapper gene_alignment) "gene"
            "gene_aligned" align_defaults _ 1 "read2" [("read1", "ACGT")]).
  - apply (bool_decide_unpack _). vm_compute. reflexivity.
  - apply read1_mapper_answers.
  - vm_compute; reflexivity.
  - vm_compute; reflexivity.
  - reflexivity.
  - reflexivity.
Defined.

(** Without a column [name], or with a name that occurs twice, the call
    raises: no table is returned. *)
Theorem alignSeqs_names df mapper qc ac o :
  assoc "name" (columns df) = None
  \/ (exists names, df_names df = Ok names /\ ~ NoDup names) ->
  exists e, alignSeqs df mapper qc ac o = Err e.
Proof.
  intros Hname. unfold alignSeqs.
  destruct (negb (bool_decide _)); [by eexists|].
  destruct (align_qvals df qc o) as [qvals|]; [|by eexists].
  cbn [mbind result_bind].
  destruct (negb (_ =? _)); [by eexists|].
  destruct (negb (align_overwrite o) && _); [by eexists|].
  destruct Hname as [Hnone|(names & Hn & Hdup)].
  - unfold df_names. rewrite Hnone. by eexists.
  - rewrite Hn. cbn [mbind result_bind].
    destruct (length names =? _) eqn:E; [|by eexists].
    by apply Nat.eqb_eq, length_size_NoDup in E.
Qed.

(** Two reads of the same name. *)
Definition same_name_df : DataFrame :=
  {| index_name := None;
     index := [0; 1]%Z;
     columns := [("name", [VStr "read1"; VStr "read1"]);
                 ("gene", [VStr "ACGT"; VStr "ACGA"])] |}.

Lemma alignSeqs_names_witness :
  exists e,
    alignSeqs same_name_df (read1_mapper gene_alignment) "gene"
      "gene_aligned" align_defaults = Err e.
Proof.
  apply (alignSeqs_names same_name_df (read1_mapper gene_alignment) "gene"
           "gene_aligned" align_defaults).
  right. exists ["read1"; "read1"]. split; [reflexivity|].
  intros Hnd. apply NoDup_cons in Hnd as [Hn _]. apply Hn.
  apply list_elem_of_here.
Defined.

(** * The rest of the module *)

(** ** CCS._build_df_from_bamfile *)

(** A read as [pysam.AlignmentFile] yields it; [pysam] is an external
    library.  Of a read the method takes the name, the sequence and the
    base qualities (each [None] when the file has none), the length of
    the sequence and the tags. *)
Record AlignedSegment := {
  query_name : string;
  query_sequence : option string;
  query_qualities : option (list Z);
  query_length : Z;
  tags : gmap string value
}.

(** [s.get_tag(tag)] *)
Definition get_tag (s : AlignedSegment) (tag : string) : result value :=
  from_option Ok (raise KeyError) (tags s !! tag).

(** [d[k].append(v)] on a [collections.defaultdict(list)]: a key that is
    missing is added after the others. *)
Fixpoint defaultdict_append (d : list (string * list value))
    (kv : string * value) : list (string * list value) :=
  match d with
  | [] => [(kv.1, [kv.2])]
  | (k, l) :: d' =>
      if decide (k = kv.1) then (k, l ++ [kv.2]) :: d'
      else (k, l) :: defaultdict_append d' kv
  end.

(** The body of the loop over the reads: the pairs appended to [d], in
    order.  [numpy.asarray(None, dtype='int')] raises [TypeError]. *)
Definition read_appends (samplename : string) (s : AlignedSegment)
  : result (list (string * value)) :=
  qvals ← from_option Ok (raise TypeError) (query_qualities s);
  np ← get_tag s "np";
  rq ← get_tag s "rq";
  Ok [("CCS", from_option VStr VNone (query_sequence s));
      ("CCS_qvals", VArray qvals);
      ("name", VStr (query_name s));
      ("passes", np);
      ("CCS_accuracy", rq);
      ("CCS_length", VInt (query_length s));
      ("samplename", VStr samplename)].

(** [df.c] for a column [c]. *)
Definition get_column (df : DataFrame) (c : string) : result (list value) :=
  from_option Ok (raise AttributeError) (assoc c (columns df)).

(** [len(v)] for the value of a cell. *)
Definition py_len (v : value) : result Z :=
  match v with
  | VStr s => Ok (Z.of_nat (String.length s))
  | VArray a => Ok (Z.of_nat (length a))
  | VList l => Ok (Z.of_nat (length l))
  | _ => raise TypeError
  end.

Definition as_int (v : value) : result Z :=
  match v with
  | VInt z => Ok z
  | _ => raise TypeError
  end.

(** [(df.CCS_length == df[c].apply(len)).all()] *)
Definition lengths_agree (df : DataFrame) (c : string) : result bool :=
  lengths ← get_column df "CCS_length" ≫= mapM as_int;
  lens ← get_column df c ≫= mapM py_len;
  Ok (forallb (fun p => (p.1 =? p.2)%Z) (zip lengths lens)).

(** The method, given the sample name of the object and the reads of
    its BAM file; it returns the data frame it stores in [self.df].  The
    message of the first assertion reads [self.name], an attribute no
    [CCS] object has: when the names are not unique it is the evaluation
    of the message that raises. *)
Definition _build_df_from_bamfile (samplename : string)
    (reads : list AlignedSegment) : result DataFrame :=
  d ← for_each reads
         (fun (d : list (string * list value)) s =>
            apps ← read_appends samplename s;
            Ok (foldl defaultdict_append d apps))
         [];
  let df := {| index_name := None;
               index := Z.of_nat <$> seq 0 (length reads);
               columns := d |} in
  names ← df_names df;
  if negb (length names =? size (list_to_set names : gset string))
  then raise AttributeError
  else
    ok ← lengths_agree df "CCS";
    if negb ok then raise AssertionError
    else
      ok ← lengths_agree df "CCS_qvals";
      if negb ok then raise AssertionError
      else Ok df.

(** ** matchAndAlignCCS *)

(** A [CCS] object: the attributes read here. *)
Record CCS := {
  samplename : string;
  CCS_df : DataFrame
}.

(** [ccslist]: a [CCS] object or a list of them. *)
Inductive ccslist_arg :=
| OneCCS (ccs : CCS)
| ListCCS (l : list CCS).

(** [pandas.concat(dfs)] for data frames with the same columns: the rows
    of the frames, one frame after the other, each with its index label;
    the name of the index is kept if all the frames agree on it.  It
    raises [ValueError] for an empty list. *)
Definition concat_rows (dfs : list DataFrame) : result DataFrame :=
  match dfs with
  | [] => raise ValueError
  | df0 :: rest =>
      Ok {| index_name :=
              if bool_decide
                   (Forall (fun df => index_name df = index_name df0) rest)
              then index_name df0 else None;
            index := concat (index <$> dfs);
            columns :=
              (fun p : string * list value =>
                 (p.1, concat ((fun df => default [] (assoc p.1 (columns df)))
                                 <$> dfs)))
                <$> columns df0 |}
  end.

(** The data frame the function starts from.  [collections.Iterable] is
    taken to exist, as it does up to Python 3.9; a single [CCS] object is
    not iterable. *)
Definition ccslist_df (ccslist : ccslist_arg) : result DataFrame :=
  match ccslist with
  | ListCCS l =>
      let col_list := (fun ccs => column_names (CCS_df ccs)) <$> l in
      if negb (forallb (fun col =>
                 bool_decide (default [] (head col_list) = col)) col_list)
      then raise AssertionError
      else concat_rows (CCS_df <$> l)
  | OneCCS ccs => Ok (CCS_df ccs)
  end.

(** The keyword arguments. *)
Record ccs_args := {
  termini5 : option string;
  gene : string;
  spacer : option string;
  umi : option string;
  barcode : option string;
  termini3 : option string;
  ccs_targetvariants : option TargetVariants;
  ccs_mutationcaller : option MutationCaller;
  rc_barcode_umi : bool
}.

(** ['(?P<name>{0})'.format(element)], or nothing for [None]. *)
Definition named_group (name : string) (element : option string) : string :=
  match element with
  | Some e => "(?P<" +:+ name +:+ ">" +:+ e +:+ ")"
  | None => ""
  end.

Definition build_match_str (a : ccs_args) : string :=
  named_group "termini5" (termini5 a)
  +:+ named_group "gene" (Some (gene a))
  +:+ named_group "spacer" (spacer a)
  +:+ named_group "UMI" (umi a)
  +:+ named_group "barcode" (barcode a)
  +:+ named_group "termini3" (termini3 a).

(** [df.assign(c=col)] and [df.c = col]: the column is replaced where it
    stands, or added last. *)
Definition assign (df : DataFrame) (c : string) (col : list value)
  : DataFrame :=
  {| index_name := index_name df;
     index := index df;
     columns :=
       if bool_decide (c ∈ column_names df)
       then (fun p : string * list value =>
               if decide (p.1 = c) then (c, col) else p) <$> columns df
       else columns df ++ [(c, col)] |}.

(** [a | b] for two columns of booleans. *)
Definition series_or (a b : list value) : result (list value) :=
  mapM (fun p : value * value =>
          match p with
          | (VBool x, VBool y) => Ok (VBool (x || y))
          | _ => raise TypeError
          end) (zip a b).

(** [s.where(cond, other)]: the value of [s] where [cond] holds, that of
    [other] elsewhere. *)
Definition series_where (s cond other : list value) : result (list value) :=
  mapM (fun p : value * value * value =>
          match p with
          | (x, VBool true, _) => Ok x
          | (_, VBool false, y) => Ok y
          | _ => raise ValueError
          end) (zip (zip s cond) other).

(** [lambda x: x.target if x is not None else ''] *)
Definition alignment_target (v : value) : result value :=
  match v with
  | VNone => Ok (VStr "")
  | VAlignment a => Ok (VStr (target a))
  | _ => raise AttributeError
  end.

(** The options of the calls that only flag an element:
    [add_polarity=False, add_group_cols=False]. *)
Definition flag_only : match_options :=
  {| add_polarity := false; add_group_cols := false; add_accuracy := true;
     add_qvals := true; expandIUPAC := true; overwrite := false |}.

(** The options of the alignment of the gene. *)
Definition gene_align_options (a : ccs_args) : align_options :=
  {| add_alignment := true; add_target := true; add_cigar := true;
     add_n_trimmed := true; add_n_additional := true;
     add_n_additional_difftarget := true;
     targetvariants := ccs_targetvariants a;
     mutationcaller := ccs_mutationcaller a;
     align_overwrite := true; paf_file := None |}.

Section MatchAndAlign.

Context `{RegexLib}.
Variable NT_TO_REGEXP : gmap ascii string.
Variable reverseComplement : string -> result string.


(** [s.map(dms_tools2.utils.reverseComplement)] *)
Definition map_reverseComplement (col : list value) : result (list value) :=
  mapM (fun v => s ← as_str v; rc ← reverseComplement s; Ok (VStr rc)) col.

(** The inner function: the sequences are aligned as given and reverse
    complemented, and three columns are added to [df]. *)
Definition _align_CCS_both_orientations (df : DataFrame) (mapper : Mapper)
  : result DataFrame :=
  df_for ← alignSeqs df mapper "CCS" "CCS_for_aligned" align_defaults;
  rev ← get_column df_for "CCS" ≫= map_reverseComplement;
  df_bi ← alignSeqs (assign df_for "CCS_rev" rev) mapper "CCS_rev"
            "CCS_rev_aligned" align_defaults;
  for_aligned ← get_column df_bi "CCS_for_aligned";
  rev_aligned ← get_column df_bi "CCS_rev_aligned";
  aligned ← series_or for_aligned rev_aligned;
  let df := assign df "CCS_aligned" aligned in
  for_alignment ← get_column df_bi "CCS_for_aligned_alignment";
  for_aligned ← get_column df_bi "CCS_for_aligned";
  rev_alignment ← get_column df_bi "CCS_rev_aligned_alignment";
  alignment ← series_where for_alignment for_aligned rev_alignment;
  let df := assign df "CCS_aligned_alignment" alignment in
  targets ← get_column df "CCS_aligned_alignment" ≫= mapM alignment_target;
  Ok (assign df "CCS_aligned_target" targets).

(** [df.c = df.c.map(dms_tools2.utils.reverseComplement)], when asked
    for. *)
Definition rc_column (b : bool) (c : string) (df : DataFrame)
  : result DataFrame :=
  if b then
    col ← get_column df c ≫= map_reverseComplement;
    Ok (assign df c col)
  else Ok df.

Definition matchAndAlignCCS (ccslist : ccslist_arg) (mapper : Mapper)
    (a : ccs_args) : result DataFrame :=
  df ← ccslist_df ccslist;
  let match_str := build_match_str a in
  df ← matchSeqs NT_TO_REGEXP reverseComplement df (Some match_str) "CCS"
         "barcoded" match_defaults;
  df ← matchSeqs NT_TO_REGEXP reverseComplement df (termini5 a) "CCS"
         "has_termini5" flag_only;
  df ← matchSeqs NT_TO_REGEXP reverseComplement df (termini3 a) "CCS"
         "has_termini3" flag_only;
  df ← matchSeqs NT_TO_REGEXP reverseComplement df (spacer a) "CCS"
         "has_spacer" flag_only;
  df ← alignSeqs df mapper "gene" "gene_aligned" (gene_align_options a);
  df ← _align_CCS_both_orientations df mapper;
  df ← rc_column (rc_barcode_umi a && bool_decide (is_Some (barcode a)))
         "barcode" df;
  rc_column (rc_barcode_umi a && bool_decide (is_Some (umi a))) "UMI" df.

End MatchAndAlign.

(** ** The data frame of a CCS object *)

(** The columns of the data frame, in the order the loop creates them. *)
Definition ccs_keys : list string :=
  ["CCS"; "CCS_qvals"; "name"; "passes"; "CCS_accuracy"; "CCS_length";
   "samplename"].

(** A read the loop can take: it has base qualities and both tags. *)
Definition readable (s : AlignedSegment) : Prop :=
  is_Some (query_qualities s)
  /\ is_Some (tags s !! "np") /\ is_Some (tags s !! "rq").

#[global] Instance readable_dec s : Decision (readable s).
Proof. unfold readable. apply _. Defined.

Lemma read_appends_Ok samplename s apps :
  read_appends samplename s = Ok apps ->
  exists qs np rq,
    query_qualities s = Some qs
    /\ tags s !! "np" = Some np /\ tags s !! "rq" = Some rq
    /\ apps = [("CCS", from_option VStr VNone (query_sequence s));
               ("CCS_qvals", VArray qs);
               ("name", VStr (query_name s));
               ("passes", np);
               ("CCS_accuracy", rq);
               ("CCS_length", VInt (query_length s));
               ("samplename", VStr samplename)].
Proof.
  unfold read_appends, get_tag.
  destruct (query_qualities s) as [qs|]; [|done].
  destruct (tags s !! "np") as [np|]; [|done].
  destruct (tags s !! "rq") as [rq|]; [|done].
  cbn. intros [= <-]. by exists qs, np, rq.
Qed.

Lemma read_appends_readable samplename s :
  readable s -> exists apps, read_appends samplename s = Ok apps.
Proof.
  intros ([qs Hq] & [np Hnp] & [rq Hrq]). unfold read_appends, get_tag.
  rewrite Hq, Hnp, Hrq. cbn. by eexists.
Qed.

Lemma read_appends_keys samplename s apps :
  read_appends samplename s = Ok apps -> apps.*1 = ccs_keys.
Proof. by intros (qs & np & rq & _ & _ & _ & ->)%read_appends_Ok. Qed.

Lemma foldl_defaultdict_first (apps : list (string * value)) :
  apps.*1 = ccs_keys ->
  foldl defaultdict_append [] apps = (fun k => (k, vals k apps)) <$> ccs_keys.
Proof.
  intros Hk.
  destruct apps as [|[k1 v1] [|[k2 v2] [|[k3 v3] [|[k4 v4] [|[k5 v5]
    [|[k6 v6] [|[k7 v7] [|]]]]]]]]; try discriminate Hk.
  injection Hk as -> -> -> -> -> -> ->. reflexivity.
Qed.

Lemma foldl_defaultdict_next (F : string -> list value)
    (apps : list (string * value)) :
  apps.*1 = ccs_keys ->
  foldl defaultdict_append ((fun k => (k, F k)) <$> ccs_keys) apps
  = (fun k => (k, F k ++ vals k apps)) <$> ccs_keys.
Proof.
  intros Hk.
  destruct apps as [|[k1 v1] [|[k2 v2] [|[k3 v3] [|[k4 v4] [|[k5 v5]
    [|[k6 v6] [|[k7 v7] [|]]]]]]]]; try discriminate Hk.
  injection Hk as -> -> -> -> -> -> ->. reflexivity.
Qed.


Lemma for_each_reads_next samplename reads (F : string -> list value) d :
  for_each reads
    (fun (d : list (string * list value)) s =>
       apps ← read_appends samplename s;
       Ok (foldl defaultdict_append d apps))
    ((fun k => (k, F k)) <$> ccs_keys) = Ok d ->
  exists appss,
    Forall2 (fun s apps => read_appends samplename s = Ok apps) reads appss
    /\ d = (fun k => (k, F k ++ vals k (concat appss))) <$> ccs_keys.
Proof.
  revert F. induction reads as [|s reads IH]; intros F; cbn [for_each].
  - intros <-%Ok_inj. exists []. split; [constructor|].
    apply list_fmap_ext. intros _ k _. by rewrite app_nil_r.
  - destruct (read_appends samplename s) as [apps|] eqn:Hs; [|done].
    cbn [mbind result_bind].
    rewrite foldl_defaultdict_next by (by eapply read_appends_keys).
    intros (appss & Hall & ->)%IH. exists (apps :: appss).
    split; [by constructor|]. apply list_fmap_ext. intros _ k _.
    cbn [concat]. by rewrite vals_app, app_assoc.
Qed.

(** The dict after the loop: empty when there is no read, else one list
    per column with what each read appended. *)
Lemma for_each_reads samplename reads d :
  for_each reads
    (fun (d : list (string * list value)) s =>
       apps ← read_appends samplename s;
       Ok (foldl defaultdict_append d apps))
    [] = Ok d ->
  exists appss,
    Forall2 (fun s apps => read_appends samplename s = Ok apps) reads appss
    /\ d = match reads with
           | [] => []
           | _ => (fun k => (k, vals k (concat appss))) <$> ccs_keys
           end.
Proof.
  destruct reads as [|s reads]; cbn [for_each].
  - intros <-%Ok_inj. exists []. by split; [constructor|].
  - destruct (read_appends samplename s) as [apps|] eqn:Hs; [|done].
    cbn [mbind result_bind].
    rewrite foldl_defaultdict_first by (by eapply read_appends_keys).
    intros (appss & Hall & ->)%for_each_reads_next. exists (apps :: appss).
    split; [by constructor|]. apply list_fmap_ext. intros _ k _.
    cbn [concat]. by rewrite vals_app.
Qed.

Lemma for_each_reads_readable samplename reads d0 :
  Forall readable reads ->
  exists d,
    for_each reads
      (fun (d : list (string * list value)) s =>
         apps ← read_appends samplename s;
         Ok (foldl defaultdict_append d apps))
      d0 = Ok d.
Proof.
  intros Hall. revert d0.
  induction Hall as [|s reads Hs _ IH]; intros d0; cbn [for_each].
  - by eexists.
  - destruct (read_appends_readable samplename s Hs) as [apps ->].
    cbn [mbind result_bind]. apply IH.
Qed.

Lemma lookup_concat_singletons {A} (ls : list (list A)) i l :
  Forall (fun l => length l = 1) ls -> ls !! i = Some l ->
  concat ls !! i = head l.
Proof.
  intros Hall. revert i. induction Hall as [|k ls Hk _ IH]; intros i; [done|].
  destruct k as [|x [|y k]]; try done. destruct i as [|i]; cbn.
  - by intros [= <-].
  - apply IH.
Qed.

(** The cell of a column in a row is what the read of that row
    appended. *)
Lemma vals_reads_lookup samplename reads appss i apps k v :
  Forall2 (fun s apps => read_appends samplename s = Ok apps) reads appss ->
  appss !! i = Some apps -> k ∈ ccs_keys -> vals k apps = [v] ->
  vals k (concat appss) !! i = Some v.
Proof.
  intros Hall Hi Hk Hv. rewrite vals_concat.
  rewrite (lookup_concat_singletons _ i (vals k apps)).
  - by rewrite Hv.
  - apply Forall_fmap, Forall_forall. intros apps' Hin.
    apply list_elem_of_lookup in Hin as [j Hj].
    destruct (Forall2_lookup_r _ _ _ _ _ Hall Hj) as (s & _ & Hs).
    apply read_appends_Ok in Hs as (qs & np & rq & _ & _ & _ & ->).
    cbn. clear -Hk. unfold ccs_keys in Hk.
    repeat (apply elem_of_cons in Hk as [->|Hk]; [reflexivity|]).
    by apply elem_of_nil in Hk.
  - by rewrite list_lookup_fmap, Hi.
Qed.

Lemma vals_names samplename reads appss :
  Forall2 (fun s apps => read_appends samplename s = Ok apps) reads appss ->
  vals "name" (concat appss) = (fun s => VStr (query_name s)) <$> reads.
Proof.
  induction 1 as [|s apps reads appss Hs _ IH]; [done|].
  cbn [concat]. rewrite vals_app, IH.
  by apply read_appends_Ok in Hs as (qs & np & rq & _ & _ & _ & ->).
Qed.

Lemma mapM_as_str_VStr {A} (f : A -> string) (l : list A) :
  mapM as_str ((fun x => VStr (f x)) <$> l) = Ok (f <$> l).
Proof.
  induction l as [|x l IH]; [done|]. cbn. by rewrite IH.
Qed.

Lemma mapM_lookup {A B} (f : A -> result B) l k i x :
  mapM f l = Ok k -> l !! i = Some x -> exists y, f x = Ok y /\ k !! i = Some y.
Proof.
  intros Hm%mapM_result_Forall2 Hi.
  destruct (Forall2_lookup_l _ _ _ _ _ Hm Hi) as (y & Hy & Hf). eauto.
Qed.

Lemma forallb_zip_lookup (a b : list Z) i x y :
  forallb (fun p => (p.1 =? p.2)%Z) (zip a b) = true ->
  a !! i = Some x -> b !! i = Some y -> x = y.
Proof.
  intros Hall Ha Hb. rewrite forallb_forall in Hall.
  apply Z.eqb_eq, (Hall (x, y)), list_elem_of_In, list_elem_of_lookup.
  exists i. by apply lookup_zip_Some.
Qed.

(** What [lengths_agree] establishes for a row. *)
Lemma lengths_agree_row df c i n v :
  lengths_agree df c = Ok true ->
  cell df "CCS_length" i = Some (VInt n) -> cell df c i = Some v ->
  py_len v = Ok n.
Proof.
  unfold lengths_agree, get_column, cell.
  destruct (assoc "CCS_length" (columns df)) as [col1|]; [|done].
  destruct (assoc c (columns df)) as [col2|]; [|by destruct (mapM as_int col1)].
  cbn [from_option mbind result_bind option_bind].
  destruct (mapM as_int col1) as [lengths|] eqn:H1; [|done].
  cbn [mbind result_bind].
  destruct (mapM py_len col2) as [lens|] eqn:H2; [|done].
  cbn [mbind result_bind]. intros [= Hall] Hn Hv.
  destruct (mapM_lookup _ _ _ _ _ H1 Hn) as (x & [= <-] & Hx).
  destruct (mapM_lookup _ _ _ _ _ H2 Hv) as (y & Hy & Hy').
  by rewrite (forallb_zip_lookup _ _ _ _ _ Hall Hx Hy').
Qed.

(** A data frame is built only from a file with reads, all with
    sequence, base qualities and the tags [np] and [rq], and with
    distinct names.  It has one row per read, in the order of the file,
    under the labels 0, 1, ..., and the seven columns of the class
    documentation; in every row the sequence and the Q-values are as
    long as [CCS_length] says. *)
Theorem build_df_from_bamfile_invariant samplename reads df :
  _build_df_from_bamfile samplename reads = Ok df ->
  reads <> []
  /\ index_name df = None
  /\ index df = Z.of_nat <$> seq 0 (length reads)
  /\ column_names df = ccs_keys
  /\ wf_df df
  /\ df_names df = Ok (query_name <$> reads)
  /\ NoDup (query_name <$> reads)
  /\ forall i s, reads !! i = Some s ->
       exists sq qs,
         query_sequence s = Some sq
         /\ query_qualities s = Some qs
         /\ cell df "CCS" i = Some (VStr sq)
         /\ cell df "CCS_qvals" i = Some (VArray qs)
         /\ cell df "name" i = Some (VStr (query_name s))
         /\ cell df "passes" i = tags s !! "np"
         /\ cell df "CCS_accuracy" i = tags s !! "rq"
         /\ cell df "CCS_length" i = Some (VInt (query_length s))
         /\ cell df "samplename" i = Some (VStr samplename)
         /\ query_length s = Z.of_nat (String.length sq)
         /\ length qs = String.length sq.
Proof.
  unfold _build_df_from_bamfile.
  destruct (for_each _ _ _) as [d|] eqn:Hloop; [|done].
  cbn [mbind result_bind].
  apply for_each_reads in Hloop as (appss & Hall & ->).
  destruct reads as [|s0 reads0] eqn:Hreads; [done|].
  rewrite <- Hreads in *.
  assert (Hne : reads <> []) by (by rewrite Hreads).
  clear s0 reads0 Hreads.
  set (d := (fun k => (k, vals k (concat appss))) <$> ccs_keys).
  set (df0 := {| index_name := None;
                 index := Z.of_nat <$> seq 0 (length reads);
                 columns := d |}).
  intros Hok.
  assert (Hnames : df_names df0 = Ok (query_name <$> reads)).
  { unfold df_names. cbn. rewrite (vals_names _ _ _ Hall).
    apply mapM_as_str_VStr. }
  rewrite Hnames in Hok. cbn [mbind result_bind] in Hok.
  destruct (length (query_name <$> reads) =? _) eqn:Hnd; [|done].
  apply Nat.eqb_eq, length_size_NoDup in Hnd. cbn [negb] in Hok.
  destruct (lengths_agree df0 "CCS") as [[]|] eqn:H1; [|done|done].
  cbn [mbind result_bind negb] in Hok.
  destruct (lengths_agree df0 "CCS_qvals") as [[]|] eqn:H2; [|done|done].
  cbn [mbind result_bind negb] in Hok. injection Hok as <-.
  assert (Hcell : forall i apps k v,
            appss !! i = Some apps -> k ∈ ccs_keys -> vals k apps = [v] ->
            cell df0 k i = Some v).
  { intros i apps k v Hi Hk Hv. unfold cell. cbn [columns df0]. subst d.
    rewrite (assoc_fmap_key (fun k => vals k (concat appss))) by done.
    cbn [mbind option_bind]. by eapply vals_reads_lookup. }
  split; [done|]. split; [done|]. split; [done|].
  split; [subst d; unfold column_names; cbn [columns df0];
          apply fst_new_columns|].
  split.
  { unfold wf_df. cbn [columns index df0]. subst d.
    apply Forall_fmap, Forall_forall. intros k Hk. unfold compose. cbn [snd].
    rewrite length_fmap, length_seq, vals_concat.
    rewrite (Forall2_length _ _ _ Hall). clear -Hall Hk.
    induction Hall as [|s apps reads appss Hs _ IH]; [done|].
    cbn [fmap list_fmap concat]. rewrite length_app, IH. cbn [length].
    apply read_appends_Ok in Hs as (qs & np & rq & _ & _ & _ & ->).
    unfold ccs_keys in Hk.
    repeat (apply elem_of_cons in Hk as [->|Hk]; [reflexivity|]).
    by apply elem_of_nil in Hk. }
  split; [done|]. split; [done|].
  intros i s Hi.
  destruct (Forall2_lookup_l _ _ _ _ _ Hall Hi) as (apps & Happs & Hs).
  apply read_appends_Ok in Hs as (qs & np & rq & Hq & Hnp & Hrq & ->).
  assert (Hk : forall k, k ∈ ccs_keys <->
            k = "CCS" \/ k = "CCS_qvals" \/ k = "name" \/ k = "passes"
            \/ k = "CCS_accuracy" \/ k = "CCS_length" \/ k = "samplename").
  { intros k. unfold ccs_keys. rewrite !elem_of_cons, elem_of_nil. tauto. }
  pose proof (Hcell i _ "CCS" _ Happs ltac:(apply Hk; tauto) eq_refl) as Hc1.
  pose proof (Hcell i _ "CCS_qvals" _ Happs ltac:(apply Hk; tauto) eq_refl)
    as Hc2.
  pose proof (Hcell i _ "name" _ Happs ltac:(apply Hk; tauto) eq_refl) as Hc3.
  pose proof (Hcell i _ "passes" _ Happs ltac:(apply Hk; tauto) eq_refl)
    as Hc4.
  pose proof (Hcell i _ "CCS_accuracy" _ Happs ltac:(apply Hk; tauto) eq_refl)
    as Hc5.
  pose proof (Hcell i _ "CCS_length" _ Happs ltac:(apply Hk; tauto) eq_refl)
    as Hc6.
  pose proof (Hcell i _ "samplename" _ Happs ltac:(apply Hk; tauto) eq_refl)
    as Hc7.
  pose proof (lengths_agree_row _ _ _ _ _ H1 Hc6 Hc1) as Hl1.
  pose proof (lengths_agree_row _ _ _ _ _ H2 Hc6 Hc2) as Hl2.
  destruct (query_sequence s) as [sq|]; [|done].
  cbn [py_len from_option snd] in *.
  apply Ok_inj in Hl1. apply Ok_inj in Hl2.
  exists sq, qs. rewrite Hnp, Hrq.
  repeat split; try done; lia.
Qed.

(** The documentation's three reads, as [pysam] yields them. *)
Definition example_reads : list AlignedSegment :=
  [ {| query_name := "barcoded_TTC_0.999_plus";
       query_sequence := Some "ACGTTCACGCTT";
       query_qualities := Some (replicate 12 30%Z);
       query_length := 12;
       tags := {[ "np" := VInt 6; "rq" := VFloat (Fin 0.999) ]} |};
    {| query_name := "barcoded_AGA_0.995_minus";
       query_sequence := Some "TAAGTGCTCTCGTA";
       query_qualities :=
         Some (reverse (replicate 4 30 ++ [20; 30; 24] ++ replicate 7 30)%Z);
       query_length := 14;
       tags := {[ "np" := VInt 6; "rq" := VFloat (Fin 0.995) ]} |};
    {| query_name := "invalid";
       query_sequence := Some "GGGCATGCACTT";
       query_qualities := Some (replicate 12 30%Z);
       query_length := 12;
       tags := {[ "np" := VInt 6; "rq" := VFloat (Fin 0.999) ]} |} ].

Lemma build_df_from_bamfile_invariant_witness :
  exists df,
    _build_df_from_bamfile "test" example_reads = Ok df
    /\ column_names df = ccs_keys
    /\ wf_df df
    /\ df_names df = Ok (query_name <$> example_reads).
Proof.
  eexists. split; [vm_compute; reflexivity|].
  edestruct (build_df_from_bamfile_invariant "test" example_reads)
    as (_ & _ & _ & Hc & Hwf & Hn & _).
  - vm_compute; reflexivity.
  - split; [exact Hc|]. split; [exact Hwf | exact Hn].
Defined.

(** When every read can be taken but the file has no read, or two reads
    have the same name, the method raises [AttributeError]: without a
    read the data frame has no column [name], and for names that are not
    unique the message of the assertion reads [self.name], an attribute
    that does not exist. *)
Theorem build_df_from_bamfile_names samplename reads :
  Forall readable reads ->
  reads = [] \/ ~ NoDup (query_name <$> reads) ->
  _build_df_from_bamfile samplename reads = Err AttributeError.
Proof.
  intros Hall Hbad. unfold _build_df_from_bamfile.
  destruct (for_each_reads_readable samplename reads [] Hall) as [d Hd].
  rewrite Hd. cbn [mbind result_bind].
  apply for_each_reads in Hd as (appss & Happs & ->).
  destruct reads as [|s0 reads0] eqn:Hreads; [done|].
  rewrite <- Hreads in *.
  destruct Hbad as [->|Hdup]; [done|].
  unfold df_names. cbn [columns].
  replace (assoc "name" ((fun k => (k, vals k (concat appss))) <$> ccs_keys))
    with (Some (vals "name" (concat appss))) by reflexivity.
  rewrite (vals_names _ _ _ Happs), mapM_as_str_VStr.
  cbn [mbind result_bind].
  destruct (length (query_name <$> reads) =? _) eqn:Hnd; [|done].
  by apply Nat.eqb_eq, length_size_NoDup in Hnd.
Qed.

Lemma build_df_from_bamfile_names_witness :
  _build_df_from_bamfile "test" (take 1 example_reads ++ take 1 example_reads)
  = Err AttributeError.
Proof.
  apply build_df_from_bamfile_names.
  - apply (bool_decide_unpack _). vm_compute. reflexivity.
  - right. intros Hnd. apply NoDup_cons in Hnd as [Hn _]. apply Hn.
    apply list_elem_of_here.
Defined.

(** ** The pattern of matchAndAlignCCS *)

Lemma names_closed_tail c t : names_closed (c :: t) -> names_closed t.
Proof. intros Hc a b ->. apply (Hc (c :: a) b eq_refl). Qed.

Lemma names_closed_drop s n :
  marker_len s = Some n -> names_closed s -> names_closed (drop n s).
Proof.
  intros Hm Hc a b Hd. destruct (marker_len_is_marker _ _ Hm) as [_ Hs].
  apply (Hc (take n s ++ a) b). rewrite Hs at 1. by rewrite Hd, <- app_assoc.
Qed.

(** A group name is not split between a pattern whose names are closed
    and a closing parenthesis after it. *)
Lemma marker_len_closed_app c t rest :
  names_closed (c :: t) -> marker_len (c :: t) = None ->
  marker_len ((c :: t) ++ ")"%char :: rest) = None.
Proof.
  intros Hc Hm.
  destruct (marker_len ((c :: t) ++ ")"%char :: rest)) as [n|] eqn:Hn; [|done].
  exfalso. apply marker_len_spec in Hn as (name & u & Heq & _ & _).
  unfold marker_open in Heq. cbn [list_ascii_of_string app] in Heq.
  destruct t as [|c1 [|c2 [|c3 t']]]; cbn [app] in Heq;
    try (injection Heq; intros; discriminate).
  injection Heq as -> -> -> -> Heq.
  assert (Hin : ">"%char ∈ t') by (by apply (Hc [] t')).
  destruct (marker_len_prefix [] t' Hin) as [k Hk].
  rewrite app_nil_r in Hk. unfold marker_open in Hk.
  cbn [list_ascii_of_string app] in Hk. congruence.
Qed.

Lemma segments_closed_app x rest :
  names_closed x ->
  segments (x ++ ")"%char :: rest)
  = segments x ++ Outside ")"%char :: segments rest.
Proof.
  induction x as [|s n Hm IH|c t Hm IH] using segments_ind; intros Hc.
  - cbn [app]. by rewrite segments_outside by (by apply marker_len_head).
  - pose proof (marker_len_bounds _ _ Hm) as Hb.
    apply marker_len_spec in Hm as Hs.
    destruct Hs as (name & u & Hs & Hn & Hlen).
    assert (Hm' : marker_len (s ++ ")"%char :: rest) = Some n).
    { apply marker_len_spec. exists name, (u ++ ")"%char :: rest).
      rewrite Hs, <- !app_assoc. done. }
    rewrite (segments_marker _ _ Hm), (segments_marker _ _ Hm').
    rewrite take_app_le, drop_app_le by lia.
    rewrite IH by (by apply names_closed_drop). done.
  - rewrite <- app_comm_cons at 1.
    rewrite (segments_outside c (t ++ ")"%char :: rest))
      by (by apply (marker_len_closed_app c t rest)).
    rewrite (segments_outside _ _ Hm), IH by (by eapply names_closed_tail).
    done.
Qed.

Lemma list_ascii_of_string_inj (s t : string) :
  list_ascii_of_string s = list_ascii_of_string t -> s = t.
Proof.
  intros Heq. rewrite <- (string_of_list_ascii_of_string s), Heq.
  apply string_of_list_ascii_of_string.
Qed.

Lemma list_ascii_re_expandIUPAC NT (s : string) :
  list_ascii_of_string (re_expandIUPAC NT s)
  = expansion NT (list_ascii_of_string s).
Proof. apply re_expandIUPAC_segments. Qed.

Section MatchStr.

Variable NT_TO_REGEXP : gmap ascii string.
Hypothesis Hparen : NT_TO_REGEXP !! ")"%char = None.

Local Abbreviation out := (expansion NT_TO_REGEXP).

Lemma expansion_closed_app x rest :
  names_closed x -> out (x ++ ")"%char :: rest) = out x ++ ")"%char :: out rest.
Proof.
  intros Hc. unfold expansion. rewrite segments_closed_app by done.
  rewrite fmap_app, concat_app, fmap_cons. cbn [concat render].
  by rewrite Hparen.
Qed.

Lemma expansion_named_group name e rest :
  ">"%char ∉ name -> names_closed e ->
  out (marker_open ++ name ++ ">"%char :: e ++ ")"%char :: rest)
  = marker_open ++ name ++ ">"%char :: out e ++ ")"%char :: out rest.
Proof.
  intros Hn Hc.
  assert (Hw : is_marker (marker_open ++ name ++ [">"%char]))
    by (by exists name).
  replace (marker_open ++ name ++ ">"%char :: e ++ ")"%char :: rest)
    with ((marker_open ++ name ++ [">"%char]) ++ e ++ ")"%char :: rest)
    by (by rewrite <- !app_assoc).
  rewrite (out_marker NT_TO_REGEXP _ _ (is_marker_len _ _ Hw)).
  rewrite take_app_length, drop_app_length, expansion_closed_app by done.
  by rewrite <- !app_assoc.
Qed.

(** Expansion goes inside a named group: the name is kept, the element
    and what follows the group are expanded on their own. *)
Lemma re_expandIUPAC_named_group name element rest :
  ">"%char ∉ list_ascii_of_string name ->
  (forall e, element = Some e -> names_closed (list_ascii_of_string e)) ->
  re_expandIUPAC NT_TO_REGEXP (named_group name element +:+ rest)
  = named_group name (re_expandIUPAC NT_TO_REGEXP <$> element)
    +:+ re_expandIUPAC NT_TO_REGEXP rest.
Proof.
  intros Hn Hc. destruct element as [e|]; [|done].
  specialize (Hc e eq_refl). cbn [named_group fmap option_fmap option_map].
  apply list_ascii_of_string_inj.
  rewrite !list_ascii_of_string_app, !list_ascii_re_expandIUPAC.
  rewrite !list_ascii_of_string_app, <- !app_assoc.
  change (list_ascii_of_string "(?P<") with marker_open.
  change (list_ascii_of_string ">") with [">"%char].
  change (list_ascii_of_string ")") with [")"%char].
  cbn [app]. by apply expansion_named_group.
Qed.

End MatchStr.

(** The elements of the pattern that are given. *)
Definition elements (a : ccs_args) : list string :=
  omap (fun e => e)
    [termini5 a; Some (gene a); spacer a; umi a; barcode a; termini3 a].

(** The keyword arguments with every element expanded. *)
Definition expand_elements (NT_TO_REGEXP : gmap ascii string) (a : ccs_args)
  : ccs_args :=
  {| termini5 := re_expandIUPAC NT_TO_REGEXP <$> termini5 a;
     gene := re_expandIUPAC NT_TO_REGEXP (gene a);
     spacer := re_expandIUPAC NT_TO_REGEXP <$> spacer a;
     umi := re_expandIUPAC NT_TO_REGEXP <$> umi a;
     barcode := re_expandIUPAC NT_TO_REGEXP <$> barcode a;
     termini3 := re_expandIUPAC NT_TO_REGEXP <$> termini3 a;
     ccs_targetvariants := ccs_targetvariants a;
     ccs_mutationcaller := ccs_mutationcaller a;
     rc_barcode_umi := rc_barcode_umi a |}.

(** Expanding the pattern that [matchAndAlignCCS] builds expands each
    element on its own and leaves the six group names as they are, code
    letters included ([UMI] has an [M]), provided the table has no entry
    for the closing parenthesis and no element leaves a group name
    open. *)
Theorem build_match_str_expandIUPAC NT_TO_REGEXP (a : ccs_args) :
  NT_TO_REGEXP !! ")"%char = None ->
  (forall e, e ∈ elements a -> names_closed (list_ascii_of_string e)) ->
  re_expandIUPAC NT_TO_REGEXP (build_match_str a)
  = build_match_str (expand_elements NT_TO_REGEXP a).
Proof.
  intros Hparen Hc. unfold build_match_str, expand_elements.
  cbn [termini5 gene spacer umi barcode termini3].
  assert (He : forall o, o ∈ [termini5 a; Some (gene a); spacer a; umi a;
                              barcode a; termini3 a] ->
            forall e, o = Some e -> names_closed (list_ascii_of_string e)).
  { intros o Ho e ->. apply Hc. unfold elements.
    apply list_elem_of_omap. by exists (Some e). }
  assert (Hname : forall name,
            name ∈ ["termini5"; "gene"; "spacer"; "UMI"; "barcode"; "termini3"] ->
            ">"%char ∉ list_ascii_of_string name).
  { intros name Hn.
    repeat (apply elem_of_cons in Hn as [->|Hn];
            [apply (bool_decide_unpack _); vm_compute; reflexivity|]).
    by apply elem_of_nil in Hn. }
  rewrite <- (append_empty_r (named_group "termini3" (termini3 a))).
  rewrite <- (append_empty_r (named_group "termini3" (_ <$> termini3 a))).
  rewrite (re_expandIUPAC_named_group _ Hparen "termini5")
    by (first [apply Hname | apply He]; repeat constructor).
  rewrite (re_expandIUPAC_named_group _ Hparen "gene")
    by (first [apply Hname | apply He]; repeat constructor).
  rewrite (re_expandIUPAC_named_group _ Hparen "spacer")
    by (first [apply Hname | apply He]; repeat constructor).
  rewrite (re_expandIUPAC_named_group _ Hparen "UMI")
    by (first [apply Hname | apply He]; repeat constructor).
  rewrite (re_expandIUPAC_named_group _ Hparen "barcode")
    by (first [apply Hname | apply He]; repeat constructor).
  rewrite (re_expandIUPAC_named_group _ Hparen "termini3")
    by (first [apply Hname | apply He]; repeat constructor).
  reflexivity.
Qed.

(** The elements of the documentation: an arbitrary gene, a barcode of
    ten nucleotides, a UMI of eight, fixed termini. *)
Definition example_args : ccs_args :=
  {| termini5 := Some "ATG|CTG"; gene := "N+"; spacer := None;
     umi := Some "N{8}"; barcode := Some "N{10}"; termini3 := Some "CTT";
     ccs_targetvariants := None; ccs_mutationcaller := None;
     rc_barcode_umi := true |}.

Lemma names_closed_no_paren s : "("%char ∉ s -> names_closed s.
Proof.
  intros Hp a b ->. destruct Hp.
  apply elem_of_app. right. apply list_elem_of_here.
Qed.

Lemma build_match_str_expandIUPAC_witness :
  re_expandIUPAC IUPAC_NT_TO_REGEXP (build_match_str example_args)
  = "(?P<termini5>ATG|CTG)(?P<gene>[ACGT]+)(?P<UMI>[ACGT]{8})"
    +:+ "(?P<barcode>[ACGT]{10})(?P<termini3>CTT)".
Proof.
  rewrite (build_match_str_expandIUPAC IUPAC_NT_TO_REGEXP example_args).
  - vm_compute. reflexivity.
  - reflexivity.
  - intros e He. apply names_closed_no_paren.
    vm_compute in He.
    repeat (apply elem_of_cons in He as [->|He];
            [apply (bool_decide_unpack _); vm_compute; reflexivity|]).
    by apply elem_of_nil in He.
Defined.

(** ** The columns along matchAndAlignCCS *)

Lemma assign_assoc_eq df c col :
  assoc c (columns (assign df c col)) = Some col.
Proof.
  unfold assign, column_names. cbn [columns].
  destruct (bool_decide_reflect (c ∈ (columns df).*1)) as [Hin|Hn].
  - induction (columns df) as [|[k v] l IH]; [by apply elem_of_nil in Hin|].
    cbn [fmap list_fmap fst].
    destruct (decide (k = c)) as [->|Hne]; cbn [assoc].
    + by rewrite decide_True.
    + rewrite decide_False by done. apply IH.
      cbn in Hin. apply elem_of_cons in Hin as [->|Hin]; done.
  - rewrite assoc_app_r by done. cbn [assoc]. by rewrite decide_True.
Qed.

Lemma assign_assoc_ne df c c' col :
  c <> c' -> assoc c (columns (assign df c' col)) = assoc c (columns df).
Proof.
  intros Hne. unfold assign. cbn [columns]. destruct (bool_decide _).
  - induction (columns df) as [|[k v] l IH]; [done|].
    cbn [fmap list_fmap fst].
    destruct (decide (k = c')) as [->|Hk]; cbn [assoc].
    + by rewrite !decide_False by done.
    + destruct (decide (c = k)); [done | apply IH].
  - rewrite assoc_app. destruct (assoc c (columns df)); [done|].
    cbn [from_option assoc]. by rewrite decide_False.
Qed.

Lemma assign_wf df c col :
  wf_df df -> length col = length (index df) -> wf_df (assign df c col).
Proof.
  unfold wf_df, assign. cbn [columns index]. intros Hwf Hl.
  destruct (bool_decide _).
  - apply Forall_fmap. eapply Forall_impl; [done|].
    intros [k v] Hk. cbn. by destruct (decide _).
  - apply Forall_app. split; [done|]. by constructor.
Qed.

Lemma get_column_assoc df c col :
  get_column df c = Ok col -> assoc c (columns df) = Some col.
Proof.
  unfold get_column. destruct (assoc c (columns df)); [|done].
  cbn. by intros [= ->].
Qed.

Lemma get_column_cell df c col i :
  get_column df c = Ok col -> cell df c i = col !! i.
Proof. intros Hc%get_column_assoc. unfold cell. by rewrite Hc. Qed.

Lemma get_column_ext df df' c :
  assoc c (columns df') = assoc c (columns df) ->
  get_column df' c = get_column df c.
Proof. unfold get_column. by intros ->. Qed.

Lemma get_column_length df c col :
  wf_df df -> get_column df c = Ok col -> length col = length (index df).
Proof.
  intros Hwf Hc%get_column_assoc%assoc_elem.
  unfold wf_df in Hwf. rewrite Forall_forall in Hwf. by apply (Hwf _ Hc).
Qed.

Lemma df_names_cell df names i name :
  df_names df = Ok names -> names !! i = Some name ->
  cell df "name" i = Some (VStr name).
Proof.
  unfold df_names, cell.
  destruct (assoc "name" (columns df)) as [col|]; [|done].
  cbn [mbind option_bind]. intros Hm%mapM_result_Forall2 Hi.
  destruct (Forall2_lookup_r _ _ _ _ _ Hm Hi) as (v & Hv & Hs).
  rewrite Hv. by destruct v; try discriminate Hs; injection Hs as ->.
Qed.

Lemma df_names_ext df df' :
  assoc "name" (columns df') = assoc "name" (columns df) ->
  df_names df' = df_names df.
Proof. unfold df_names. by intros ->. Qed.

Lemma align_queries_ext df df' qc :
  assoc "name" (columns df') = assoc "name" (columns df) ->
  assoc qc (columns df') = assoc qc (columns df) ->
  align_queries df' qc = align_queries df qc.
Proof. unfold align_queries, df_names. by intros -> ->. Qed.

(** *** What alignSeqs keeps *)

Lemma alignSeqs_keeps df mapper qc ac o df' c :
  alignSeqs df mapper qc ac o = Ok df' ->
  c ∉ align_newcols ac o ->
  assoc c (columns df') = assoc c (columns df).
Proof.
  intros Hok Hc. apply alignSeqs_inv in Hok
    as (qvals & names & queries & map_dict & d & _ & _ & _ & _ & _ & Hcat).
  by eapply concat_columns_frame.
Qed.

Lemma alignSeqs_index df mapper qc ac o df' :
  alignSeqs df mapper qc ac o = Ok df' -> index df' = index df.
Proof.
  intros Hok. apply alignSeqs_inv in Hok
    as (qvals & names & queries & map_dict & d & _ & _ & _ & _ & _ & Hcat).
  by destruct (concat_columns_index _ _ _ _ _ Hcat).
Qed.

Lemma alignSeqs_wf df mapper qc ac o df' :
  wf_df df -> alignSeqs df mapper qc ac o = Ok df' -> wf_df df'.
Proof.
  intros Hwf Hok. apply alignSeqs_inv in Hok
    as (qvals & names & queries & map_dict & d & _ & _ & _ & _ & _ & Hcat).
  by eapply concat_columns_wf.
Qed.

(** With the default options a row is reported as aligned exactly when
    the mapper has an alignment for its name, and the alignment reported
    is that one. *)
Lemma alignSeqs_defaults_cells df mapper qc ac df' names queries map_dict
    i name :
  wf_df df ->
  alignSeqs df mapper qc ac align_defaults = Ok df' ->
  df_names df = Ok names ->
  align_queries df qc = Ok queries ->
  mapper_map mapper queries None = Ok map_dict ->
  names !! i = Some name ->
  cell df' ac i = Some (VBool (bool_decide (is_Some (map_dict !! name))))
  /\ cell df' (ac +:+ "_alignment") i
     = Some (from_option VAlignment VNone (map_dict !! name)).
Proof.
  intros Hwf (qvals & names' & queries' & map_dict' & Hq & Hn & Hqs & Hm
              & Hrows)%alignSeqs_cells Hnames Hqueries Hmap Hi; [|done].
  rewrite Hnames in Hn. apply Ok_inj in Hn as <-.
  rewrite Hqueries in Hqs. apply Ok_inj in Hqs as <-.
  cbn [paf_file align_defaults] in Hm.
  rewrite Hmap in Hm. apply Ok_inj in Hm as <-.
  destruct (Hrows i name Hi) as (apps & Hrow & Hcells).
  unfold align_row in Hrow. destruct (map_dict !! name) as [a|] eqn:Ha.
  - unfold aligned_appends in Hrow.
    destruct (negb (strand a =? 1)%Z); [done|].
    unfold call_targetvariants, call_mutations in Hrow.
    cbn [targetvariants mutationcaller align_defaults mbind result_bind]
      in Hrow.
    destruct (count_difftarget _ _ _ _) as [diff|]; [|done].
    cbn [mbind result_bind app] in Hrow. apply Ok_inj in Hrow as <-.
    split; apply Hcells; rewrite elem_of_app; left;
      unfold alignment_appends; cbn [add_alignment align_defaults].
    + apply list_elem_of_here.
    + apply list_elem_of_further, list_elem_of_here.
  - apply Ok_inj in Hrow as <-.
    split; apply Hcells; unfold unaligned_appends;
      cbn [add_alignment align_defaults].
    + apply list_elem_of_here.
    + apply list_elem_of_further, list_elem_of_here.
Qed.

(** *** The columns of the alignment of the gene *)

Lemma gene_newcols_prefix a :
  Forall (fun c => String.prefix "gene_aligned" c = true)
    (align_newcols "gene_aligned" (gene_align_options a)).
Proof.
  unfold align_newcols, opt_col, gene_align_options.
  cbn [add_alignment add_target add_cigar add_n_trimmed add_n_additional
       add_n_additional_difftarget targetvariants mutationcaller].
  destruct (ccs_targetvariants a), (ccs_mutationcaller a);
    apply (bool_decide_unpack _); vm_compute; reflexivity.
Qed.

Lemma gene_newcols_fresh a c :
  String.prefix "gene_aligned" c = false ->
  c ∉ align_newcols "gene_aligned" (gene_align_options a).
Proof.
  intros Hp Hin. pose proof (gene_newcols_prefix a) as Hall.
  rewrite Forall_forall in Hall. specialize (Hall _ Hin). congruence.
Qed.

(** *** Element-wise operations on columns *)

Lemma series_or_lookup a b r i x y :
  series_or a b = Ok r ->
  a !! i = Some (VBool x) -> b !! i = Some (VBool y) ->
  r !! i = Some (VBool (x || y)).
Proof.
  intros Hr Ha Hb.
  assert (Hz : zip a b !! i = Some (VBool x, VBool y))
    by (by apply lookup_zip_with_Some; eexists _, _).
  destruct (mapM_lookup _ _ _ _ _ Hr Hz) as (v & Hv & Hi).
  cbn in Hv. by injection Hv as <-.
Qed.

Lemma series_where_lookup s cond other r i x (b : bool) y :
  series_where s cond other = Ok r ->
  s !! i = Some x -> cond !! i = Some (VBool b) -> other !! i = Some y ->
  r !! i = Some (if b then x else y).
Proof.
  intros Hr Hs Hc Ho.
  assert (Hz : zip (zip s cond) other !! i = Some (x, VBool b, y)).
  { apply lookup_zip_with_Some. eexists _, _. split; [done|]. split; [|done].
    apply lookup_zip_with_Some. by eexists _, _. }
  destruct (mapM_lookup _ _ _ _ _ Hr Hz) as (v & Hv & Hi).
  cbn in Hv. destruct b; by injection Hv as <-.
Qed.

(** The three columns that [_align_CCS_both_orientations] adds. *)
Definition both_columns : list string :=
  ["CCS_aligned"; "CCS_aligned_alignment"; "CCS_aligned_target"].

(** The alignment kept of the two orientations: the one of the sequence
    as given if there is one, else the one of its reverse complement. *)
Definition first_alignment (a b : option Alignment) : option Alignment :=
  match a with
  | Some x => Some x
  | None => b
  end.

Ltac bind_inv H :=
  match type of H with
  | (?m ≫= _) = Ok _ =>
      let E := fresh "E" in
      destruct m eqn:E; [cbn [mbind result_bind] in H | discriminate H]
  end.

Section Pipeline.

Context `{RegexLib}.
Variable NT_TO_REGEXP : gmap ascii string.
Variable reverseComplement : string -> result string.

(** *** What matchSeqs keeps *)

Lemma matchSeqs_keeps df ms ctm mc o df' c :
  matchSeqs NT_TO_REGEXP reverseComplement df ms ctm mc o = Ok df' ->
  overwrite o = false ->
  c ∈ column_names df ->
  assoc c (columns df') = assoc c (columns df).
Proof.
  intros Hok Ho Hc. destruct ms as [pat|]; [|by apply Ok_inj in Hok as <-].
  destruct (matchSeqs_inv _ _ _ _ _ _ _ _ Hok) as (matcher & _ & Hm & _).
  destruct (matchSeqs_Ok_inv _ _ _ _ _ _ _ _ _ Hok Hm)
    as (_ & _ & Hdup & d & _ & _ & Hcat).
  eapply concat_columns_frame; [done|]. intros Hnew. specialize (Hdup Ho).
  assert (Hc' : c ∈ (list_to_set (match_columns matcher mc o) : gset string)
                    ∩ list_to_set (column_names df)).
  { rewrite elem_of_intersection, !elem_of_list_to_set. done. }
  rewrite Hdup in Hc'. by apply not_elem_of_empty in Hc'.
Qed.

Lemma matchSeqs_flag_keeps df ms ctm mc df' c :
  matchSeqs NT_TO_REGEXP reverseComplement df ms ctm mc flag_only = Ok df' ->
  c <> mc ->
  assoc c (columns df') = assoc c (columns df).
Proof.
  intros Hok Hc. destruct ms as [pat|]; [|by apply Ok_inj in Hok as <-].
  destruct (matchSeqs_inv _ _ _ _ _ _ _ _ Hok) as (matcher & _ & Hm & _).
  destruct (matchSeqs_Ok_inv _ _ _ _ _ _ _ _ _ Hok Hm)
    as (_ & _ & _ & d & _ & _ & Hcat).
  eapply concat_columns_frame; [done|].
  change (match_columns matcher mc flag_only) with [mc].
  by intros ->%list_elem_of_singleton.
Qed.

Lemma matchSeqs_wf df ms ctm mc o df' :
  wf_df df ->
  matchSeqs NT_TO_REGEXP reverseComplement df ms ctm mc o = Ok df' ->
  wf_df df'.
Proof.
  intros Hwf Hok. destruct ms as [pat|]; [|by apply Ok_inj in Hok as <-].
  destruct (matchSeqs_inv _ _ _ _ _ _ _ _ Hok) as (matcher & d & _ & _ & Hcat).
  by eapply concat_columns_wf.
Qed.

Lemma matchSeqs_index df ms ctm mc o df' :
  matchSeqs NT_TO_REGEXP reverseComplement df ms ctm mc o = Ok df' ->
  index df' = index df.
Proof.
  intros Hok. destruct ms as [pat|]; [|by apply Ok_inj in Hok as <-].
  destruct (matchSeqs_inv _ _ _ _ _ _ _ _ Hok) as (matcher & d & _ & _ & Hcat).
  by destruct (concat_columns_index _ _ _ _ _ Hcat).
Qed.

(** *** _align_CCS_both_orientations *)

Lemma align_CCS_both_orientations_inv df mapper res :
  _align_CCS_both_orientations reverseComplement df mapper = Ok res ->
  exists df_for ccs rev df_bi fa ra aligned fal ral alignment targets,
    alignSeqs df mapper "CCS" "CCS_for_aligned" align_defaults = Ok df_for
    /\ get_column df_for "CCS" = Ok ccs
    /\ map_reverseComplement reverseComplement ccs = Ok rev
    /\ alignSeqs (assign df_for "CCS_rev" rev) mapper "CCS_rev"
         "CCS_rev_aligned" align_defaults = Ok df_bi
    /\ get_column df_bi "CCS_for_aligned" = Ok fa
    /\ get_column df_bi "CCS_rev_aligned" = Ok ra
    /\ series_or fa ra = Ok aligned
    /\ get_column df_bi "CCS_for_aligned_alignment" = Ok fal
    /\ get_column df_bi "CCS_rev_aligned_alignment" = Ok ral
    /\ series_where fal fa ral = Ok alignment
    /\ mapM alignment_target alignment = Ok targets
    /\ res = assign (assign (assign df "CCS_aligned" aligned)
                       "CCS_aligned_alignment" alignment)
               "CCS_aligned_target" targets.
Proof.
  unfold _align_CCS_both_orientations. intros Hok.
  destruct (alignSeqs df mapper "CCS" "CCS_for_aligned" align_defaults)
    as [df_for|] eqn:E1; [|done].
  cbn [mbind result_bind] in Hok.
  destruct (get_column df_for "CCS") as [ccs|] eqn:E2; [|done].
  cbn [mbind result_bind] in Hok.
  destruct (map_reverseComplement reverseComplement ccs) as [rev|] eqn:E3;
    [|done].
  cbn [mbind result_bind] in Hok.
  destruct (alignSeqs (assign df_for "CCS_rev" rev) mapper "CCS_rev"
              "CCS_rev_aligned" align_defaults) as [df_bi|] eqn:E4; [|done].
  cbn [mbind result_bind] in Hok.
  destruct (get_column df_bi "CCS_for_aligned") as [fa|] eqn:E5; [|done].
  cbn [mbind result_bind] in Hok.
  destruct (get_column df_bi "CCS_rev_aligned") as [ra|] eqn:E6; [|done].
  cbn [mbind result_bind] in Hok.
  destruct (series_or fa ra) as [aligned|] eqn:E7; [|done].
  cbn [mbind result_bind] in Hok.
  destruct (get_column df_bi "CCS_for_aligned_alignment") as [fal|] eqn:E8;
    [|done].
  cbn [mbind result_bind] in Hok.
  destruct (get_column df_bi "CCS_rev_aligned_alignment") as [ral|] eqn:E9;
    [|done].
  cbn [mbind result_bind] in Hok.
  destruct (series_where fal fa ral) as [alignment|] eqn:E10; [|done].
  cbn [mbind result_bind] in Hok.
  unfold get_column in Hok at 1. rewrite assign_assoc_eq in Hok.
  cbn [from_option mbind result_bind] in Hok.
  destruct (mapM alignment_target alignment) as [targets|] eqn:E11; [|done].
  cbn [mbind result_bind] in Hok. apply Ok_inj in Hok as <-.
  by exists df_for, ccs, rev, df_bi, fa, ra, aligned, fal, ral, alignment,
    targets.
Qed.

Lemma align_CCS_both_orientations_keeps df mapper res c :
  _align_CCS_both_orientations reverseComplement df mapper = Ok res ->
  c ∉ both_columns ->
  assoc c (columns res) = assoc c (columns df).
Proof.
  intros (df_for & ccs & rev & df_bi & fa & ra & aligned & fal & ral
          & alignment & targets & _ & _ & _ & _ & _ & _ & _ & _ & _ & _ & _
          & ->)%align_CCS_both_orientations_inv Hc.
  unfold both_columns in Hc. rewrite !not_elem_of_cons in Hc.
  destruct Hc as (H1 & H2 & H3 & _).
  by rewrite !assign_assoc_ne by done.
Qed.

(** [_align_CCS_both_orientations] adds three columns and changes no
    other; the helper columns of the two alignments are not kept.  A row
    is reported as aligned when the mapper has an alignment for its
    sequence or for the reverse complement of it; the alignment reported
    is that of the sequence as given if there is one, else that of the
    reverse complement, and the target is the target of that alignment,
    or the empty string. *)
Theorem align_CCS_both_orientations_cells df mapper res :
  wf_df df ->
  _align_CCS_both_orientations reverseComplement df mapper = Ok res ->
  exists names ccs rev queries_for map_for queries_rev map_rev,
    df_names df = Ok names
    /\ get_column df "CCS" = Ok ccs
    /\ map_reverseComplement reverseComplement ccs = Ok rev
    /\ align_queries df "CCS" = Ok queries_for
    /\ mapper_map mapper queries_for None = Ok map_for
    /\ align_queries (assign df "CCS_rev" rev) "CCS_rev" = Ok queries_rev
    /\ mapper_map mapper queries_rev None = Ok map_rev
    /\ (forall c, c ∉ both_columns ->
          assoc c (columns res) = assoc c (columns df))
    /\ forall i name,
         names !! i = Some name ->
         let best := first_alignment (map_for !! name) (map_rev !! name) in
         cell res "CCS_aligned" i = Some (VBool (bool_decide (is_Some best)))
         /\ cell res "CCS_aligned_alignment" i
            = Some (from_option VAlignment VNone best)
         /\ cell res "CCS_aligned_target" i
            = Some (VStr (from_option target "" best)).
Proof.
  intros Hwf Hok.
  pose proof (fun c => align_CCS_both_orientations_keeps _ _ _ c Hok) as Hkeep.
  apply align_CCS_both_orientations_inv in Hok
    as (df_for & ccs & rev & df_bi & fa & ra & aligned & fal & ral
        & alignment & targets & H1 & Hccs & Hrev & H2 & Hfa & Hra & Hor
        & Hfal & Hral & Hwhere & Htargets & ->).
  pose proof (alignSeqs_wf _ _ _ _ _ _ Hwf H1) as Hwf1.
  pose proof (alignSeqs_index _ _ _ _ _ _ H1) as Hidx1.
  assert (Hfresh1 : forall c,
            c ∈ ["name"; "CCS"] ->
            assoc c (columns df_for) = assoc c (columns df)).
  { intros c Hc. eapply alignSeqs_keeps; [done|].
    repeat (apply elem_of_cons in Hc as [->|Hc];
            [apply (bool_decide_unpack _); vm_compute; reflexivity|]).
    by apply elem_of_nil in Hc. }
  assert (Hname1 : assoc "name" (columns df_for) = assoc "name" (columns df))
    by (apply Hfresh1; repeat constructor).
  assert (Hccs1 : assoc "CCS" (columns df_for) = assoc "CCS" (columns df))
    by (apply Hfresh1; repeat constructor).
  set (df1 := assign df_for "CCS_rev" rev) in *.
  assert (Hwf2 : wf_df df1).
  { apply assign_wf; [done|].
    rewrite (mapM_result_length _ _ _ Hrev).
    by apply (get_column_length df_for "CCS"). }
  assert (Hname2 : assoc "name" (columns df1) = assoc "name" (columns df)).
  { unfold df1. by rewrite assign_assoc_ne. }
  destruct (alignSeqs_inv _ _ _ _ _ _ H1)
    as (_ & names & queries_for & map_for & _ & _ & Hn1 & Hq1 & Hm1 & _).
  destruct (alignSeqs_inv _ _ _ _ _ _ H2)
    as (_ & names2 & queries_rev & map_rev & _ & _ & Hn2 & Hq2 & Hm2 & _).
  cbn [paf_file align_defaults] in Hm1, Hm2.
  rewrite (df_names_ext df df1) in Hn2 by done.
  rewrite Hn1 in Hn2. apply Ok_inj in Hn2 as <-.
  exists names, ccs, rev, queries_for, map_for, queries_rev, map_rev.
  split; [done|].
  split; [by rewrite <- (get_column_ext df df_for)|].
  split; [done|]. split; [done|]. split; [done|].
  split.
  { rewrite <- Hq2. apply align_queries_ext.
    - rewrite assign_assoc_ne by done. by rewrite Hname2.
    - unfold df1. by rewrite !assign_assoc_eq. }
  split; [done|]. split; [exact Hkeep|].
  intros i name Hi best.
  destruct (alignSeqs_defaults_cells _ _ _ _ _ _ _ _ i name Hwf H1 Hn1 Hq1 Hm1
              Hi) as [Hf Hfl].
  assert (Hn2' : df_names df1 = Ok names)
    by (by rewrite (df_names_ext df df1)).
  destruct (alignSeqs_defaults_cells _ _ _ _ _ _ _ _ i name Hwf2 H2 Hn2' Hq2
              Hm2 Hi) as [Hr Hrl].
  assert (Hkeep2 : forall c,
            c ∈ ["CCS_for_aligned"; "CCS_for_aligned_alignment"] ->
            cell df_bi c i = cell df_for c i).
  { intros c Hc. apply cell_assoc.
    rewrite (alignSeqs_keeps _ _ _ _ _ _ c H2).
    - unfold df1. apply assign_assoc_ne.
      repeat (apply elem_of_cons in Hc as [->|Hc]; [done|]).
      by apply elem_of_nil in Hc.
    - repeat (apply elem_of_cons in Hc as [->|Hc];
              [apply (bool_decide_unpack _); vm_compute; reflexivity|]).
      by apply elem_of_nil in Hc. }
  change ("CCS_for_aligned" +:+ "_alignment")
    with "CCS_for_aligned_alignment" in Hfl.
  change ("CCS_rev_aligned" +:+ "_alignment")
    with "CCS_rev_aligned_alignment" in Hrl.
  rewrite <- (Hkeep2 "CCS_for_aligned") in Hf by repeat constructor.
  rewrite <- (Hkeep2 "CCS_for_aligned_alignment") in Hfl
    by (apply list_elem_of_further; repeat constructor).
  rewrite (get_column_cell _ _ _ _ Hfa) in Hf.
  rewrite (get_column_cell _ _ _ _ Hra) in Hr.
  rewrite (get_column_cell _ _ _ _ Hfal) in Hfl.
  rewrite (get_column_cell _ _ _ _ Hral) in Hrl.
  pose proof (series_or_lookup _ _ _ _ _ _ Hor Hf Hr) as Ha.
  pose proof (series_where_lookup _ _ _ _ _ _ _ _ Hwhere Hfl Hf Hrl) as Hal.
  destruct (mapM_lookup _ _ _ _ _ Htargets Hal) as (t & Ht & Hti).
  unfold cell.
  rewrite (assign_assoc_ne _ "CCS_aligned" "CCS_aligned_target") by done.
  rewrite (assign_assoc_ne _ "CCS_aligned" "CCS_aligned_alignment") by done.
  rewrite (assign_assoc_ne _ "CCS_aligned_alignment" "CCS_aligned_target")
    by done.
  rewrite !assign_assoc_eq.
  cbn [mbind option_bind]. subst best.
  rewrite Ha, Hal, Hti. clear -Ht.
  destruct (map_for !! name) as [af|], (map_rev !! name) as [ar|];
    cbn in Ht |- *; apply Ok_inj in Ht as <-; done.
Qed.

(** *** The steps of matchAndAlignCCS *)

Definition flag_columns : list string :=
  ["has_termini5"; "has_termini3"; "has_spacer"].

Lemma rc_column_keeps b c' df df' c :
  rc_column reverseComplement b c' df = Ok df' ->
  c <> c' ->
  assoc c (columns df') = assoc c (columns df).
Proof.
  unfold rc_column. destruct b; [|by intros <-%Ok_inj].
  destruct (get_column df c' ≫= _) as [col|]; [|done].
  cbn [mbind result_bind]. intros <-%Ok_inj Hne. by apply assign_assoc_ne.
Qed.

Lemma matchAndAlignCCS_inv ccslist mapper a res :
  matchAndAlignCCS NT_TO_REGEXP reverseComplement ccslist mapper a = Ok res ->
  exists df0 df1 df4 df5 df6 df7,
    ccslist_df ccslist = Ok df0
    /\ matchSeqs NT_TO_REGEXP reverseComplement df0
         (Some (build_match_str a)) "CCS" "barcoded" match_defaults = Ok df1
    /\ (forall c, c ∉ flag_columns ->
          assoc c (columns df4) = assoc c (columns df1))
    /\ (wf_df df1 -> wf_df df4)
    /\ index df4 = index df1
    /\ alignSeqs df4 mapper "gene" "gene_aligned" (gene_align_options a)
       = Ok df5
    /\ _align_CCS_both_orientations reverseComplement df5 mapper = Ok df6
    /\ rc_column reverseComplement
         (rc_barcode_umi a && bool_decide (is_Some (barcode a))) "barcode" df6
       = Ok df7
    /\ rc_column reverseComplement
         (rc_barcode_umi a && bool_decide (is_Some (umi a))) "UMI" df7
       = Ok res.
Proof.
  unfold matchAndAlignCCS. intros Hok.
  destruct (ccslist_df ccslist) as [df0|] eqn:E0; [|done].
  cbn [mbind result_bind] in Hok.
  destruct (matchSeqs _ _ df0 _ _ _ _) as [df1|] eqn:E1; [|done].
  cbn [mbind result_bind] in Hok.
  destruct (matchSeqs _ _ df1 _ _ _ _) as [df2|] eqn:E2; [|done].
  cbn [mbind result_bind] in Hok.
  destruct (matchSeqs _ _ df2 _ _ _ _) as [df3|] eqn:E3; [|done].
  cbn [mbind result_bind] in Hok.
  destruct (matchSeqs _ _ df3 _ _ _ _) as [df4|] eqn:E4; [|done].
  cbn [mbind result_bind] in Hok.
  destruct (alignSeqs df4 _ _ _ _) as [df5|] eqn:E5; [|done].
  cbn [mbind result_bind] in Hok.
  destruct (_align_CCS_both_orientations _ df5 _) as [df6|] eqn:E6; [|done].
  cbn [mbind result_bind] in Hok.
  destruct (rc_column _ _ "barcode" df6) as [df7|] eqn:E7; [|done].
  cbn [mbind result_bind] in Hok.
  exists df0, df1, df4, df5, df6, df7.
  split; [done|]. split; [done|]. split.
  { intros c Hc. unfold flag_columns in Hc. rewrite !not_elem_of_cons in Hc.
    destruct Hc as (H5 & H3 & Hs & _).
    rewrite (matchSeqs_flag_keeps _ _ _ _ _ c E4) by done.
    rewrite (matchSeqs_flag_keeps _ _ _ _ _ c E3) by done.
    by rewrite (matchSeqs_flag_keeps _ _ _ _ _ c E2) by done. }
  split.
  { intros Hwf. eapply matchSeqs_wf; [|exact E4].
    eapply matchSeqs_wf; [|exact E3]. by eapply matchSeqs_wf. }
  split.
  { rewrite (matchSeqs_index _ _ _ _ _ _ E4), (matchSeqs_index _ _ _ _ _ _ E3).
    by rewrite (matchSeqs_index _ _ _ _ _ _ E2). }
  done.
Qed.

(** A row whose gene is reported as aligned is a row in which the whole
    pattern was found, when the mapper answers only for the queries it
    is given and the pattern names the group [gene]: a row without a
    match has the empty string as gene, which is not sent to the
    mapper. *)
Theorem matchAndAlignCCS_gene_aligned ccslist mapper a df res matcher i :
  answers_queries mapper ->
  ccslist_df ccslist = Ok df ->
  wf_df df ->
  matchAndAlignCCS NT_TO_REGEXP reverseComplement ccslist mapper a = Ok res ->
  compiled_pattern NT_TO_REGEXP match_defaults (build_match_str a)
  = Ok matcher ->
  "gene" ∈ groupindex matcher ->
  i < length (index df) ->
  cell res "gene_aligned" i = Some (VBool true) ->
  cell res "barcoded" i = Some (VBool true).
Proof.
  intros Hmapper Hdf Hwf Hok Hc Hg Hi Hga.
  apply matchAndAlignCCS_inv in Hok
    as (df0 & df1 & df4 & df5 & df6 & df7 & Hdf0 & H1 & Hflag & Hwf4 & Hidx4
        & H5 & H6 & H7 & H8).
  rewrite Hdf in Hdf0. apply Ok_inj in Hdf0 as <-.
  assert (Htail : forall c,
            c ∈ ["gene_aligned"; "barcoded"] ->
            cell res c i = cell df5 c i).
  { intros c Hin. apply cell_assoc.
    rewrite (rc_column_keeps _ _ _ _ c H8), (rc_column_keeps _ _ _ _ c H7).
    - apply (align_CCS_both_orientations_keeps _ _ _ c H6).
      repeat (apply elem_of_cons in Hin as [->|Hin];
              [apply (bool_decide_unpack _); vm_compute; reflexivity|]).
      by apply elem_of_nil in Hin.
    - repeat (apply elem_of_cons in Hin as [->|Hin]; [done|]).
      by apply elem_of_nil in Hin.
    - repeat (apply elem_of_cons in Hin as [->|Hin]; [done|]).
      by apply elem_of_nil in Hin. }
  pose proof (matchSeqs_wf _ _ _ _ _ _ Hwf H1) as Hwf1.
  pose proof (matchSeqs_index _ _ _ _ _ _ H1) as Hidx1.
  destruct (matchSeqs_row_cells _ _ _ _ _ _ _ _ _ i H1 Hc Hi)
    as [[_ Hsent]|[Hb _]].
  - exfalso. destruct (Hsent "gene" Hg) as [Hgene _].
    assert (Hgene4 : cell df4 "gene" i = Some (VStr "")).
    { rewrite <- Hgene. apply cell_assoc, Hflag.
      apply (bool_decide_unpack _). vm_compute. reflexivity. }
    destruct (alignSeqs_Ok_inv _ _ _ _ _ _ H5)
      as (_ & _ & _ & names & Hn & _).
    assert (Hlen : length names = length (index df))
      by (rewrite <- Hidx1, <- Hidx4; apply df_names_length; auto).
    destruct (lookup_lt_is_Some_2 names i) as [name Hname]; [lia|].
    pose proof (df_names_cell _ _ _ _ Hn Hname) as Hcell.
    pose proof (empty_query_unaligned _ _ _ _ _ _ _ _ (Hwf4 Hwf1) Hmapper H5
                  Hcell Hgene4) as Hun.
    rewrite (Htail "gene_aligned"), Hun in Hga by repeat constructor.
    discriminate Hga.
  - rewrite (Htail "barcoded")
      by (apply list_elem_of_further; repeat constructor).
    rewrite <- Hb. apply cell_assoc.
    rewrite (alignSeqs_keeps _ _ _ _ _ _ "barcoded" H5)
      by (by apply gene_newcols_fresh).
    apply Hflag. apply (bool_decide_unpack _). vm_compute. reflexivity.
Qed.

(** With [rc_barcode_umi], the column [barcode] of the result holds the
    reverse complement of the barcode that was matched, while the
    Q-values and the accuracy of the barcode are those of the match, in
    the orientation of the match. *)
Theorem matchAndAlignCCS_rc_barcode ccslist mapper a df res b :
  ccslist_df ccslist = Ok df ->
  matchAndAlignCCS NT_TO_REGEXP reverseComplement ccslist mapper a = Ok res ->
  rc_barcode_umi a = true ->
  barcode a = Some b ->
  exists df1,
    matchSeqs NT_TO_REGEXP reverseComplement df (Some (build_match_str a))
      "CCS" "barcoded" match_defaults = Ok df1
    /\ forall i,
         (forall v, cell df1 "barcode" i = Some v ->
            exists s r,
              v = VStr s /\ reverseComplement s = Ok r
              /\ cell res "barcode" i = Some (VStr r))
         /\ cell res "barcode_qvals" i = cell df1 "barcode_qvals" i
         /\ cell res "barcode_accuracy" i = cell df1 "barcode_accuracy" i.
Proof.
  intros Hdf Hok Hrc Hb.
  apply matchAndAlignCCS_inv in Hok
    as (df0 & df1 & df4 & df5 & df6 & df7 & Hdf0 & H1 & Hflag & _ & _
        & H5 & H6 & H7 & H8).
  rewrite Hdf in Hdf0. apply Ok_inj in Hdf0 as <-.
  exists df1. split; [done|].
  assert (Hkeep : forall c,
            c ∈ ["barcode"; "barcode_qvals"; "barcode_accuracy"] ->
            assoc c (columns df6) = assoc c (columns df1)).
  { intros c Hin.
    rewrite (align_CCS_both_orientations_keeps _ _ _ c H6).
    - rewrite (alignSeqs_keeps _ _ _ _ _ _ c H5).
      + apply Hflag.
        repeat (apply elem_of_cons in Hin as [->|Hin];
                [apply (bool_decide_unpack _); vm_compute; reflexivity|]).
        by apply elem_of_nil in Hin.
      + apply gene_newcols_fresh.
        repeat (apply elem_of_cons in Hin as [->|Hin]; [reflexivity|]).
        by apply elem_of_nil in Hin.
    - repeat (apply elem_of_cons in Hin as [->|Hin];
              [apply (bool_decide_unpack _); vm_compute; reflexivity|]).
      by apply elem_of_nil in Hin. }
  assert (Htail : forall c i,
            c ∈ ["barcode_qvals"; "barcode_accuracy"] ->
            cell res c i = cell df1 c i).
  { intros c i Hin. apply cell_assoc.
    rewrite (rc_column_keeps _ _ _ _ c H8), (rc_column_keeps _ _ _ _ c H7).
    - apply Hkeep. by apply list_elem_of_further.
    - repeat (apply elem_of_cons in Hin as [->|Hin]; [done|]).
      by apply elem_of_nil in Hin.
    - repeat (apply elem_of_cons in Hin as [->|Hin]; [done|]).
      by apply elem_of_nil in Hin. }
  intros i. split; [|split; apply Htail; repeat constructor].
  intros v Hv.
  rewrite Hrc, Hb in H7. cbn [andb] in H7.
  rewrite bool_decide_eq_true_2 in H7 by done. unfold rc_column in H7.
  destruct (get_column df6 "barcode") as [col|] eqn:Hcol; [|done].
  cbn [mbind result_bind] in H7.
  destruct (map_reverseComplement reverseComplement col) as [col'|] eqn:Hmap;
    [|done].
  cbn [mbind result_bind] in H7. apply Ok_inj in H7 as <-.
  assert (Hi : col !! i = Some v).
  { rewrite <- (get_column_cell _ _ _ _ Hcol), <- Hv.
    apply cell_assoc, Hkeep. repeat constructor. }
  destruct (mapM_lookup _ _ _ _ _ Hmap Hi) as (y & Hy & Hyi).
  destruct v; try discriminate Hy. cbn [as_str mbind result_bind] in Hy.
  destruct (reverseComplement s) as [r|] eqn:Hr; [|done].
  cbn [mbind result_bind] in Hy. apply Ok_inj in Hy as <-.
  exists s, r. split; [done|]. split; [done|].
  rewrite <- Hyi. unfold cell.
  rewrite (rc_column_keeps _ _ _ _ "barcode" H8) by done.
  by rewrite assign_assoc_eq.
Qed.

(** Every sequence is reverse complemented on the way, whether or not
    it matches as given: a sequence that [reverseComplement] rejects
    makes the whole call raise. *)
Theorem matchAndAlignCCS_unknown_base ccslist mapper a df i s e :
  ccslist_df ccslist = Ok df ->
  cell df "CCS" i = Some (VStr s) ->
  reverseComplement s = Err e ->
  is_Err (matchAndAlignCCS NT_TO_REGEXP reverseComplement ccslist mapper a).
Proof.
  intros Hdf Hs He.
  destruct (matchAndAlignCCS _ _ _ _ _) as [res|] eqn:Hok; [|done].
  exfalso. apply matchAndAlignCCS_inv in Hok
    as (df0 & df1 & df4 & df5 & df6 & df7 & Hdf0 & H1 & Hflag & _ & _
        & H5 & H6 & _).
  rewrite Hdf in Hdf0. apply Ok_inj in Hdf0 as <-.
  apply align_CCS_both_orientations_inv in H6
    as (df_for & ccs & rev & _ & _ & _ & _ & _ & _ & _ & _ & Hfor & Hccs
        & Hrev & _).
  assert (Hin : "CCS" ∈ column_names df).
  { apply assoc_is_Some. unfold cell in Hs.
    by destruct (assoc "CCS" (columns df)). }
  assert (Hi : ccs !! i = Some (VStr s)).
  { rewrite <- (get_column_cell _ _ _ _ Hccs), <- Hs. apply cell_assoc.
    rewrite (alignSeqs_keeps _ _ _ _ _ _ "CCS" Hfor)
      by (apply (bool_decide_unpack _); vm_compute; reflexivity).
    rewrite (alignSeqs_keeps _ _ _ _ _ _ "CCS" H5)
      by (by apply gene_newcols_fresh).
    rewrite Hflag by (apply (bool_decide_unpack _); vm_compute; reflexivity).
    by apply (matchSeqs_keeps _ _ _ _ _ _ "CCS" H1). }
  destruct (mapM_lookup _ _ _ _ _ Hrev Hi) as (y & Hy & _).
  cbn [as_str mbind result_bind] in Hy. by rewrite He in Hy.
Qed.

End Pipeline.

(** *** A small run of the pipeline *)

(** A mapper that aligns the queries whose sequence is [q], to [a]. *)
Definition sequence_mapper (q : string) (a : Alignment) : Mapper :=
  {| mapper_map := fun queries _ =>
       Ok (list_to_map
             ((fun p => (p.1, a))
                <$> filter (fun p : string * string => p.2 = q) queries));
     target_isoforms := {[ "geneA" := ({[ "geneA" ]} : gset string) ]} |}.

(** Three sequences: the first is the one the mapper aligns, the second
    its reverse complement, the third neither. *)
Definition both_df : DataFrame :=
  {| index_name := None;
     index := [0; 1; 2]%Z;
     columns := [("name", [VStr "fwd"; VStr "rev"; VStr "none"]);
                 ("CCS", [VStr "AACG"; VStr "CGTT"; VStr "GGGG"])] |}.

Lemma align_CCS_both_orientations_cells_witness :
  exists res,
    _align_CCS_both_orientations reverseComplement both_df
      (sequence_mapper "AACG" gene_alignment) = Ok res
    /\ assoc "CCS" (columns res) = assoc "CCS" (columns both_df)
    /\ cell res "CCS_aligned" 1 = Some (VBool true)
    /\ cell res "CCS_aligned_alignment" 1 = Some (VAlignment gene_alignment)
    /\ cell res "CCS_aligned_target" 1 = Some (VStr "geneA")
    /\ cell res "CCS_aligned" 2 = Some (VBool false)
    /\ cell res "CCS_aligned_target" 2 = Some (VStr "").
Proof.
  assert (Hwf : wf_df both_df)
    by (apply (bool_decide_unpack _); vm_compute; reflexivity).
  destruct (_align_CCS_both_orientations reverseComplement both_df
              (sequence_mapper "AACG" gene_alignment)) as [res|] eqn:Hok;
    [|vm_compute in Hok; discriminate Hok].
  destruct (align_CCS_both_orientations_cells reverseComplement both_df
              (sequence_mapper "AACG" gene_alignment) res Hwf Hok)
    as (names & ccs & rev & queries_for & map_for & queries_rev & map_rev
        & Hn & Hccs & Hrev & Hqf & Hmf & Hqr & Hmr & Hkeep & Hrows).
  vm_compute in Hn. apply Ok_inj in Hn as <-.
  vm_compute in Hccs. apply Ok_inj in Hccs as <-.
  vm_compute in Hrev. apply Ok_inj in Hrev as <-.
  vm_compute in Hqf. apply Ok_inj in Hqf as <-.
  vm_compute in Hqr. apply Ok_inj in Hqr as <-.
  apply Ok_inj in Hmf as <-. apply Ok_inj in Hmr as <-.
  destruct (Hrows 1 "rev" eq_refl) as (Ha1 & Hal1 & Ht1).
  destruct (Hrows 2 "none" eq_refl) as (Ha2 & _ & Ht2).
  exists res. split; [done|].
  split; [apply Hkeep; apply (bool_decide_unpack _); vm_compute; reflexivity|].
  split; [exact Ha1|]. split; [exact Hal1|]. split; [exact Ht1|].
  split; [exact Ha2 | exact Ht2].
Defined.

(** Two reads: the first holds the pattern, the second does not. *)
Definition pipeline_df : DataFrame :=
  {| index_name := None;
     index := [0; 1]%Z;
     columns :=
       [("name", [VStr "read1"; VStr "read2"]);
        ("CCS", [VStr "ACGACGTTTCCTT"; VStr "GGGCATGCACTTA"]);
        ("CCS_qvals", [VArray (replicate 13 30%Z); VArray (replicate 13 30%Z)])]
  |}.

Definition pipeline_ccs : CCS :=
  {| samplename := "test"; CCS_df := pipeline_df |}.

Definition pipeline_args : ccs_args :=
  {| termini5 := Some "ACG"; gene := "N{4}"; spacer := None; umi := None;
     barcode := Some "N{3}"; termini3 := Some "CTT";
     ccs_targetvariants := None; ccs_mutationcaller := None;
     rc_barcode_umi := true |}.

Lemma matchAndAlignCCS_gene_aligned_witness :
  exists res,
    matchAndAlignCCS IUPAC_NT_TO_REGEXP reverseComplement (OneCCS pipeline_ccs)
      (read1_mapper gene_alignment) pipeline_args = Ok res
    /\ cell res "barcoded" 0 = Some (VBool true).
Proof.
  eexists. split; [vm_compute; reflexivity|].
  eapply (matchAndAlignCCS_gene_aligned IUPAC_NT_TO_REGEXP reverseComplement
            (OneCCS pipeline_ccs) (read1_mapper gene_alignment) pipeline_args
            pipeline_df _ _ 0).
  - apply read1_mapper_answers.
  - reflexivity.
  - apply (bool_decide_unpack _). vm_compute. reflexivity.
  - vm_compute; reflexivity.
  - vm_compute; reflexivity.
  - apply (bool_decide_unpack _). vm_compute. reflexivity.
  - vm_compute; lia.
  - vm_compute; reflexivity.
Defined.

Lemma matchAndAlignCCS_rc_barcode_witness :
  exists res,
    matchAndAlignCCS IUPAC_NT_TO_REGEXP reverseComplement (OneCCS pipeline_ccs)
      (read1_mapper gene_alignment) pipeline_args = Ok res
    /\ cell res "barcode" 0 = Some (VStr "GAA")
    /\ cell res "barcode_qvals" 0 = Some (VArray [30; 30; 30]%Z).
Proof.
  destruct (matchAndAlignCCS IUPAC_NT_TO_REGEXP reverseComplement
              (OneCCS pipeline_ccs) (read1_mapper gene_alignment)
              pipeline_args) as [res|] eqn:Hok;
    [|vm_compute in Hok; discriminate Hok].
  destruct (matchAndAlignCCS_rc_barcode IUPAC_NT_TO_REGEXP reverseComplement
              (OneCCS pipeline_ccs) (read1_mapper gene_alignment)
              pipeline_args pipeline_df res "N{3}" eq_refl Hok eq_refl eq_refl)
    as (df1 & H1 & Hcells).
  vm_compute in H1. apply Ok_inj in H1 as <-.
  destruct (Hcells 0) as (Hb & Hq & _).
  destruct (Hb (VStr "TTC") eq_refl) as (s & r & Hs & Hr & Hres).
  injection Hs as <-. vm_compute in Hr. apply Ok_inj in Hr as <-.
  exists res. split; [done|]. split; [exact Hres|]. exact Hq.
Defined.

(** A read with a character that has no complement. *)
Definition unknown_base_ccs : CCS :=
  {| samplename := "test";
     CCS_df :=
       {| index_name := None;
          index := [0%Z];
          columns := [("name", [VStr "read1"]);
                      ("CCS", [VStr "ACGACGTXTCCTT"]);
                      ("CCS_qvals", [VArray (replicate 13 30%Z)])] |} |}.

Lemma matchAndAlignCCS_unknown_base_witness :
  is_Err (matchAndAlignCCS IUPAC_NT_TO_REGEXP reverseComplement
            (OneCCS unknown_base_ccs) (read1_mapper gene_alignment)
            pipeline_args).
Proof.
  eapply (matchAndAlignCCS_unknown_base IUPAC_NT_TO_REGEXP reverseComplement
            (OneCCS unknown_base_ccs) (read1_mapper gene_alignment)
            pipeline_args _ 0 "ACGACGTXTCCTT" ValueError).
  - reflexivity.
  - reflexivity.
  - vm_compute; reflexivity.
Defined.
